(** * wingmann::containers::vector: a shallow embedding and its properties

    The development models [vector<Type, Allocator>] of [vector.h] with
    [Allocator = std::allocator<Type>]:

    - [size_type] is [Z] reduced modulo [2^64];
    - a pointer is a block identifier and an element offset, the offset
      being kept modulo [2^64] the way address arithmetic wraps;
    - the free store is a list of blocks, each a list of slots; a slot
      holds an element value or nothing determinate;
    - a member function is a function from the machine state to an
      outcome: a normal return, a thrown exception, or undefined
      behaviour (an access outside a live block, an assignment to a slot
      that holds no object, a loop without exit).

    The [static_assert]s of the source name run-time values and state
    preconditions only; they are not executed and are not modelled. *)

From stdpp Require Import base numbers list option.

Local Open Scope Z_scope.

(** ** size_type and pointers *)

Definition modulus : Z := 2 ^ 64.

(** Conversion to [size_type] and unsigned arithmetic. *)
Definition wrap (z : Z) : Z := z mod modulus.

(** [std::numeric_limits<difference_type>::max()]. *)
Definition difference_max : Z := 2 ^ 63 - 1.

Record ptr : Type := Ptr { blk : nat; off : Z }.

Definition nullptr : ptr := Ptr 0 0.

Definition ptr_eqb (p q : ptr) : bool :=
  Nat.eqb (blk p) (blk q) && (off p =? off q).

(** [p + n] for an unsigned [n]. *)
Definition ptr_add (p : ptr) (n : Z) : ptr := Ptr (blk p) (wrap (off p + n)).

(** [p - n]. *)
Definition ptr_sub (p : ptr) (n : Z) : ptr := Ptr (blk p) (wrap (off p - n)).

(** Modelled from the spec: the iterator type
    [iterators::random_access_iterator<Type>] is declared in a header
    that is not among the sources; it is described as a random-access
    cursor over the contiguous buffer with dereference, offset,
    increment, decrement and subtraction as distance (the shape of
    [pointer_wrapper], whose [operator-] subtracts the base pointers).
    An iterator is therefore the pointer it wraps.
    [std::distance(first, last)] on random-access iterators is
    [last - first]; the result is stored in a [size_type]. *)
Definition distance (first last : ptr) : Z := wrap (off last - off first).

(** ** The element type's properties consulted by the algorithms *)

Record traits : Type := Traits {
  is_nothrow_move_constructible : bool;
  is_copy_constructible : bool
}.

Inductive value_category : Type := lvalue | rvalue.

Inductive exn : Type :=
| out_of_range
| length_error
| bad_alloc
| element_exception.

Inductive event : Type :=
| EvAllocate (b : nat) (n : Z)
| EvDeallocate (b : nat) (n : Z)
| EvConstruct (p : ptr)
| EvDestroy (p : ptr).

(** A slot of a block: [Some v] is an object of value [v]; [None] is
    memory without a determinate value (never constructed, or destroyed). *)
Abbreviation slot T := (option T) (only parsing).

(** Block [S b] is entry [b] of the list; a released block is [None].
    Block [0] is where [nullptr] points: it never exists. *)
Abbreviation heap T := (list (option (list (slot T)))) (only parsing).

Section Vector.

Context {T : Type}.
Variable tr : traits.

Record vector : Type := Vector {
  data_ : ptr;
  size_ : Z;
  capacity_ : Z
}.

(** [throw_after = Some k]: the next [k] potentially-throwing
    constructions succeed and the one after throws, once. *)
Record machine : Type := Machine {
  self : vector;
  mem : heap T;
  throw_after : option nat;
  trace : list event
}.

Inductive outcome (A : Type) : Type :=
| Ok (a : A) (m : machine)
| Throw (e : exn) (m : machine)
| Fault.

Arguments Ok {A} a m.
Arguments Throw {A} e m.
Arguments Fault {A}.

Definition M (A : Type) : Type := machine -> outcome A.

Definition ret {A} (a : A) : M A := fun m => Ok a m.

Definition bind {A B} (c : M A) (k : A -> M B) : M B :=
  fun m =>
    match c m with
    | Ok a m' => k a m'
    | Throw e m' => Throw e m'
    | Fault => Fault
    end.

Declare Scope vec_scope.
Delimit Scope vec_scope with vec.

Notation "x <- c1 ;; c2" := (bind c1 (fun x => c2))
  (at level 100, c1 at next level, right associativity) : vec_scope.
Notation "c1 ;; c2" := (bind c1 (fun _ => c2))
  (at level 100, c2 at level 200, only parsing, right associativity) : vec_scope.

Local Open Scope vec_scope.

Definition throw {A} (e : exn) : M A := fun m => Throw e m.

Definition fault {A} : M A := fun _ => Fault.

(** [try { c } catch (...) { cleanup; throw; }] *)
Definition on_exception {A} (c : M A) (cleanup : M unit) : M A :=
  fun m =>
    match c m with
    | Throw e m' =>
        match cleanup m' with
        | Ok _ m'' => Throw e m''
        | Throw e' m'' => Throw e' m''
        | Fault => Fault
        end
    | r => r
    end.

(** ** Loops *)

(** [n] rounds of [body], at [k], [k + 1], ... *)
Fixpoint iterate (body : Z -> M unit) (n : nat) (k : Z) : M unit :=
  match n with
  | O => ret tt
  | S n' => body k ;; iterate body n' (k + 1)
  end.

(** [for (size_type index = lo; index < hi; ++index) body] *)
Definition for_ (lo hi : Z) (body : Z -> M unit) : M unit :=
  iterate body (Z.to_nat (hi - lo)) lo.

(** [try { loop { body; ++made; } } catch (...) { cleanup(made); throw; }]
    where [made] counts the rounds completed so far. *)
Fixpoint try_iterate (body cleanup : Z -> M unit) (n : nat) (k made : Z)
  : M unit :=
  match n with
  | O => ret tt
  | S n' =>
      on_exception (body k) (cleanup made) ;;
      try_iterate body cleanup n' (k + 1) (made + 1)
  end.

(** ** The fields of [*this] *)

Definition get {A} (f : vector -> A) : M A := fun m => Ok (f (self m)) m.

Definition set_self (v : vector) : M unit :=
  fun m => Ok tt (Machine v (mem m) (throw_after m) (trace m)).

Definition set_data (p : ptr) : M unit :=
  v <- get (fun v => v) ;; set_self (Vector p (size_ v) (capacity_ v)).

Definition set_size (n : Z) : M unit :=
  v <- get (fun v => v) ;; set_self (Vector (data_ v) n (capacity_ v)).

Definition set_capacity (n : Z) : M unit :=
  v <- get (fun v => v) ;; set_self (Vector (data_ v) (size_ v) n).

(** ** The free store *)

Definition block_at (h : heap T) (b : nat) : option (list (slot T)) :=
  match b with
  | O => None
  | S b' => match h !! b' with Some (Some bl) => Some bl | _ => None end
  end.

Definition in_block (bl : list (slot T)) (o : Z) : bool :=
  (0 <=? o) && (o <? Z.of_nat (length bl)).

Definition read_slot (h : heap T) (p : ptr) : option (slot T) :=
  match block_at h (blk p) with
  | Some bl => if in_block bl (off p) then bl !! Z.to_nat (off p) else None
  | None => None
  end.

Definition write_slot (h : heap T) (p : ptr) (s : slot T) : option (heap T) :=
  match block_at h (blk p) with
  | Some bl =>
      if in_block bl (off p)
      then Some (<[pred (blk p) := Some (<[Z.to_nat (off p) := s]> bl)]> h)
      else None
  | None => None
  end.

Definition set_mem (h : heap T) : M unit :=
  fun m => Ok tt (Machine (self m) h (throw_after m) (trace m)).

Definition log (e : event) : M unit :=
  fun m => Ok tt (Machine (self m) (mem m) (throw_after m) (trace m ++ [e])).

(** [*p] read as a value; outside a live block the read is undefined.
    Inside one, a slot without an object reads as such and what is
    constructed from it is not an object either: the defect shows where
    that slot is assigned to ([assign_slot]) or compared ([load_value]). *)
Definition load (p : ptr) : M (slot T) :=
  fun m =>
    match read_slot (mem m) p with
    | Some s => Ok s m
    | None => Fault
    end.

(** The slot [p] receives [s]: the effect on the storage of a
    construction at [p] or of the destruction of the object there. *)
Definition store (p : ptr) (s : slot T) : M unit :=
  fun m =>
    match write_slot (mem m) p s with
    | Some h => set_mem h m
    | None => Fault
    end.

(** [*p = s], the assignment operator of the element at [p]: there has
    to be an object at [p]; assigning to a slot that holds none (never
    constructed, destroyed, or built from such a slot) is undefined.
    Assignments of elements do not throw here. *)
Definition assign_slot (p : ptr) (s : slot T) : M unit :=
  fun m =>
    match read_slot (mem m) p with
    | Some (Some _) => store p s m
    | _ => Fault
    end.

(** One construction that is allowed to throw. *)
Definition may_throw : M unit :=
  fun m =>
    match throw_after m with
    | None => Ok tt m
    | Some (S k) => Ok tt (Machine (self m) (mem m) (Some k) (trace m))
    | Some O => Throw element_exception (Machine (self m) (mem m) None (trace m))
    end.

(** ** std::allocator_traits<std::allocator<Type>> *)

(** [allocate(allocator_, n)]: a fresh block of [n] slots without value.
    A request beyond the addressable range throws. *)
Definition allocator_allocate (n : Z) : M ptr :=
  fun m =>
    if difference_max <? n then Throw bad_alloc m
    else
      let b := S (length (mem m)) in
      Ok (Ptr b 0)
         (Machine (self m)
                  (mem m ++ [Some (replicate (Z.to_nat n) None)])
                  (throw_after m)
                  (trace m ++ [EvAllocate b n])).

(** [deallocate(allocator_, p, n)]: releases the block [p] starts; a
    null pointer is ignored, as [operator delete] does. The standard
    asks for [n] to be the size the block was allocated with. The model
    does not check it: it releases the block and records [n] in the
    trace, so that a release with another size than the block was
    allocated with shows in the trace of the run. *)
Definition allocator_deallocate (p : ptr) (n : Z) : M unit :=
  if ptr_eqb p nullptr then ret tt
  else
    fun m =>
      match block_at (mem m) (blk p) with
      | Some _ =>
          if off p =? 0
          then Ok tt (Machine (self m)
                              (<[pred (blk p) := None]> (mem m))
                              (throw_after m)
                              (trace m ++ [EvDeallocate (blk p) n]))
          else Fault
      | None => Fault
      end.

(** [construct(allocator_, p, x)] with [x] an lvalue: the copy constructor. *)
Definition construct_copy (p : ptr) (x : slot T) : M unit :=
  may_throw ;; store p x ;; log (EvConstruct p).

(** [construct(allocator_, p, std::move(x))]: the move constructor, which
    cannot throw when the type says so; the source keeps its value. *)
Definition construct_move (p : ptr) (x : slot T) : M unit :=
  (if is_nothrow_move_constructible tr then ret tt else may_throw) ;;
  store p x ;; log (EvConstruct p).

(** [destroy(allocator_, p)] *)
Definition allocator_destroy (p : ptr) : M unit :=
  store p None ;; log (EvDestroy p).

(** ** <algorithm> on pointers *)

Definition assign_range (src dst : Z -> ptr) (n : Z) : M unit :=
  iterate (fun k => x <- load (src k) ;; assign_slot (dst k) x) (Z.to_nat n) 0.

(** [while (first != last) *d_first++ = *first++;] *)
Definition std_copy (first last d_first : ptr) : M unit :=
  assign_range (ptr_add first) (ptr_add d_first) (distance first last).

(** As [std_copy], each assignment taking [std::move] of its source. *)
Definition std_move (first last d_first : ptr) : M unit :=
  assign_range (ptr_add first) (ptr_add d_first) (distance first last).

(** [while (first != last) *(--d_last) = *(--last);] *)
Definition std_copy_backward (first last d_last : ptr) : M unit :=
  assign_range (fun k => ptr_sub last (k + 1)) (fun k => ptr_sub d_last (k + 1))
               (distance first last).

(** As [std_copy_backward], each assignment taking [std::move] of its source. *)
Definition std_move_backward (first last d_last : ptr) : M unit :=
  assign_range (fun k => ptr_sub last (k + 1)) (fun k => ptr_sub d_last (k + 1))
               (distance first last).

(** ** Member functions *)

Definition size : M Z := get size_.

Definition capacity : M Z := get capacity_.

Definition max_size : Z := difference_max.

Definition begin : M ptr := get data_.

Definition end_ : M ptr := d <- get data_ ;; s <- size ;; ret (ptr_add d s).

Definition realloc_factor : Z := 2.

(** [vector() noexcept : data_{}] *)
Definition vector_default : M unit := set_self (Vector nullptr 0 0).

Definition allocate (capacity : Z) : M unit :=
  set_capacity capacity ;;
  p <- allocator_allocate capacity ;;
  set_data p.

Fixpoint construct_values (values : list T) (index : Z) : M unit :=
  match values with
  | [] => ret tt
  | currentValue :: rest =>
      d <- get data_ ;;
      construct_copy (ptr_add d index) (Some currentValue) ;;
      construct_values rest (index + 1)
  end.

Definition construct_init_list (values : list T) : M unit :=
  set_size (Z.of_nat (length values)) ;;
  construct_values values 0.

(** [explicit vector(init_list_type values, const_alloc_reference)] *)
Definition vector_init_list (values : list T) : M unit :=
  allocate (Z.of_nat (length values)) ;;
  construct_init_list values.

Definition destruct (size : Z) : M unit :=
  for_ 0 size (fun index => d <- get data_ ;; allocator_destroy (ptr_add d index)) ;;
  set_size 0.

Definition clear : M unit := s <- get size_ ;; destruct s.

Definition deallocate_destruct_keep_size_and_capacity (size capacity : Z)
  : M unit :=
  s <- get size_ ;;
  for_ 0 s (fun index => d <- get data_ ;; allocator_destroy (ptr_add d index)) ;;
  d <- get data_ ;; c <- get capacity_ ;;
  allocator_deallocate d c ;;
  set_capacity capacity ;;
  set_size size.

Definition reallocate_strong_guarantee (capacity : Z) : M unit :=
  temp <- allocator_allocate capacity ;;
  s <- get size_ ;;
  (if is_nothrow_move_constructible tr
      || (negb (is_nothrow_move_constructible tr)
          && negb (is_copy_constructible tr))
   then
     for_ 0 s (fun index =>
       d <- get data_ ;;
       x <- load (ptr_add d index) ;;
       construct_move (ptr_add temp index) x)
   else
     try_iterate
       (fun index =>
          d <- get data_ ;;
          x <- load (ptr_add d index) ;;
          construct_copy (ptr_add temp index) x)
       (fun copiesMade =>
          for_ 0 copiesMade (fun index => allocator_destroy (ptr_add temp index)) ;;
          allocator_deallocate temp capacity)
       (Z.to_nat s) 0 0) ;;
  let temp_cap := capacity in
  s <- get size_ ;;
  deallocate_destruct_keep_size_and_capacity s temp_cap ;;
  set_data temp.

Definition reserve (capacity : Z) : M unit :=
  if max_size <? capacity then throw length_error
  else
    c <- get capacity_ ;;
    if c <? capacity then reallocate_strong_guarantee capacity else ret tt.

(** [at(index)]: the reference returned is the address of the element. *)
Definition at_ (index : Z) : M ptr :=
  s <- size ;;
  if index <? s then d <- get data_ ;; ret (ptr_add d index)
  else throw out_of_range.

Definition data : M ptr :=
  s <- size ;;
  if negb (s =? 0) then get data_ else ret nullptr.

(** [insert_end_strong_guarantee(const Type& value)]; [value] is the
    value read through the reference when the element is constructed. *)
Definition insert_end_strong_guarantee (value : T) : M unit :=
  on_exception
    (d <- get data_ ;; s <- get size_ ;;
     construct_copy (ptr_add d s) (Some value))
    (d <- get data_ ;; s <- get size_ ;;
     allocator_destroy (ptr_add d s)) ;;
  s <- get size_ ;;
  set_size (wrap (s + 1)).

(** [shift_and_construct(size_type, const Type&, size_type count = 1)];
    [value] is the value of the object the reference is bound to, read
    in the last loop: an object that the loops before it do not assign
    to, destroy or release. *)
Definition shift_and_construct (index_pos : Z) (value : T) (count : Z)
  : M unit :=
  d0 <- get data_ ;; s0 <- size ;;
  let count_after_last_element := ptr_add (ptr_add d0 s0) count in
  let last_element := ptr_add d0 s0 in
  let current_pos := ptr_add d0 index_pos in
  try_iterate
    (fun index =>
       d <- get data_ ;; s <- size ;;
       x <- load (ptr_add d (wrap (s + index))) ;;
       construct_copy (ptr_add (ptr_add d s) index) x)
    (fun copies_made =>
       for_ 0 copies_made (fun index =>
         d <- get data_ ;; s <- size ;;
         allocator_destroy (ptr_add (ptr_add d s) index)))
    (Z.to_nat count) 0 0 ;;
  try_iterate
    (fun k =>
       x <- load (ptr_sub last_element (k + 1)) ;;
       assign_slot (ptr_sub count_after_last_element (k + 1)) x)
    (fun copies_made1 =>
       iterate (fun k =>
         d <- get data_ ;; s <- size ;;
         allocator_destroy
           (ptr_add (ptr_add (ptr_add d s) 1) (wrap (copies_made1 - k))))
         (Z.to_nat copies_made1) 0)
    (Z.to_nat (distance current_pos (ptr_add d0 s0))) 0 0 ;;
  for_ 0 count (fun index =>
    d <- get data_ ;;
    allocator_destroy (ptr_add (ptr_add d index_pos) index)) ;;
  try_iterate
    (fun index =>
       d <- get data_ ;;
       construct_copy (ptr_add (ptr_add d index_pos) index) (Some value))
    (fun copies_made2 =>
       for_ 0 copies_made2 (fun index =>
         d <- get data_ ;; s <- size ;;
         allocator_destroy (ptr_add (ptr_add d s) index)))
    (Z.to_nat count) 0 0 ;;
  s <- get size_ ;;
  set_size (wrap (s + count)).

(** [shift_and_construct(size_type, Type&&)] *)
Definition shift_and_construct_rvalue (index_pos : Z) (value : T) : M unit :=
  if is_nothrow_move_constructible tr
     || (negb (is_nothrow_move_constructible tr)
         && negb (is_copy_constructible tr))
  then
    d <- get data_ ;; s <- size ;;
    x <- load (ptr_add d s) ;;
    construct_move (ptr_add d s) x ;;
    std_move_backward (ptr_add d index_pos) (ptr_add d s)
                      (ptr_add (ptr_add d s) 1) ;;
    construct_move (ptr_add d index_pos) (Some value) ;;
    s <- get size_ ;;
    set_size (wrap (s + 1))
  else
    shift_and_construct index_pos value 1.

(** The two range-for loops of [shift_and_construct_init]; [auto value]
    copies the element of the list before the body runs. *)
Fixpoint init_make_room (values : list T) (index : Z) : M unit :=
  match values with
  | [] => ret tt
  | _ :: rest =>
      may_throw ;;
      d <- get data_ ;; s <- size ;;
      x <- load (ptr_add d (wrap (s + index))) ;;
      construct_copy (ptr_add (ptr_add d s) index) x ;;
      init_make_room rest (index + 1)
  end.

Fixpoint init_fill (pos_index_position : Z) (values : list T) (index : Z)
  : M unit :=
  match values with
  | [] => ret tt
  | value :: rest =>
      may_throw ;;
      d <- get data_ ;;
      allocator_destroy (ptr_add (ptr_add d pos_index_position) index) ;;
      construct_copy (ptr_add (ptr_add d pos_index_position) index)
                     (Some value) ;;
      init_fill pos_index_position rest (index + 1)
  end.

Definition shift_and_construct_init (pos_index_position : Z)
  (values : list T) : M unit :=
  init_make_room values 0 ;;
  d <- get data_ ;; s <- size ;;
  std_copy_backward (ptr_add d pos_index_position) (ptr_add d s)
                    (ptr_add (ptr_add d s) (Z.of_nat (length values))) ;;
  init_fill pos_index_position values 0 ;;
  s <- get size_ ;;
  set_size (wrap (s + Z.of_nat (length values))).

(** [do { if (capacity_ == 0) capacity_ = 1;
         capacity_ *= realloc_factor(); } while (again);]
    The values of [capacity_] repeat after at most 128 rounds, so a loop
    that has not left by then never leaves. *)
Fixpoint grow (again : vector -> bool) (fuel : nat) : M unit :=
  match fuel with
  | O => fault
  | S fuel' =>
      c <- get capacity_ ;;
      (if c =? 0 then set_capacity 1 else ret tt) ;;
      c <- get capacity_ ;;
      set_capacity (wrap (c * realloc_factor)) ;;
      v <- get (fun v => v) ;;
      if again v then grow again fuel' else ret tt
  end.

Definition grow_fuel : nat := 130.

(** [emplace(pos, args...)] perfectly forwards one argument of type
    [Type]: an lvalue is copied and goes to
    [shift_and_construct(size_type, const Type&, size_type)], an rvalue is
    moved and goes to [shift_and_construct(size_type, Type&&)]. *)
Definition construct_forward (cat : value_category) (p : ptr) (x : slot T)
  : M unit :=
  match cat with
  | lvalue => construct_copy p x
  | rvalue => construct_move p x
  end.

Definition shift_and_construct_forward (cat : value_category)
  (index_pos : Z) (value : T) : M unit :=
  match cat with
  | lvalue => shift_and_construct index_pos value 1
  | rvalue => shift_and_construct_rvalue index_pos value
  end.

Definition emplace (cat : value_category) (pos : ptr) (args : T) : M ptr :=
  b <- begin ;;
  let pos_index_position := distance pos b in
  s <- size ;; c <- capacity ;;
  (if wrap (s + 1) <? c then
     e <- end_ ;;
     if ptr_eqb pos e then
       on_exception
         (d <- get data_ ;; s <- size ;;
          construct_forward cat (ptr_add d s) (Some args))
         (d <- get data_ ;; s <- size ;;
          allocator_destroy (ptr_add d s)) ;;
       s <- get size_ ;;
       set_size (wrap (s + 1))
     else
       shift_and_construct_forward cat pos_index_position args
   else
     grow (fun v => capacity_ v <? wrap (1 + size_ v)) grow_fuel ;;
     c <- get capacity_ ;;
     reallocate_strong_guarantee c ;;
     shift_and_construct_forward cat pos_index_position args) ;;
  d <- get data_ ;;
  ret (ptr_add d pos_index_position).

(** [insert(const iterator pos, const_reference value)] and
    [insert(const iterator pos, value_type&& value)] *)
Definition insert_value (cat : value_category) (pos : ptr) (value : T)
  : M ptr :=
  emplace cat pos value.

(** [emplace_back(Args...args)] receives its argument by value and
    forwards it as an rvalue. *)
Definition emplace_back (args : T) : M ptr :=
  e <- end_ ;;
  emplace rvalue e args ;;
  d <- get data_ ;; s <- size ;;
  ret (ptr_sub (ptr_add d s) 1).

(** [push_back(const Type&)]: the call copies [value] into the parameter
    of [emplace_back]. *)
Definition push_back (value : T) : M unit :=
  may_throw ;;
  emplace_back value ;;
  ret tt.

(** [insert(const iterator pos, init_list_type values)] *)
Definition insert_init_list (pos : ptr) (values : list T) : M ptr :=
  b <- begin ;;
  let pos_index_position := distance pos b in
  let n := Z.of_nat (length values) in
  s <- size ;; c <- capacity ;;
  (if wrap (s + n) <? c then
     shift_and_construct_init pos_index_position values
   else
     grow (fun v => capacity_ v <? wrap (n + size_ v)) grow_fuel ;;
     c <- get capacity_ ;;
     reallocate_strong_guarantee c ;;
     shift_and_construct_init pos_index_position values) ;;
  if n =? 0 then ret pos
  else d <- get data_ ;; ret (ptr_add d pos_index_position).

(** [insert(const iterator pos, size_type count, const_reference value)] *)
Definition insert (pos : ptr) (count : Z) (value : T) : M ptr :=
  b <- begin ;;
  let pos_index_position := distance pos b in
  s <- size ;; c <- capacity ;;
  (if wrap (s + count) <? c then
     e <- end_ ;;
     if ptr_eqb pos e then insert_end_strong_guarantee value
     else shift_and_construct pos_index_position value count
   else
     grow (fun v => capacity_ v <? size_ v) grow_fuel ;;
     c <- get capacity_ ;;
     reallocate_strong_guarantee c ;;
     shift_and_construct pos_index_position value count) ;;
  if count =? 0 then ret pos
  else d <- get data_ ;; ret (ptr_add d pos_index_position).

(** [erase(const iterator first, const iterator last)] *)
Definition erase (first last : ptr) : M ptr :=
  e <- end_ ;;
  let last_equals_end := ptr_eqb last e in
  b <- begin ;;
  let first_position := distance first b in
  let last_position := distance last b in
  let difference := wrap (last_position - first_position) in
  for_ first_position last_position (fun index =>
    d <- get data_ ;; allocator_destroy (ptr_add d index)) ;;
  d <- get data_ ;; s <- size ;;
  (if is_nothrow_move_constructible tr
   then std_move (ptr_add d last_position) (ptr_add d s)
                 (ptr_add d first_position)
   else std_copy (ptr_add d last_position) (ptr_add d s)
                 (ptr_add d first_position)) ;;
  s <- get size_ ;;
  set_size (wrap (s - difference)) ;;
  d <- get data_ ;;
  if last_equals_end then ret (ptr_add d last_position)
  else ret (ptr_add d first_position).

(** ** Comparison operators *)

Variable T_eqb : T -> T -> bool.
Variable T_ltb : T -> T -> bool.

(** An element read for a comparison has to have a value. *)
Definition load_value (p : ptr) : M T :=
  x <- load p ;;
  match x with
  | Some v => ret v
  | None => fault
  end.

Fixpoint equal_loop (n : nat) (first1 first2 : ptr) : M bool :=
  match n with
  | O => ret true
  | S n' =>
      a <- load_value first1 ;;
      b <- load_value first2 ;;
      if T_eqb a b then equal_loop n' (ptr_add first1 1) (ptr_add first2 1)
      else ret false
  end.

(** [std::equal(first1, last1, first2, last2)] on random-access ranges. *)
Definition std_equal (first1 last1 first2 last2 : ptr) : M bool :=
  if distance first1 last1 =? distance first2 last2
  then equal_loop (Z.to_nat (distance first1 last1)) first1 first2
  else ret false.

Fixpoint lexicographical_compare_loop (fuel : nat)
  (first1 last1 first2 last2 : ptr) : M bool :=
  match fuel with
  | O => fault
  | S fuel' =>
      if negb (ptr_eqb first1 last1) && negb (ptr_eqb first2 last2) then
        a <- load_value first1 ;;
        b <- load_value first2 ;;
        if T_ltb a b then ret true
        else if T_ltb b a then ret false
        else lexicographical_compare_loop fuel'
               (ptr_add first1 1) last1 (ptr_add first2 1) last2
      else ret (ptr_eqb first1 last1 && negb (ptr_eqb first2 last2))
  end.

(** [std::lexicographical_compare]; the first range is exhausted after
    [distance first1 last1] rounds. *)
Definition std_lexicographical_compare (first1 last1 first2 last2 : ptr)
  : M bool :=
  lexicographical_compare_loop (S (Z.to_nat (distance first1 last1)))
    first1 last1 first2 last2.

(** [friend bool operator==(const vector& first, const vector& second)] *)
Definition operator_eq (first second : vector) : M bool :=
  if size_ first =? size_ second
  then std_equal (data_ first) (ptr_add (data_ first) (size_ first))
                 (data_ second) (ptr_add (data_ second) (size_ second))
  else ret false.

(** [bool operator<(const vector& other) const] *)
Definition operator_lt (this other : vector) : M bool :=
  std_lexicographical_compare
    (data_ this) (ptr_add (data_ this) (size_ this))
    (data_ other) (ptr_add (data_ other) (size_ other)).

(** The remaining operators call operators of the same class; [fuel]
    bounds the depth of the calls and [None] says that the call has not
    returned within it.

    [operator!=]: [return *this != other;] *)
Fixpoint operator_ne (fuel : nat) (this other : vector) (m : machine)
  : option (outcome bool) :=
  match fuel with
  | O => None
  | S fuel' => operator_ne fuel' this other m
  end.

(** [operator>=]: [return *this >= other;] *)
Fixpoint operator_ge (fuel : nat) (this other : vector) (m : machine)
  : option (outcome bool) :=
  match fuel with
  | O => None
  | S fuel' => operator_ge fuel' this other m
  end.

(** [operator>]: [return *this >= other;] *)
Definition operator_gt (fuel : nat) (this other : vector) (m : machine)
  : option (outcome bool) :=
  match fuel with
  | O => None
  | S fuel' => operator_ge fuel' this other m
  end.

(** [operator<=]: [return other >= *this;] *)
Definition operator_le (fuel : nat) (this other : vector) (m : machine)
  : option (outcome bool) :=
  match fuel with
  | O => None
  | S fuel' => operator_ge fuel' other this m
  end.

End Vector.

Arguments Ok {T A} a m.
Arguments Throw {T A} e m.
Arguments Fault {T A}.

(** ** Vocabulary of the statements *)

Section Vocabulary.

Context {T : Type}.
Variable tr : traits.
Implicit Types (m : @machine T).

(** The vector owns a buffer of [capacity_] slots, or none. *)
Definition wf m : Prop :=
  0 <= size_ (self m) <= capacity_ (self m)
  /\ capacity_ (self m) <= difference_max
  /\ ((data_ (self m) = nullptr /\ capacity_ (self m) = 0)
      \/ exists b bl,
           data_ (self m) = Ptr (S b) 0
           /\ block_at (mem m) (S b) = Some bl
           /\ Z.of_nat (length bl) = capacity_ (self m)).

Definition construct_events (b : nat) (k n : Z) : list event :=
  (fun i => EvConstruct (Ptr b i)) <$> seqZ k n.

Definition destroy_events (b : nat) (k n : Z) : list event :=
  (fun i => EvDestroy (Ptr b i)) <$> seqZ k n.

(** The two functions of the copy loop of [reallocate_strong_guarantee],
    as they stand in its [try] block and its handler. *)
Definition copy_body (temp : ptr) : Z -> @M T unit :=
  fun index =>
    bind (get data_) (fun d =>
    bind (load (ptr_add d index)) (fun x =>
    construct_copy (ptr_add temp index) x)).

Definition copy_cleanup (temp : ptr) (capacity : Z) : Z -> @M T unit :=
  fun copiesMade =>
    bind (for_ 0 copiesMade (fun index => allocator_destroy (ptr_add temp index)))
         (fun _ => allocator_deallocate temp capacity).

(** The state a failed copy leaves: the state before, with one more
    block, released, and the events of the attempt. *)
Definition rolled_back m (capacity : Z) (k : nat) : @machine T :=
  let nb := S (length (mem m)) in
  Machine (self m) (mem m ++ [None]) None
    (trace m ++ [EvAllocate nb capacity]
             ++ construct_events nb 0 (Z.of_nat k)
             ++ destroy_events nb 0 (Z.of_nat k)
             ++ [EvDeallocate nb capacity]).

(** The block after the destruction of [n] elements from slot [k] on. *)
Fixpoint clear_range (bl : list (slot T)) (k n : nat) : list (slot T) :=
  match n with
  | O => bl
  | S n' => clear_range (<[k := None]> bl) (S k) n'
  end.

(** Which blocks exist and how many slots each has. *)
Definition shape (h : heap T) : list (option nat) :=
  (fun ob : option (list (slot T)) => length <$> ob) <$> h.

(** No reallocation between [m] and [m']: same buffer address, same
    capacity, same blocks of the same sizes. *)
Definition frame m m' : Prop :=
  data_ (self m') = data_ (self m)
  /\ capacity_ (self m') = capacity_ (self m)
  /\ (0 <= size_ (self m) -> 0 <= size_ (self m'))
  /\ shape (mem m') = shape (mem m).

Definition size_stays_nonneg m m' : Prop :=
  0 <= size_ (self m) -> 0 <= size_ (self m').

(** A computation respects [R] when the state it ends in, by return or
    by exception, is related to the state it started in. *)
Definition kept (R : @machine T -> @machine T -> Prop) {A}
  (o : @outcome T A) m : Prop :=
  match o with
  | Ok _ m' => R m m'
  | Throw _ m' => R m m'
  | Fault => True
  end.

Definition preserves (R : @machine T -> @machine T -> Prop) {A}
  (c : @M T A) : Prop :=
  forall m,
    match c m with
    | Ok _ m' => R m m'
    | Throw _ m' => R m m'
    | Fault => True
    end.

(** The block [p] points into holds the values [l] from [p] on. *)
Definition holds (h : heap T) (p : ptr) (l : list T) : Prop :=
  forall i : nat, (i < length l)%nat ->
    read_slot h (ptr_add p (Z.of_nat i)) = Some (l !! i).

(** Equality of two sequences, element by element, under [eqb]. *)
Fixpoint list_equal (eqb : T -> T -> bool) (la lb : list T) : bool :=
  match la, lb with
  | [], [] => true
  | a :: la', b :: lb' => eqb a b && list_equal eqb la' lb'
  | _, _ => false
  end.

(** The lexicographic order of two sequences under [ltb]. *)
Fixpoint lex_less (ltb : T -> T -> bool) (la lb : list T) : bool :=
  match la, lb with
  | _, [] => false
  | [], _ :: _ => true
  | a :: la', b :: lb' =>
      if ltb a b then true
      else if ltb b a then false
      else lex_less ltb la' lb'
  end.

(** The insertions of the public interface. *)
Inductive insertion : Type :=
| PushBack (value : T)
| Emplace (cat : value_category) (pos : ptr) (value : T)
| InsertValue (cat : value_category) (pos : ptr) (value : T)
| Insert (pos : ptr) (count : Z) (value : T)
| InsertList (pos : ptr) (values : list T).

Definition inserted (op : insertion) : Z :=
  match op with
  | PushBack _ => 1
  | Emplace _ _ _ => 1
  | InsertValue _ _ _ => 1
  | Insert _ count _ => count
  | InsertList _ values => Z.of_nat (length values)
  end.

Definition perform (op : insertion) : @M T unit :=
  match op with
  | PushBack value => push_back tr value
  | Emplace cat pos value =>
      bind (emplace tr cat pos value) (fun _ => ret tt)
  | InsertValue cat pos value =>
      bind (insert_value tr cat pos value) (fun _ => ret tt)
  | Insert pos count value => bind (insert tr pos count value) (fun _ => ret tt)
  | InsertList pos values =>
      bind (insert_init_list tr pos values) (fun _ => ret tt)
  end.

(** [for (auto value : values) push_back(value);] *)
Fixpoint push_back_all (values : list T) : @M T unit :=
  match values with
  | [] => ret tt
  | value :: rest => bind (push_back tr value) (fun _ => push_back_all rest)
  end.

Definition final_state {A} (o : @outcome T A) : option (@machine T) :=
  match o with
  | Ok _ m' => Some m'
  | Throw _ m' => Some m'
  | Fault => None
  end.

(** A run of insertions, each of which would leave the number of
    elements below [n]. *)
Inductive insertions_below (n : Z) : @machine T -> @machine T -> Prop :=
| below_done m : insertions_below n m m
| below_step m op m1 m2 :
    0 <= inserted op ->
    size_ (self m) + inserted op < n ->
    final_state (perform op m) = Some m1 ->
    insertions_below n m1 m2 ->
    insertions_below n m m2.

End Vocabulary.


(** ** Concrete machines used in the examples *)

(** A default-constructed vector in an empty free store. *)
Definition boot {T : Type} (k : option nat) : @machine T :=
  Machine (Vector nullptr 0 0) [] k [].

Definition nothrow_movable : traits := Traits true true.
Definition copy_only : traits := Traits false true.

(** The vector [4; 8; 1] in a buffer of three slots; the second copy
    construction from now on throws. *)
Definition three_elements : @machine Z :=
  Machine (Vector (Ptr 1 0) 3 3) [Some [Some 4; Some 8; Some 1]]
          (Some 1%nat) [].

(** ** The remaining member functions *)

Section VectorRest.

Context {T : Type}.
Variable tr : traits.

Declare Scope vec_scope.

Notation "x <- c1 ;; c2" := (bind c1 (fun x => c2))
  (at level 100, c1 at next level, right associativity) : vec_scope.
Notation "c1 ;; c2" := (bind c1 (fun _ => c2))
  (at level 100, c2 at level 200, only parsing, right associativity) : vec_scope.

Local Open Scope vec_scope.

(** Functions that take a second vector receive its fields as [other];
    those that change it return its fields afterwards. Both vectors live
    in the same free store. The comparison [this == &other] of the
    assignment operators and of [swap] is the parameter [same_object]. *)

(** [reset(vector& other)] *)
Definition reset (other : @vector) : @vector := Vector nullptr 0 0.

Definition deallocate (capacity : Z) : @M T unit :=
  d <- get data_ ;;
  allocator_deallocate d capacity ;;
  set_capacity 0 ;;
  set_size 0.

Definition reallocate (old_cap new_cap : Z) : @M T unit :=
  deallocate old_cap ;;
  allocate new_cap.

Definition construct (size : Z) (value : T) : @M T unit :=
  set_size size ;;
  for_ 0 size (fun index =>
    d <- get data_ ;; construct_copy (ptr_add d index) (Some value)).

Definition allocate_and_copy_construct (capacity size : Z) (value : T)
  : @M T unit :=
  allocate capacity ;;
  construct size value.

Definition deallocate_and_destruct (capacity size : Z) : @M T unit :=
  destruct size ;;
  deallocate capacity.

Definition uninitialized_alloc_copy (other : @vector) : @M T unit :=
  set_size (size_ other) ;;
  s <- get size_ ;;
  for_ 0 s (fun index =>
    d <- get data_ ;;
    x <- load (ptr_add (data_ other) index) ;;
    construct_copy (ptr_add d index) x).

Definition uninitialized_alloc_move (other : @vector) : @M T (@vector) :=
  set_size (size_ other) ;;
  set_capacity (capacity_ other) ;;
  s <- get size_ ;;
  for_ 0 s (fun index =>
    d <- get data_ ;;
    x <- load (ptr_add (data_ other) index) ;;
    construct_move tr (ptr_add d index) x) ;;
  ret (reset other).

Definition copy (other : @vector) : @M T unit :=
  if negb (ptr_eqb (data_ other) nullptr) then
    allocate (size_ other) ;;
    uninitialized_alloc_copy other
  else
    set_data nullptr.

(** [vector(const vector& other)]. The default member initializers give
    [size_] and [capacity_] the value 0; [data_] has none and keeps what
    the storage of the object held. *)
Definition vector_copy (other : @vector) : @M T unit :=
  set_size 0 ;; set_capacity 0 ;;
  copy other.

(** [vector(vector&& other) noexcept] *)
Definition vector_move (other : @vector) : @M T (@vector) :=
  set_self (Vector (data_ other) (size_ other) (capacity_ other)) ;;
  ret (reset other).

(** [~vector() noexcept] *)
Definition vector_destroy : @M T unit :=
  c <- get capacity_ ;; s <- get size_ ;;
  deallocate_and_destruct c s.

(** [explicit vector(size_type length, const_reference value, ...)];
    [vector(size_type length, ...)] is the same with [Type()] as value. *)
Definition vector_length_value (length : Z) (value : T) : @M T unit :=
  allocate_and_copy_construct length length value.

(** The loop of the range constructor and of [assign(first, last)]. *)
Definition construct_range (first : ptr) (size : Z) : @M T unit :=
  for_ 0 size (fun index =>
    d <- get data_ ;;
    x <- load (ptr_add first index) ;;
    construct_copy (ptr_add d index) x ;;
    s <- get size_ ;;
    set_size (wrap (s + 1))).

(** [template<typename InputIter> vector(InputIter first, InputIter last)],
    for iterators that are pointers into a block. *)
Definition vector_range (first last : ptr) : @M T unit :=
  set_size 0 ;; set_capacity 0 ;;
  let size := distance last first in
  allocate size ;;
  construct_range first size.

(** [operator=(const vector& other)]; with [std::allocator],
    [propagate_on_container_copy_assignment] is false. *)
Definition copy_assign (same_object : bool) (other : @vector) : @M T unit :=
  if same_object then ret tt
  else
    s <- size ;;
    destruct s ;;
    if negb (ptr_eqb (data_ other) nullptr) then
      c <- capacity ;;
      (if c <? size_ other
       then c <- capacity ;; reallocate c (size_ other)
       else ret tt) ;;
      uninitialized_alloc_copy other
    else
      set_data nullptr ;;
      set_size 0.

(** [operator=(vector&& other) noexcept]; with [std::allocator],
    [propagate_on_container_move_assignment] is true and the first
    branch is the one compiled. The two assignments after the branches
    read [other] after [reset(other)]. *)
Definition move_assign (same_object : bool) (other : @vector)
  : @M T (@vector) :=
  if same_object then ret other
  else
    c <- capacity ;; s <- size ;;
    deallocate_and_destruct c s ;;
    set_data (data_ other) ;;
    let other' := reset other in
    set_size (size_ other') ;;
    set_capacity (capacity_ other') ;;
    ret other'.

(** [operator=(init_list_type values)] and [assign(init_list_type values)],
    which have the same body. *)
Definition assign_init_list (values : list T) : @M T unit :=
  s <- get size_ ;;
  destruct s ;;
  c <- capacity ;;
  (if c <? Z.of_nat (length values)
   then c <- capacity ;; reallocate c (Z.of_nat (length values))
   else ret tt) ;;
  construct_init_list values.

(** [assign(size_type size, const_reference value)] *)
Definition assign (size : Z) (value : T) : @M T unit :=
  s <- get size_ ;;
  destruct s ;;
  c <- capacity ;;
  (if c <? size
   then c <- capacity ;; reallocate c size
   else ret tt) ;;
  construct size value.

(** [template<typename input_iter> assign(input_iter first, input_iter last)];
    [destruct] receives the local [size]. *)
Definition assign_range_of (first last : ptr) : @M T unit :=
  let size := distance last first in
  destruct size ;;
  c <- capacity ;;
  (if c <? size
   then c <- capacity ;; reallocate c size
   else ret tt) ;;
  construct_range first size.




Definition empty : @M T bool := s <- get size_ ;; ret (s =? 0).

Definition is_null : @M T bool :=
  d <- get data_ ;; ret (ptr_eqb d nullptr).

Definition shrink_to_fit : @M T unit :=
  c <- get capacity_ ;; s <- get size_ ;;
  if negb (c =? s) then reallocate_strong_guarantee tr s else ret tt.

(** [erase(const iterator pos)] *)
Definition erase_at (pos : ptr) : @M T ptr :=
  b <- begin ;;
  let pos_index_position := distance pos b in
  d <- get data_ ;;
  allocator_destroy (ptr_add d pos_index_position) ;;
  d <- get data_ ;; s <- size ;;
  (if is_nothrow_move_constructible tr
   then std_move (ptr_add (ptr_add d pos_index_position) 1) (ptr_add d s)
                 (ptr_add d pos_index_position)
   else std_copy (ptr_add (ptr_add d pos_index_position) 1) (ptr_add d s)
                 (ptr_add d pos_index_position)) ;;
  s <- get size_ ;;
  set_size (wrap (s - 1)) ;;
  e <- end_ ;;
  if ptr_eqb e pos then end_
  else d <- get data_ ;; ret (ptr_add d pos_index_position).

Definition pop_back : @M T unit :=
  d <- get data_ ;; s <- size ;;
  allocator_destroy (ptr_sub (ptr_add d s) 1) ;;
  s <- get size_ ;;
  set_size (wrap (s - 1)).

(** An argument of type [const Type&] that the callee reads after it
    has changed the free store: the reference is bound either to an
    object outside the free store, which the call cannot reach, or to
    the object in a slot of the free store, which is read when the
    callee reads it. *)
Inductive reference : Type :=
| Outside (v : T)
| Inside (p : ptr).

(** The object a reference is bound to, read for a copy: it has to
    exist at that moment. *)
Definition deref (value : reference) : @M T T :=
  match value with
  | Outside v => ret v
  | Inside p =>
      x <- load p ;;
      match x with
      | Some v => ret v
      | None => fault
      end
  end.

(** [resize(size_type count, const_reference value = value_type())];
    each [insert_end_strong_guarantee(value)] copy-constructs from the
    object [value] is bound to. *)
Definition resize (count : Z) (value : reference) : @M T unit :=
  temp_size <- size ;;
  s <- size ;;
  if count <? s then
    for_ count temp_size (fun _ => pop_back)
  else
    c <- capacity ;;
    (if c <? count then reallocate_strong_guarantee tr count else ret tt) ;;
    for_ temp_size count (fun _ =>
      v <- deref value ;; insert_end_strong_guarantee v).

(** [swap(vector& other) noexcept]; the allocators are stateless. *)
Definition swap (same_object : bool) (other : @vector) : @M T (@vector) :=
  if same_object then ret other
  else
    v <- get (fun v => v) ;;
    set_self (Vector (data_ other) (size_ other) (capacity_ other)) ;;
    ret (Vector (data_ v) (size_ v) (capacity_ v)).

End VectorRest.

(** ** Vocabulary for the remaining member functions *)

Section VocabularyRest.

Context {T : Type}.
Implicit Types (m : @machine T).

(** The block after the slots from [k] on have received [xs]. *)
Fixpoint write_list (bl : list (slot T)) (k : nat) (xs : list (slot T))
  : list (slot T) :=
  match xs with
  | [] => bl
  | x :: xs' => write_list (<[k := x]> bl) (S k) xs'
  end.

(** The block after [n] rounds of a loop whose round [k] turns the
    block [bl] into [w k bl]. *)
Fixpoint run_writes (w : Z -> list (slot T) -> list (slot T))
  (bl : list (slot T)) (n : nat) (k : Z) : list (slot T) :=
  match n with
  | O => bl
  | S n' => run_writes w (w k bl) n' (k + 1)
  end.

(** The values of a run of slots that all hold an object. *)
Fixpoint values_of (sl : list (slot T)) : option (list T) :=
  match sl with
  | [] => Some []
  | Some v :: sl' =>
      match values_of sl' with
      | Some l => Some (v :: l)
      | None => None
      end
  | None :: _ => None
  end.

(** The sequence of elements of the vector: the values of the slots
    [0 .. size_) of its buffer, when each of them holds an object. *)
Definition contents m : option (list T) :=
  if size_ (self m) =? 0 then Some []
  else
    match block_at (mem m) (blk (data_ (self m))) with
    | Some bl =>
        if (off (data_ (self m)) =? 0)
           && (0 <? size_ (self m))
           && (size_ (self m) <=? Z.of_nat (length bl))
        then values_of (take (Z.to_nat (size_ (self m))) bl)
        else None
    | None => None
    end.

(** [wf], decided. *)
Definition wfb m : bool :=
  (0 <=? size_ (self m))
  && (size_ (self m) <=? capacity_ (self m))
  && (capacity_ (self m) <=? difference_max)
  && ((ptr_eqb (data_ (self m)) nullptr && (capacity_ (self m) =? 0))
      || match blk (data_ (self m)) with
         | O => false
         | S b =>
             (off (data_ (self m)) =? 0)
             && match block_at (mem m) (S b) with
                | Some bl => Z.of_nat (length bl) =? capacity_ (self m)
                | None => false
                end
         end).

(** The slots of the buffer after the last element hold no objects, as
    the constructors, [reserve], [clear] and [pop_back] leave them. *)
Definition unused_raw m : Prop :=
  forall i : Z,
    size_ (self m) <= i < capacity_ (self m) ->
    read_slot (mem m) (ptr_add (data_ (self m)) i) = Some None.

(** The reference [value] is bound to an object of value [x]: one
    outside the free store, or the element [i] of the vector itself. *)
Definition refers_to m (value : @reference T) (x : T) : Prop :=
  match value with
  | Outside v => v = x
  | Inside p =>
      exists i : Z,
        0 <= i < size_ (self m)
        /\ p = ptr_add (data_ (self m)) i
        /\ read_slot (mem m) p = Some (Some x)
  end.

(** The machine as the vector [other] sees it. *)
Definition view (other : @vector) m : @machine T :=
  Machine other (mem m) (throw_after m) (trace m).

(** Every block of [h] other than [b] is in [h'], unchanged. *)
Definition keeps_except (b : nat) (h h' : heap T) : Prop :=
  forall b' bl, b' <> b -> block_at h b' = Some bl -> block_at h' b' = Some bl.

End VocabularyRest.

(** ** Concrete machines for the remaining member functions *)

(** The vector [4; 8; 1; 5] in a buffer of eight slots. *)
Definition four_of_eight : @machine Z :=
  Machine (Vector (Ptr 1 0) 4 8)
          [Some [Some 4; Some 8; Some 1; Some 5; None; None; None; None]]
          None [].

(** The same vector beside a second one, [7; 9], in a buffer of two slots. *)
Definition seven_nine : @vector := Vector (Ptr 2 0) 2 2.

Definition two_vectors : @machine Z :=
  Machine (Vector (Ptr 1 0) 4 8)
          [Some [Some 4; Some 8; Some 1; Some 5; None; None; None; None];
           Some [Some 7; Some 9]]
          None [].


(** The vector [7; 9] alone, in a buffer of two slots. *)
Definition full_pair : @machine Z :=
  Machine (Vector (Ptr 1 0) 2 2) [Some [Some 7; Some 9]] None [].


(** * Properties *)

(** ** Arithmetic on size_type *)

Lemma wrap_small (z : Z) : 0 <= z < modulus -> wrap z = z.
Proof. intros H. unfold wrap. apply Z.mod_small. exact H. Qed.

Lemma wrap_nonneg (z : Z) : 0 <= wrap z.
Proof. unfold wrap, modulus. apply Z.mod_pos_bound. reflexivity. Qed.

Lemma wrap_le (z : Z) : 0 <= z -> wrap z <= z.
Proof. intros H. unfold wrap, modulus. apply Z.mod_le; [exact H | reflexivity]. Qed.

Lemma difference_max_lt_modulus : difference_max < modulus.
Proof. reflexivity. Qed.

Section Access.

Context {T : Type}.
Implicit Types m : @machine T.

(** The default constructor gives the vector of [boot]. *)
Lemma vector_default_boot (v : vector) (k : option nat) :
  @vector_default T (Machine v [] k []) = Ok tt (boot k).
Proof. reflexivity. Qed.

(** C8. [at(index)] returns the address of element [index] when
    [index < size()] and throws [std::out_of_range] otherwise; it never
    has undefined behaviour and the vector and the free store are the
    same afterwards. *)
Theorem at_checked_access (index : Z) m :
  match at_ index m with
  | Ok p m' =>
      index < size_ (self m) /\ p = ptr_add (data_ (self m)) index /\ m' = m
  | Throw e m' =>
      size_ (self m) <= index /\ e = out_of_range /\ m' = m
  | Fault => False
  end.
Proof.
  unfold at_, bind, size, get, ret, throw. simpl.
  destruct (index <? size_ (self m)) eqn:E.
  - apply Z.ltb_lt in E. auto.
  - apply Z.ltb_ge in E. auto.
Qed.

(** C10. [data()] is the null pointer when [size() == 0], whatever the
    capacity, and [data_] otherwise. *)
Theorem data_null_when_empty m :
  match data m with
  | Ok p m' =>
      m' = m
      /\ (size_ (self m) = 0 -> p = nullptr)
      /\ (size_ (self m) <> 0 -> p = data_ (self m))
  | _ => False
  end.
Proof.
  unfold data, bind, size, get, ret. simpl.
  destruct (size_ (self m) =? 0) eqn:E; simpl.
  - apply Z.eqb_eq in E. split; [reflexivity|]. split; [reflexivity | congruence].
  - apply Z.eqb_neq in E. split; [reflexivity|]. split; [congruence | reflexivity].
Qed.

(** C7. The calls [a != b], [a > b], [a <= b] and [a >= b] do not
    return: [operator!=] and [operator>=] call themselves with the
    arguments they received, and [operator>] and [operator<=] call
    [operator>=]. No depth of calls produces a result. *)
Theorem comparison_operators_never_return (fuel : nat) (a b : vector) m :
  operator_ne fuel a b m = None
  /\ operator_gt fuel a b m = None
  /\ operator_le fuel a b m = None
  /\ operator_ge fuel a b m = None.
Proof.
  assert (Hne : forall n, operator_ne n a b m = None).
  { induction n as [|n IH]; [reflexivity | exact IH]. }
  assert (Hge : forall n x y, operator_ge n x y m = None).
  { induction n as [|n IH]; intros x y; [reflexivity | apply IH]. }
  repeat split.
  - apply Hne.
  - destruct fuel; [reflexivity | apply Hge].
  - destruct fuel; [reflexivity | apply Hge].
  - apply Hge.
Qed.

End Access.

(** ** The insertion paths at concrete inputs *)

Section Evaluation.

Context {T : Type}.
Variable tr : traits.

(** C2. Two [push_back] calls on a default-constructed vector. The
    second call has to grow the buffer; [emplace] then passes
    [std::distance(pos, begin())], which is [begin() - end()] and so the
    size negated, as the index of the insertion, and
    [shift_and_construct] reads the element before the buffer: the call
    has undefined behaviour instead of storing the two values. *)
Theorem push_back_twice_undefined (x y : T) :
  bind (push_back tr x) (fun _ => push_back tr y) (boot None) = Fault.
Proof. destruct tr as [[] []]; vm_compute; reflexivity. Qed.

(** C3. [insert(begin(), 10, v)] on a vector of one element and
    capacity 2. The capacity is doubled until it is at least the size,
    not the size plus [count]: the buffer gets 4 slots and the ten
    constructions run past its end, undefined behaviour, where an
    execution that survives it sets [size_] to 11 beside a capacity
    of 4. *)
Theorem insert_count_overruns_capacity (x v : T) :
  bind (push_back tr x)
       (fun _ => bind begin (fun b => insert tr b 10 v)) (boot None)
  = Fault.
Proof. destruct tr as [[] []]; vm_compute; reflexivity. Qed.

(** C5. The growth loop of [insert(pos, count, value)], entered with
    size 1 and capacity 2 for [count = 10], leaves with capacity 4: twice
    the old capacity but below the 11 slots the insertion needs. *)
Theorem insert_count_growth_below_required (x : T) :
  exists m,
    bind (push_back tr x)
         (fun _ => grow (fun v => capacity_ v <? size_ v) grow_fuel)
         (boot None)
    = Ok tt m
    /\ size_ (self m) = 1
    /\ capacity_ (self m) = 4
    /\ capacity_ (self m) < size_ (self m) + 10.
Proof.
  destruct tr as [[] []]; eexists; (split; [vm_compute; reflexivity|]);
    cbn; repeat split; lia.
Qed.

(** C6. [erase(begin() + 1, begin() + 2)] on the vector [x; y; z]. Both
    positions are computed as [std::distance(it, begin())], the negated
    offsets, so the tail is moved from two elements before the buffer:
    the call has undefined behaviour instead of leaving [x; z]. *)
Theorem erase_middle_undefined (x y z : T) :
  bind (vector_init_list [x; y; z])
       (fun _ => bind begin (fun b => erase tr (ptr_add b 1) (ptr_add b 2)))
       (boot None)
  = Fault.
Proof. destruct tr as [[] []]; vm_compute; reflexivity. Qed.

(** The only range [erase] handles is the empty one at [begin()]; the
    empty range at [end()] is already read from before the buffer. *)
Remark erase_empty_ranges (x y z : T) :
  (exists m,
     vector_init_list [x; y; z] (boot None) = Ok tt m
     /\ bind begin (fun b => erase tr b b) m = Ok (Ptr 1 0) m)
  /\ bind (vector_init_list [x; y; z])
          (fun _ => bind end_ (fun e => erase tr e e)) (boot None)
     = Fault.
Proof.
  split.
  - eexists. split; [vm_compute; reflexivity|].
    destruct tr as [[] []]; vm_compute; reflexivity.
  - destruct tr as [[] []]; vm_compute; reflexivity.
Qed.

End Evaluation.

(** ** Reasoning about outcomes and the free store *)

Section Store.

Context {T : Type}.
Implicit Types (m : @machine T) (h : heap T) (bl : list (slot T)).

Lemma bind_ok {A B} (c : M A) (k : A -> M B) m a m' :
  c m = Ok a m' -> bind c k m = k a m'.
Proof. intros H. unfold bind. rewrite H. reflexivity. Qed.

Lemma bind_throw {A B} (c : M A) (k : A -> M B) m e m' :
  c m = Throw e m' -> bind c k m = Throw e m'.
Proof. intros H. unfold bind. rewrite H. reflexivity. Qed.

Lemma ptr_add_base (b : nat) (i : Z) :
  0 <= i < modulus -> ptr_add (Ptr b 0) i = Ptr b i.
Proof. intros H. unfold ptr_add. simpl. rewrite wrap_small; [reflexivity | lia]. Qed.

Lemma block_at_app_l h h' b bl :
  block_at h b = Some bl -> block_at (h ++ h') b = Some bl.
Proof.
  destruct b as [|b]; cbn [block_at]; [discriminate|].
  destruct (h !! b) as [[x|]|] eqn:E; try discriminate.
  intros [= <-]. rewrite (lookup_app_l_Some _ _ _ _ E). reflexivity.
Qed.

Lemma block_at_new h bl :
  block_at (h ++ [Some bl]) (S (length h)) = Some bl.
Proof.
  cbn [block_at]. rewrite lookup_app_r by lia. rewrite Nat.sub_diag. reflexivity.
Qed.

Lemma in_block_true bl (i : Z) :
  0 <= i < Z.of_nat (length bl) -> in_block bl i = true.
Proof.
  intros H. unfold in_block.
  apply andb_true_intro. split; [apply Z.leb_le | apply Z.ltb_lt]; lia.
Qed.

Lemma read_slot_app_l h h' p s :
  read_slot h p = Some s -> read_slot (h ++ h') p = Some s.
Proof.
  unfold read_slot. destruct (block_at h (blk p)) as [bl|] eqn:E; [|discriminate].
  rewrite (block_at_app_l _ h' _ _ E). auto.
Qed.

Lemma read_slot_in_block h b bl (i : Z) :
  block_at h b = Some bl -> 0 <= i < Z.of_nat (length bl) ->
  exists s, read_slot h (Ptr b i) = Some s.
Proof.
  intros Hb Hi. unfold read_slot. simpl. rewrite Hb, in_block_true by lia.
  destruct (lookup_lt_is_Some_2 bl (Z.to_nat i)) as [s Hs]; [lia|].
  exists s. exact Hs.
Qed.

Lemma write_slot_new h bl (i : Z) (s : slot T) :
  0 <= i < Z.of_nat (length bl) ->
  write_slot (h ++ [Some bl]) (Ptr (S (length h)) i) s
  = Some (h ++ [Some (<[Z.to_nat i := s]> bl)]).
Proof.
  intros Hi. unfold write_slot. cbn [blk off]. rewrite block_at_new.
  rewrite in_block_true by lia. cbn [pred].
  replace (length h) with (length h + 0)%nat at 1 by lia.
  rewrite insert_app_r. reflexivity.
Qed.

Lemma release_new h (x : option (list (slot T))) :
  <[length h := None]> (h ++ [x]) = h ++ [None].
Proof.
  replace (length h) with (length h + 0)%nat at 1 by lia.
  rewrite insert_app_r. reflexivity.
Qed.

Lemma read_slot_released h p :
  read_slot (h ++ [None]) p = read_slot h p.
Proof.
  unfold read_slot. destruct (blk p) as [|b]; [reflexivity|]. cbn [block_at].
  destruct (decide (b < length h)%nat) as [Hlt|Hge].
  - rewrite lookup_app_l by lia. reflexivity.
  - rewrite lookup_app_r by lia. rewrite (lookup_ge_None_2 h b) by lia.
    destruct (b - length h)%nat as [|n]; [reflexivity|].
    destruct n; reflexivity.
Qed.

End Store.

(** ** The copy path of reallocate_strong_guarantee *)

Section Reallocation.

Context {T : Type}.
Variable tr : traits.
Implicit Types (m : @machine T) (h : heap T) (bl : list (slot T)).

Lemma destroy_loop_new (n : nat) : forall (k : Z) v h bl ta trc,
  0 <= k -> k + Z.of_nat n <= Z.of_nat (length bl) ->
  Z.of_nat (length bl) <= difference_max ->
  exists bl', length bl' = length bl /\
    iterate (fun index => allocator_destroy (ptr_add (Ptr (S (length h)) 0) index))
            n k (Machine v (h ++ [Some bl]) ta trc)
    = Ok tt (Machine v (h ++ [Some bl']) ta
               (trc ++ destroy_events (S (length h)) k (Z.of_nat n))).
Proof.
  pose proof difference_max_lt_modulus as Hmax.
  induction n as [|n IH]; intros k v h bl ta trc Hk Hn Hlen.
  - exists bl. split; [reflexivity|]. cbn [iterate]. unfold ret, destroy_events.
    rewrite seqZ_nil by lia. cbn. rewrite app_nil_r. reflexivity.
  - destruct (IH (k + 1) v h (<[Z.to_nat k := None]> bl) ta
                (trc ++ [EvDestroy (Ptr (S (length h)) k)]))
      as (bl' & Hlen' & Hrun); [lia | rewrite length_insert; lia
                               | rewrite length_insert; lia |].
    exists bl'. split; [rewrite Hlen', length_insert; reflexivity|].
    cbn [iterate]. rewrite ptr_add_base by lia.
    unfold allocator_destroy at 1. unfold bind at 1 2. unfold store.
    cbn [mem]. rewrite write_slot_new by lia.
    unfold set_mem, log. cbn [self mem throw_after trace].
    rewrite Hrun. unfold destroy_events.
    rewrite (seqZ_cons k (Z.of_nat (S n))) by lia.
    rewrite fmap_cons, <- app_assoc. cbn [app].
    replace (Z.pred (Z.of_nat (S n))) with (Z.of_nat n) by lia.
    reflexivity.
Qed.

Lemma copy_body_ok v h bl b nbk (j : nat) trc (idx : Z) :
  data_ v = Ptr (S b) 0 -> block_at h (S b) = Some bl ->
  0 <= idx < Z.of_nat (length bl) -> idx < Z.of_nat (length nbk) ->
  Z.of_nat (length bl) <= difference_max ->
  exists nbk', length nbk' = length nbk /\
    copy_body (Ptr (S (length h)) 0) idx
      (Machine v (h ++ [Some nbk]) (Some (S j)) trc)
    = Ok tt (Machine v (h ++ [Some nbk']) (Some j)
               (trc ++ [EvConstruct (Ptr (S (length h)) idx)])).
Proof.
  pose proof difference_max_lt_modulus as Hmax.
  intros Hd Hb Hidx Hnew Hlen.
  destruct (read_slot_in_block h (S b) bl idx Hb Hidx) as [s Hs].
  exists (<[Z.to_nat idx := s]> nbk). split; [apply length_insert|].
  unfold copy_body, get, bind at 1. cbn [self]. rewrite Hd.
  rewrite !ptr_add_base by lia.
  unfold bind at 1, load. cbn [mem].
  rewrite (read_slot_app_l _ _ _ _ Hs).
  unfold construct_copy, bind, may_throw, store, log, set_mem.
  cbn [mem throw_after self trace].
  rewrite write_slot_new by lia. reflexivity.
Qed.

Lemma copy_body_throw v h bl b nbk trc (idx : Z) :
  data_ v = Ptr (S b) 0 -> block_at h (S b) = Some bl ->
  0 <= idx < Z.of_nat (length bl) ->
  Z.of_nat (length bl) <= difference_max ->
  copy_body (Ptr (S (length h)) 0) idx
    (Machine v (h ++ [Some nbk]) (Some O) trc)
  = Throw element_exception (Machine v (h ++ [Some nbk]) None trc).
Proof.
  pose proof difference_max_lt_modulus as Hmax.
  intros Hd Hb Hidx Hlen.
  destruct (read_slot_in_block h (S b) bl idx Hb Hidx) as [s Hs].
  unfold copy_body, get, bind at 1. cbn [self]. rewrite Hd.
  rewrite !ptr_add_base by lia.
  unfold bind at 1, load. cbn [mem].
  rewrite (read_slot_app_l _ _ _ _ Hs).
  unfold construct_copy, bind, may_throw. cbn [throw_after self mem trace].
  reflexivity.
Qed.

Lemma copy_cleanup_run v h nbk ta trc (made capacity : Z) :
  0 <= made <= Z.of_nat (length nbk) ->
  Z.of_nat (length nbk) <= difference_max ->
  copy_cleanup (Ptr (S (length h)) 0) capacity made
    (Machine v (h ++ [Some nbk]) ta trc)
  = Ok tt (Machine v (h ++ [None]) ta
             (trc ++ destroy_events (S (length h)) 0 made
                  ++ [EvDeallocate (S (length h)) capacity])).
Proof.
  intros Hmade Hlen. unfold copy_cleanup, for_.
  destruct (destroy_loop_new (Z.to_nat (made - 0)) 0 v h nbk ta trc)
    as (bl' & Hlen' & Hrun); [lia | lia | lia |].
  rewrite (bind_ok _ _ _ _ _ Hrun).
  unfold allocator_deallocate. cbn [ptr_eqb blk nullptr Nat.eqb andb].
  cbn [mem blk off]. rewrite block_at_new. cbn [Z.eqb pred].
  cbn [self throw_after trace]. rewrite release_new.
  replace (Z.of_nat (Z.to_nat (made - 0))) with made by lia.
  rewrite <- app_assoc. reflexivity.
Qed.

Lemma copy_loop_throws (j : nat) : forall (n : nat) (idx : Z) v h bl b nbk trc capacity,
  data_ v = Ptr (S b) 0 -> block_at h (S b) = Some bl ->
  0 <= idx -> (j < n)%nat ->
  idx + Z.of_nat n <= Z.of_nat (length bl) ->
  idx + Z.of_nat n <= Z.of_nat (length nbk) ->
  Z.of_nat (length bl) <= difference_max ->
  Z.of_nat (length nbk) <= difference_max ->
  try_iterate (copy_body (Ptr (S (length h)) 0))
              (copy_cleanup (Ptr (S (length h)) 0) capacity)
              n idx idx (Machine v (h ++ [Some nbk]) (Some j) trc)
  = Throw element_exception
      (Machine v (h ++ [None]) None
         (trc ++ construct_events (S (length h)) idx (Z.of_nat j)
              ++ destroy_events (S (length h)) 0 (idx + Z.of_nat j)
              ++ [EvDeallocate (S (length h)) capacity])).
Proof.
  induction j as [|j IH];
    intros n idx v h bl b nbk trc capacity Hd Hb Hidx Hj Hold Hnew Hlen Hlen'.
  - destruct n as [|n]; [lia|]. cbn [try_iterate].
    apply bind_throw. unfold on_exception.
    rewrite (copy_body_throw v h bl b nbk trc idx Hd Hb) by lia.
    rewrite copy_cleanup_run by lia.
    unfold construct_events. rewrite seqZ_nil by lia. cbn [fmap list_fmap app].
    replace (idx + Z.of_nat 0) with idx by lia. reflexivity.
  - destruct n as [|n]; [lia|]. cbn [try_iterate].
    destruct (copy_body_ok v h bl b nbk j trc idx Hd Hb) as (nbk' & Hl & Hrun);
      [lia | lia | lia |].
    erewrite bind_ok; [| unfold on_exception; rewrite Hrun; reflexivity].
    rewrite (IH n (idx + 1) v h bl b nbk' _ capacity Hd Hb) by (rewrite ?Hl; lia).
    unfold construct_events.
    rewrite (seqZ_cons idx (Z.of_nat (S j))) by lia.
    rewrite fmap_cons, <- !app_assoc. cbn [app].
    replace (Z.pred (Z.of_nat (S j))) with (Z.of_nat j) by lia.
    replace (idx + 1 + Z.of_nat j) with (idx + Z.of_nat (S j)) by lia.
    reflexivity.
Qed.

Lemma reallocate_copy_path_throw m (capacity : Z) (k : nat) :
  is_nothrow_move_constructible tr = false ->
  is_copy_constructible tr = true ->
  wf m ->
  size_ (self m) <= capacity <= difference_max ->
  throw_after m = Some k ->
  Z.of_nat k < size_ (self m) ->
  reallocate_strong_guarantee tr capacity m
  = Throw element_exception (rolled_back m capacity k).
Proof.
  intros Hnt Hcp (Hsz & Hcap & Hbuf) Hnew Hta Hk.
  destruct Hbuf as [[_ H0] | (b & bl & Hd & Hb & Hlen)]; [lia|].
  destruct m as [v h ta trc]. cbn [self mem throw_after trace] in *. subst ta.
  unfold reallocate_strong_guarantee. rewrite Hnt, Hcp. cbn [orb negb andb].
  unfold bind at 1. unfold allocator_allocate. cbn [mem self throw_after trace].
  destruct (difference_max <? capacity) eqn:E; [apply Z.ltb_lt in E; lia|].
  unfold bind at 1. unfold get at 1. cbn [self].
  apply bind_throw.
  pose proof (copy_loop_throws k (Z.to_nat (size_ v)) 0 v h bl b
                (replicate (Z.to_nat capacity) None)
                (trc ++ [EvAllocate (S (length h)) capacity]) capacity Hd Hb) as H.
  rewrite length_replicate in H.
  unfold rolled_back. cbn [self mem trace].
  rewrite <- !app_assoc in H. cbn [app] in H |- *.
  replace (0 + Z.of_nat k) with (Z.of_nat k) in H by lia.
  apply H; lia.
Qed.

(** The same for a vector that owns the block [S b], whatever its
    [capacity_] field says. *)
Lemma reallocate_copy_throw_at v h (b : nat) bl trc (capacity : Z) (k : nat) :
  is_nothrow_move_constructible tr = false ->
  is_copy_constructible tr = true ->
  data_ v = Ptr (S b) 0 -> block_at h (S b) = Some bl ->
  0 <= size_ v <= Z.of_nat (length bl) ->
  Z.of_nat (length bl) <= difference_max ->
  size_ v <= capacity <= difference_max ->
  Z.of_nat k < size_ v ->
  reallocate_strong_guarantee tr capacity (Machine v h (Some k) trc)
  = Throw element_exception (rolled_back (Machine v h (Some k) trc) capacity k).
Proof.
  intros Hnt Hcp Hd Hb Hs Hlen Hnew Hk.
  unfold reallocate_strong_guarantee. rewrite Hnt, Hcp. cbn [orb negb andb].
  unfold bind at 1. unfold allocator_allocate. cbn [mem self throw_after trace].
  destruct (difference_max <? capacity) eqn:E; [apply Z.ltb_lt in E; lia|].
  unfold bind at 1. unfold get at 1. cbn [self].
  apply bind_throw.
  pose proof (copy_loop_throws k (Z.to_nat (size_ v)) 0 v h bl b
                (replicate (Z.to_nat capacity) None)
                (trc ++ [EvAllocate (S (length h)) capacity]) capacity Hd Hb) as H.
  rewrite length_replicate in H.
  unfold rolled_back. cbn [self mem trace].
  rewrite <- !app_assoc in H. cbn [app] in H |- *.
  replace (0 + Z.of_nat k) with (Z.of_nat k) in H by lia.
  apply H; lia.
Qed.

(** The rollback inside [reallocate_strong_guarantee], for a call that
    asks for more than [capacity_]: on the copy path, when [k] copies
    succeed and the next copy construction throws, the exception leaves
    the function; the fields of the vector are the ones at the entry of
    the function; every block of the free store that existed before
    reads as before; the new block has been released; and the trace of
    the call is the allocation, the [k] constructions in the new block,
    the destruction of these [k] elements, and the deallocation.
    [reserve] calls the function this way. [emplace] and [insert] do
    not: they have doubled [capacity_] before the call. *)
Theorem reallocate_copy_failure_strong_guarantee m (capacity : Z) (k : nat) :
  is_nothrow_move_constructible tr = false ->
  is_copy_constructible tr = true ->
  wf m ->
  capacity_ (self m) < capacity <= difference_max ->
  throw_after m = Some k ->
  Z.of_nat k < size_ (self m) ->
  exists m',
    reallocate_strong_guarantee tr capacity m = Throw element_exception m'
    /\ self m' = self m
    /\ (forall p, read_slot (mem m') p = read_slot (mem m) p)
    /\ block_at (mem m') (S (length (mem m))) = None
    /\ trace m' =
         trace m ++ [EvAllocate (S (length (mem m))) capacity]
                 ++ construct_events (S (length (mem m))) 0 (Z.of_nat k)
                 ++ destroy_events (S (length (mem m))) 0 (Z.of_nat k)
                 ++ [EvDeallocate (S (length (mem m))) capacity].
Proof.
  intros Hnt Hcp Hwf Hcap Hta Hk.
  exists (rolled_back m capacity k). split.
  - apply reallocate_copy_path_throw; try assumption.
    destruct Hwf as (? & ? & _). lia.
  - unfold rolled_back. cbn [self mem trace].
    split; [reflexivity|]. split; [apply read_slot_released|].
    split; [|reflexivity].
    cbn [block_at]. rewrite lookup_app_r by lia.
    rewrite Nat.sub_diag. reflexivity.
Qed.

(** The same through [reserve], the public entry to the reallocation. *)
Lemma reserve_copy_failure_strong_guarantee m (capacity : Z) (k : nat) :
  is_nothrow_move_constructible tr = false ->
  is_copy_constructible tr = true ->
  wf m ->
  capacity_ (self m) < capacity <= difference_max ->
  throw_after m = Some k ->
  Z.of_nat k < size_ (self m) ->
  reserve tr capacity m = Throw element_exception (rolled_back m capacity k).
Proof.
  intros Hnt Hcp Hwf Hcap Hta Hk.
  unfold reserve, max_size.
  destruct (difference_max <? capacity) eqn:E; [apply Z.ltb_lt in E; lia|].
  unfold bind, get.
  destruct (capacity_ (self m) <? capacity) eqn:E'; [|apply Z.ltb_ge in E'; lia].
  apply reallocate_copy_path_throw; try assumption.
  destruct Hwf as (? & ? & _). lia.
Qed.

End Reallocation.

(** ** What the insertion paths keep when they do not reallocate *)

Section Preservation.

Context {T : Type}.
Variable tr : traits.
Implicit Types (m : @machine T) (h : heap T) (bl : list (slot T)).

(** A relation between the state before and the state after that the
    elementary steps below respect. *)
Variable R : @machine T -> @machine T -> Prop.
Hypothesis R_refl : forall m, R m m.
Hypothesis R_trans : forall m1 m2 m3, R m1 m2 -> R m2 m3 -> R m1 m3.
Hypothesis R_store : forall m p s h,
  write_slot (mem m) p s = Some h ->
  R m (Machine (self m) h (throw_after m) (trace m)).
Hypothesis R_env : forall m ta trc, R m (Machine (self m) (mem m) ta trc).
Hypothesis R_size : forall m n,
  0 <= n ->
  R m (Machine (Vector (data_ (self m)) n (capacity_ (self m)))
               (mem m) (throw_after m) (trace m)).

Lemma preserves_ret {A} (a : A) : preserves R (ret a).
Proof. intros m. apply R_refl. Qed.

Lemma preserves_throw {A} (e : exn) : preserves R (@throw T A e).
Proof. intros m. apply R_refl. Qed.

Lemma preserves_fault {A} : preserves R (@fault T A).
Proof. intros m. exact I. Qed.

Lemma preserves_bind {A B} (c : M A) (k : A -> M B) :
  preserves R c -> (forall a, preserves R (k a)) -> preserves R (bind c k).
Proof.
  intros Hc Hk m. unfold bind. specialize (Hc m).
  destruct (c m) as [a m1|e m1|]; [|exact Hc|exact I].
  specialize (Hk a m1).
  destruct (k a m1) as [b m2|e m2|]; [| |exact I]; eapply R_trans; eassumption.
Qed.

Lemma preserves_if {A} (b : bool) (c1 c2 : @M T A) :
  preserves R c1 -> preserves R c2 -> preserves R (if b then c1 else c2).
Proof. destruct b; auto. Qed.

Lemma preserves_on_exception {A} (c : @M T A) (cleanup : M unit) :
  preserves R c -> preserves R cleanup -> preserves R (on_exception c cleanup).
Proof.
  intros Hc Hu m. unfold on_exception. specialize (Hc m).
  destruct (c m) as [a m1|e m1|]; [exact Hc| |exact I].
  specialize (Hu m1).
  destruct (cleanup m1) as [b m2|e' m2|]; [| |exact I]; eapply R_trans; eassumption.
Qed.

Lemma preserves_iterate (body : Z -> M unit) (n : nat) :
  (forall k, preserves R (body k)) -> forall k, preserves R (iterate body n k).
Proof.
  intros Hb. induction n as [|n IH]; intros k; cbn [iterate].
  - apply preserves_ret.
  - apply preserves_bind; [apply Hb | intros _; apply IH].
Qed.

Lemma preserves_for (lo hi : Z) (body : Z -> M unit) :
  (forall k, preserves R (body k)) -> preserves R (for_ lo hi body).
Proof. intros Hb. unfold for_. apply preserves_iterate. exact Hb. Qed.

Lemma preserves_try_iterate (body cleanup : Z -> M unit) (n : nat) :
  (forall k, preserves R (body k)) -> (forall k, preserves R (cleanup k)) ->
  forall k made, preserves R (try_iterate body cleanup n k made).
Proof.
  intros Hb Hc. induction n as [|n IH]; intros k made; cbn [try_iterate].
  - apply preserves_ret.
  - apply preserves_bind; [|intros _; apply IH].
    apply preserves_on_exception; [apply Hb | apply Hc].
Qed.

Lemma preserves_get {A} (f : vector -> A) : preserves R (get f).
Proof. intros m. apply R_refl. Qed.

Lemma preserves_load (p : ptr) : preserves R (load p).
Proof.
  intros m. unfold load. destruct (read_slot (mem m) p); [apply R_refl | exact I].
Qed.

Lemma preserves_store (p : ptr) (s : slot T) : preserves R (store p s).
Proof.
  intros m. unfold store. destruct (write_slot (mem m) p s) eqn:E; [|exact I].
  unfold set_mem. apply (R_store m p s). exact E.
Qed.

Lemma preserves_assign_slot (p : ptr) (s : slot T) :
  preserves R (assign_slot p s).
Proof.
  intros m. unfold assign_slot.
  destruct (read_slot (mem m) p) as [[x|]|]; [|exact I|exact I].
  apply preserves_store.
Qed.

Lemma preserves_log (e : event) : preserves R (log e).
Proof. intros m. unfold log. apply R_env. Qed.

Lemma preserves_may_throw : preserves R may_throw.
Proof.
  intros m. unfold may_throw. destruct (throw_after m) as [[|k]|];
    [apply R_env | apply R_env | apply R_refl].
Qed.

Lemma preserves_set_size (n : Z) : 0 <= n -> preserves R (set_size n).
Proof. intros Hn m. unfold set_size, bind, get, set_self. cbn. apply R_size. exact Hn. Qed.

Ltac preserve_using known :=
  repeat first
    [ known
    | apply preserves_ret
    | apply preserves_get
    | apply preserves_load
    | apply preserves_store
    | apply preserves_assign_slot
    | apply preserves_log
    | apply preserves_may_throw
    | apply preserves_set_size; apply wrap_nonneg
    | apply preserves_bind; [|intros ?]
    | apply preserves_on_exception
    | apply preserves_for; intros ?
    | apply preserves_iterate; intros ?
    | apply preserves_try_iterate; intros ?
    | apply preserves_if ].

Ltac preserve := preserve_using fail.

Lemma preserves_construct_copy p (x : slot T) : preserves R (construct_copy p x).
Proof. unfold construct_copy. preserve. Qed.

Lemma preserves_construct_move p (x : slot T) : preserves R (construct_move tr p x).
Proof. unfold construct_move. preserve. Qed.

Lemma preserves_destroy p : preserves R (@allocator_destroy T p).
Proof. unfold allocator_destroy. preserve. Qed.

Lemma preserves_assign_range (src dst : Z -> ptr) (n : Z) :
  preserves R (@assign_range T src dst n).
Proof. unfold assign_range. preserve. Qed.

Lemma preserves_insert_end (value : T) :
  preserves R (insert_end_strong_guarantee value).
Proof.
  unfold insert_end_strong_guarantee.
  preserve; first [apply preserves_construct_copy | apply preserves_destroy].
Qed.

Lemma preserves_shift_and_construct (index_pos : Z) (value : T) (count : Z) :
  preserves R (shift_and_construct index_pos value count).
Proof.
  unfold shift_and_construct. cbv zeta.
  preserve; first [apply preserves_construct_copy | apply preserves_destroy].
Qed.

Lemma preserves_shift_and_construct_rvalue (index_pos : Z) (value : T) :
  preserves R (shift_and_construct_rvalue tr index_pos value).
Proof.
  unfold shift_and_construct_rvalue, std_move_backward.
  apply preserves_if; [|apply preserves_shift_and_construct].
  preserve;
    first [apply preserves_construct_move | apply preserves_assign_range].
Qed.

Lemma preserves_init_make_room (values : list T) :
  forall index, preserves R (init_make_room values index).
Proof.
  induction values as [|v vs IH]; intros index; cbn [init_make_room].
  - apply preserves_ret.
  - preserve; first [apply preserves_construct_copy | apply IH].
Qed.

Lemma preserves_init_fill (pos_index_position : Z) (values : list T) :
  forall index, preserves R (init_fill pos_index_position values index).
Proof.
  induction values as [|v vs IH]; intros index; cbn [init_fill].
  - apply preserves_ret.
  - preserve;
      first [apply preserves_construct_copy | apply preserves_destroy | apply IH].
Qed.

Lemma preserves_shift_and_construct_init (pos_index_position : Z)
  (values : list T) :
  preserves R (shift_and_construct_init pos_index_position values).
Proof.
  unfold shift_and_construct_init, std_copy_backward.
  preserve;
    first [apply preserves_init_make_room | apply preserves_init_fill
          | apply preserves_assign_range].
Qed.

Lemma bind_get {A B} (f : vector -> A) (k : A -> @M T B) m :
  bind (get f) k m = k (f (self m)) m.
Proof. reflexivity. Qed.

Lemma guard_below (s n c : Z) :
  0 <= s -> 0 <= n -> s + n < c -> (wrap (s + n) <? c) = true.
Proof.
  intros Hs Hn Hc. apply Z.ltb_lt. pose proof (wrap_le (s + n)). lia.
Qed.

Ltac as_preserves :=
  lazymatch goal with
  | |- match ?c ?m0 with Ok _ _ => _ | Throw _ _ => _ | Fault => _ end =>
      let H := fresh in assert (H : preserves R c); [| exact (H m0)]
  end.

Lemma emplace_below cat pos (x : T) m :
  0 <= size_ (self m) ->
  size_ (self m) + 1 < capacity_ (self m) ->
  kept R (emplace tr cat pos x m) m.
Proof.
  intros Hs Hg. unfold kept, emplace, begin, size, capacity.
  repeat (rewrite bind_get; cbv beta zeta).
  rewrite guard_below by lia.
  as_preserves.
  unfold end_, construct_forward, shift_and_construct_forward.
  destruct cat;
    preserve_using
      ltac:(first [apply preserves_construct_copy
                  | apply preserves_construct_move | apply preserves_destroy
                  | apply preserves_shift_and_construct
                  | apply preserves_shift_and_construct_rvalue]).
Qed.

Lemma may_throw_self m :
  match may_throw m with
  | Ok _ m' => self m' = self m
  | Throw _ m' => self m' = self m
  | Fault => True
  end.
Proof. unfold may_throw. destruct (throw_after m) as [[|k]|]; reflexivity. Qed.

Lemma kept_trans {A} (o : @outcome T A) m m1 :
  R m m1 -> kept R o m1 -> kept R o m.
Proof.
  intros Hr Hk. destruct o as [a m2|e m2|]; [| |exact I];
    cbn in *; eapply R_trans; eassumption.
Qed.

Lemma kept_bind {A B} (c : @M T A) (k : A -> M B) m :
  kept R (c m) m -> (forall a, preserves R (k a)) -> kept R (bind c k m) m.
Proof.
  intros Hc Hk. unfold bind.
  destruct (c m) as [a m1|e m1|]; [|exact Hc|exact I].
  cbn in Hc. apply (kept_trans _ m m1 Hc). exact (Hk a m1).
Qed.

Lemma emplace_back_below (x : T) m :
  0 <= size_ (self m) ->
  size_ (self m) + 1 < capacity_ (self m) ->
  kept R (emplace_back tr x m) m.
Proof.
  intros Hs Hg. unfold emplace_back.
  change (bind end_ ?k m) with (k (ptr_add (data_ (self m)) (size_ (self m))) m).
  cbv beta.
  apply kept_bind; [apply emplace_below; assumption|].
  intros _. unfold size. preserve.
Qed.

Lemma push_back_below (x : T) m :
  0 <= size_ (self m) ->
  size_ (self m) + 1 < capacity_ (self m) ->
  kept R (push_back tr x m) m.
Proof.
  intros Hs Hg. unfold push_back. unfold bind at 1.
  pose proof (preserves_may_throw m) as Hr.
  pose proof (may_throw_self m) as Hself.
  destruct (may_throw m) as [u m1|e m1|]; [|exact Hr|exact I].
  apply (kept_trans _ m m1 Hr).
  apply kept_bind; [|intros _; apply preserves_ret].
  apply emplace_back_below; rewrite Hself; assumption.
Qed.

Lemma insert_below pos (count : Z) (value : T) m :
  0 <= size_ (self m) -> 0 <= count ->
  size_ (self m) + count < capacity_ (self m) ->
  kept R (insert tr pos count value m) m.
Proof.
  intros Hs Hc Hg. unfold kept, insert, begin, size, capacity.
  repeat (rewrite bind_get; cbv beta zeta).
  rewrite guard_below by lia.
  as_preserves.
  unfold end_.
  preserve_using
    ltac:(first [apply preserves_insert_end
                | apply preserves_shift_and_construct]).
Qed.

Lemma insert_init_list_below pos (values : list T) m :
  0 <= size_ (self m) ->
  size_ (self m) + Z.of_nat (length values) < capacity_ (self m) ->
  kept R (insert_init_list tr pos values m) m.
Proof.
  intros Hs Hg. unfold kept, insert_init_list, begin, size, capacity.
  repeat (rewrite bind_get; cbv beta zeta).
  rewrite guard_below by lia.
  as_preserves.
  preserve_using ltac:(apply preserves_shift_and_construct_init).
Qed.

Lemma perform_below (op : insertion) m :
  0 <= size_ (self m) -> 0 <= inserted op ->
  size_ (self m) + inserted op < capacity_ (self m) ->
  kept R (perform tr op m) m.
Proof.
  intros Hs Hn Hg.
  destruct op as [x|cat pos x|cat pos x|pos count x|pos values];
    cbn [perform inserted] in *.
  - apply push_back_below; assumption.
  - apply kept_bind; [apply emplace_below; assumption|].
    intros _. apply preserves_ret.
  - apply kept_bind; [apply emplace_below; assumption|].
    intros _. apply preserves_ret.
  - apply kept_bind; [apply insert_below; assumption|].
    intros _. apply preserves_ret.
  - apply kept_bind; [apply insert_init_list_below; assumption|].
    intros _. apply preserves_ret.
Qed.

End Preservation.

(** The same steps for a relation given with its closure properties as
    hypotheses of the goal. *)
Ltac preserve_with known :=
  repeat first
    [ assumption
    | known
    | apply preserves_ret
    | apply preserves_get
    | apply preserves_load
    | apply preserves_store
    | apply preserves_assign_slot
    | apply preserves_log
    | apply preserves_may_throw
    | apply preserves_construct_copy
    | apply preserves_construct_move
    | apply preserves_destroy
    | apply preserves_bind; [..|intros ?]
    | apply preserves_for; [..|intros ?]
    | apply preserves_try_iterate; [..|intros ?|intros ?]
    | apply preserves_if ].

(** ** reserve, then insertions below the reserved capacity *)

Section Reserve.

Context {T : Type}.
Variable tr : traits.
Implicit Types (m : @machine T) (h : heap T) (bl : list (slot T)).

Lemma shape_write_slot h p (s : slot T) h' :
  write_slot h p s = Some h' -> shape h' = shape h.
Proof.
  unfold write_slot. destruct (blk p) as [|b]; [discriminate|].
  cbn [block_at pred]. destruct (h !! b) as [[bl|]|] eqn:E; try discriminate.
  destruct (in_block bl (off p)); [|discriminate].
  intros [= <-]. unfold shape. rewrite list_fmap_insert. cbn.
  rewrite length_insert. apply list_insert_id.
  rewrite list_lookup_fmap, E. reflexivity.
Qed.

Lemma frame_refl m : frame m m.
Proof. unfold frame. auto. Qed.

Lemma frame_trans m1 m2 m3 : frame m1 m2 -> frame m2 m3 -> frame m1 m3.
Proof.
  unfold frame. intros (Hd & Hc & Hs & Hh) (Hd' & Hc' & Hs' & Hh').
  repeat split; [congruence | congruence | auto | congruence].
Qed.

Lemma frame_store m p (s : slot T) h :
  write_slot (mem m) p s = Some h ->
  frame m (Machine (self m) h (throw_after m) (trace m)).
Proof.
  intros H. unfold frame. cbn [self mem].
  repeat split; auto. apply (shape_write_slot _ _ _ _ H).
Qed.

Lemma frame_env m ta trc : frame m (Machine (self m) (mem m) ta trc).
Proof. unfold frame. auto. Qed.

Lemma frame_size m (n : Z) :
  0 <= n ->
  frame m (Machine (Vector (data_ (self m)) n (capacity_ (self m)))
                   (mem m) (throw_after m) (trace m)).
Proof. unfold frame. cbn. auto. Qed.

Lemma frame_perform (op : insertion) m :
  0 <= size_ (self m) -> 0 <= inserted op ->
  size_ (self m) + inserted op < capacity_ (self m) ->
  kept frame (perform tr op m) m.
Proof.
  apply (perform_below tr frame frame_refl frame_trans frame_store
           frame_env frame_size).
Qed.

Lemma bind_ok_inv {A B} (c : @M T A) (k : A -> M B) m b m' :
  bind c k m = Ok b m' -> exists a m1, c m = Ok a m1 /\ k a m1 = Ok b m'.
Proof.
  unfold bind. destruct (c m) as [a m1|e m1|]; try discriminate.
  intros H. exists a, m1. auto.
Qed.

Lemma preserves_nonneg_deallocate p (n : Z) :
  preserves size_stays_nonneg (@allocator_deallocate T p n).
Proof.
  intros m. unfold allocator_deallocate.
  destruct (ptr_eqb p nullptr); [unfold ret, size_stays_nonneg; auto|].
  destruct (block_at (mem m) (blk p)); [|exact I].
  destruct (off p =? 0); [|exact I].
  unfold size_stays_nonneg. cbn. auto.
Qed.

Lemma reallocation_loops_nonneg (temp : ptr) (capacity s : Z) :
  preserves (@size_stays_nonneg T)
    (if is_nothrow_move_constructible tr
        || (negb (is_nothrow_move_constructible tr)
            && negb (is_copy_constructible tr))
     then for_ 0 s (fun index =>
            bind (get data_) (fun d =>
            bind (load (ptr_add d index)) (fun x =>
            construct_move tr (ptr_add temp index) x)))
     else try_iterate (copy_body temp) (copy_cleanup temp capacity)
            (Z.to_nat s) 0 0).
Proof.
  assert (Hrefl : forall m : @machine T, size_stays_nonneg m m)
    by (unfold size_stays_nonneg; auto).
  assert (Htrans : forall m1 m2 m3 : @machine T,
             size_stays_nonneg m1 m2 -> size_stays_nonneg m2 m3 ->
             size_stays_nonneg m1 m3)
    by (unfold size_stays_nonneg; auto).
  assert (Hstore : forall (m : @machine T) p (x : slot T) h,
             write_slot (mem m) p x = Some h ->
             size_stays_nonneg m (Machine (self m) h (throw_after m) (trace m)))
    by (unfold size_stays_nonneg; cbn; auto).
  assert (Henv : forall (m : @machine T) ta trc,
             size_stays_nonneg m (Machine (self m) (mem m) ta trc))
    by (unfold size_stays_nonneg; cbn; auto).
  unfold copy_body, copy_cleanup.
  preserve_with ltac:(apply preserves_nonneg_deallocate).
Qed.

Ltac bind_inv H :=
  let a := fresh "a" in
  let mi := fresh "mi" in
  let H1 := fresh "Hstep" in
  apply bind_ok_inv in H; destruct H as (a & mi & H1 & H).

Lemma deallocate_destruct_ok_fields (size capacity : Z) m mc :
  deallocate_destruct_keep_size_and_capacity size capacity m = Ok tt mc ->
  size_ (self mc) = size /\ capacity_ (self mc) = capacity.
Proof.
  unfold deallocate_destruct_keep_size_and_capacity. intros H.
  do 6 bind_inv H.
  unfold set_capacity, bind, get, set_self in Hstep4.
  unfold set_size, bind, get, set_self in H.
  injection Hstep4 as _ <-. injection H as <-. cbn. auto.
Qed.

Lemma reallocate_ok_fields (capacity : Z) m m1 :
  0 <= size_ (self m) ->
  reallocate_strong_guarantee tr capacity m = Ok tt m1 ->
  capacity_ (self m1) = capacity /\ 0 <= size_ (self m1).
Proof.
  intros Hs H. unfold reallocate_strong_guarantee in H.
  bind_inv H. rename a into temp, mi into ma.
  assert (Hma : self ma = self m).
  { unfold allocator_allocate in Hstep.
    destruct (difference_max <? capacity); [discriminate|].
    injection Hstep as _ <-. reflexivity. }
  bind_inv H. unfold get in Hstep0. injection Hstep0 as <- <-.
  bind_inv H. rename mi into mb.
  pose proof (reallocation_loops_nonneg temp capacity (size_ (self ma)) ma) as Hl.
  unfold copy_body, copy_cleanup in Hl. rewrite Hstep0 in Hl.
  unfold size_stays_nonneg in Hl.
  cbv zeta in H. bind_inv H. unfold get in Hstep1. injection Hstep1 as <- <-.
  bind_inv H. rename mi into mc.
  repeat match goal with u : unit |- _ => destruct u end.
  apply deallocate_destruct_ok_fields in Hstep1. destruct Hstep1 as [Hsz Hcp].
  unfold set_data, bind, get, set_self in H. injection H as <-. cbn.
  rewrite Hsz, Hcp. split; [reflexivity|]. apply Hl. rewrite Hma. exact Hs.
Qed.

Lemma reserve_ok_fields (n : Z) m m1 :
  0 <= size_ (self m) ->
  reserve tr n m = Ok tt m1 ->
  0 <= size_ (self m1)
  /\ n <= capacity_ (self m1)
  /\ (capacity_ (self m) < n -> capacity_ (self m1) = n).
Proof.
  intros Hs H. unfold reserve in H.
  destruct (max_size <? n); [discriminate|].
  unfold bind, get in H.
  destruct (capacity_ (self m) <? n) eqn:E.
  - apply reallocate_ok_fields in H; [|exact Hs]. destruct H as [-> H].
    repeat split; [exact H | lia].
  - apply Z.ltb_ge in E. injection H as <-. repeat split; [exact Hs | lia | lia].
Qed.

Lemma insertions_below_frame (n : Z) m1 m2 :
  insertions_below tr n m1 m2 ->
  0 <= size_ (self m1) -> n <= capacity_ (self m1) ->
  frame m1 m2.
Proof.
  induction 1 as [m|m op ma mb Hn Hg Hrun _ IH]; intros Hs Hc.
  - apply frame_refl.
  - pose proof (frame_perform op m Hs Hn) as Hk.
    assert (Hf : frame m ma).
    { destruct (perform tr op m) as [u m'|e m'|]; cbn in Hrun;
        try discriminate; injection Hrun as <-; apply Hk; lia. }
    apply (frame_trans _ ma _ Hf). destruct Hf as (_ & Hcap & Hsz & _).
    apply IH; [auto | lia].
Qed.

(** After [reserve(n)] has returned, the capacity is at least [n], and
    is [n] if it was below [n] before; any run of [push_back], [emplace]
    and [insert] calls, each of which asks for a number of elements that
    stays strictly below [n], when it returns or throws, leaves the
    address of the buffer and the capacity as [reserve] set them and
    allocates and releases no block. *)
Theorem reserve_then_insertions_below_capacity (n : Z) m m1 m2 :
  0 <= size_ (self m) ->
  reserve tr n m = Ok tt m1 ->
  insertions_below tr n m1 m2 ->
  n <= capacity_ (self m1)
  /\ (capacity_ (self m) < n -> capacity_ (self m1) = n)
  /\ data_ (self m2) = data_ (self m1)
  /\ capacity_ (self m2) = capacity_ (self m1)
  /\ shape (mem m2) = shape (mem m1).
Proof.
  intros Hs Hres Hrun.
  destruct (reserve_ok_fields n m m1 Hs Hres) as (Hs1 & Hn & Hc).
  destruct (insertions_below_frame n m1 m2 Hrun Hs1 Hn) as (Hd & Hcap & _ & Hsh).
  auto.
Qed.

End Reserve.

(** ** clear, construction from a list, and the fast path of push_back *)

Section Clear.

Context {T : Type}.
Variable tr : traits.
Implicit Types (m : @machine T) (h : heap T) (bl : list (slot T)).

Lemma ptr_eqb_refl (p : ptr) : ptr_eqb p p = true.
Proof.
  unfold ptr_eqb. rewrite Nat.eqb_refl, Z.eqb_refl. reflexivity.
Qed.

Lemma write_slot_own h (b : nat) bl (i : Z) (s : slot T) :
  block_at h (S b) = Some bl -> 0 <= i < Z.of_nat (length bl) ->
  write_slot h (Ptr (S b) i) s = Some (<[b := Some (<[Z.to_nat i := s]> bl)]> h).
Proof.
  intros Hb Hi. unfold write_slot. cbn [blk off]. rewrite Hb.
  rewrite in_block_true by lia. reflexivity.
Qed.

Lemma block_at_lookup h (b : nat) bl :
  block_at h (S b) = Some bl -> h !! b = Some (Some bl).
Proof.
  cbn [block_at]. destruct (h !! b) as [[x|]|]; try discriminate.
  intros [= ->]. reflexivity.
Qed.

Lemma block_at_insert h (b : nat) bl bl' :
  block_at h (S b) = Some bl -> block_at (<[b := Some bl']> h) (S b) = Some bl'.
Proof.
  intros Hb. apply block_at_lookup in Hb. cbn [block_at].
  rewrite list_lookup_insert_eq; [reflexivity|].
  apply lookup_lt_Some in Hb. exact Hb.
Qed.

Lemma length_clear_range bl (k n : nat) :
  length (clear_range bl k n) = length bl.
Proof.
  revert bl k. induction n as [|n IH]; intros bl k; cbn [clear_range];
    [reflexivity|]. rewrite IH. apply length_insert.
Qed.

Lemma lookup_clear_range_before bl (k n i : nat) :
  (i < k)%nat -> clear_range bl k n !! i = bl !! i.
Proof.
  revert bl k. induction n as [|n IH]; intros bl k Hi; cbn [clear_range];
    [reflexivity|]. rewrite IH by lia. apply list_lookup_insert_ne. lia.
Qed.

Lemma lookup_clear_range_in bl (k n i : nat) :
  (k <= i < k + n)%nat -> (i < length bl)%nat ->
  clear_range bl k n !! i = Some None.
Proof.
  revert bl k. induction n as [|n IH]; intros bl k Hi Hl; cbn [clear_range];
    [lia|].
  destruct (decide (i = k)) as [->|Hne].
  - rewrite lookup_clear_range_before by lia.
    apply list_lookup_insert_eq. exact Hl.
  - apply IH; [lia | rewrite length_insert; exact Hl].
Qed.

Lemma destroy_loop_own (n : nat) : forall (k : Z) v h bl (b : nat) ta trc,
  data_ v = Ptr (S b) 0 -> block_at h (S b) = Some bl ->
  0 <= k -> k + Z.of_nat n <= Z.of_nat (length bl) ->
  Z.of_nat (length bl) <= difference_max ->
  iterate (fun index =>
             bind (get data_) (fun d => allocator_destroy (ptr_add d index)))
          n k (Machine v h ta trc)
  = Ok tt (Machine v (<[b := Some (clear_range bl (Z.to_nat k) n)]> h) ta
             (trc ++ destroy_events (S b) k (Z.of_nat n))).
Proof.
  pose proof difference_max_lt_modulus as Hmax.
  induction n as [|n IH]; intros k v h bl b ta trc Hd Hb Hk Hn Hlen.
  - cbn [iterate clear_range]. unfold ret, destroy_events.
    rewrite seqZ_nil by lia. cbn [fmap list_fmap]. rewrite app_nil_r.
    rewrite list_insert_id by (apply block_at_lookup; exact Hb). reflexivity.
  - cbn [iterate clear_range]. unfold bind at 1 2. unfold get at 1.
    cbn [self]. rewrite Hd, ptr_add_base by lia.
    unfold allocator_destroy, bind, store. cbn [mem].
    rewrite (write_slot_own h b bl k None Hb) by lia.
    unfold set_mem, log. cbn [self mem throw_after trace].
    rewrite (IH (k + 1) v _ (<[Z.to_nat k := None]> bl) b ta _ Hd
               (block_at_insert _ _ _ _ Hb))
      by (rewrite ?length_insert; lia).
    rewrite list_insert_insert_eq.
    replace (Z.to_nat (k + 1)) with (S (Z.to_nat k)) by lia.
    unfold destroy_events. rewrite (seqZ_cons k (Z.of_nat (S n))) by lia.
    rewrite fmap_cons, <- app_assoc. cbn [app].
    replace (Z.pred (Z.of_nat (S n))) with (Z.of_nat n) by lia.
    reflexivity.
Qed.

Lemma shape_insert_block h (b : nat) bl bl' :
  block_at h (S b) = Some bl -> length bl' = length bl ->
  shape (<[b := Some bl']> h) = shape h.
Proof.
  intros Hb Hl. apply block_at_lookup in Hb. unfold shape.
  rewrite list_fmap_insert. cbn. rewrite Hl. apply list_insert_id.
  rewrite list_lookup_fmap, Hb. reflexivity.
Qed.

Lemma read_slot_own h (b : nat) bl (i : Z) :
  block_at h (S b) = Some bl -> 0 <= i < Z.of_nat (length bl) ->
  read_slot h (Ptr (S b) i) = bl !! Z.to_nat i.
Proof.
  intros Hb Hi. unfold read_slot. cbn [blk off]. rewrite Hb.
  rewrite in_block_true by lia. reflexivity.
Qed.

(** [clear()] on any vector that owns its buffer. *)
Lemma clear_run m :
  wf m ->
  exists m',
    clear m = Ok tt m'
    /\ self m' = Vector (data_ (self m)) 0 (capacity_ (self m))
    /\ shape (mem m') = shape (mem m)
    /\ (forall i, 0 <= i < size_ (self m) ->
          read_slot (mem m') (ptr_add (data_ (self m)) i) = Some None)
    /\ throw_after m' = throw_after m
    /\ trace m' = trace m
                  ++ destroy_events (blk (data_ (self m))) 0 (size_ (self m))
    /\ wf m'.
Proof.
  pose proof difference_max_lt_modulus as Hmax.
  intros (Hsz & Hcap & Hbuf). destruct m as [[d s c] h ta trc].
  cbn [self mem throw_after trace data_ size_ capacity_] in *.
  unfold clear, destruct, for_. rewrite bind_get. cbn [self size_].
  destruct Hbuf as [[-> ->] | (b & bl & -> & Hb & Hlen)].
  - assert (s = 0) as -> by lia. cbn.
    eexists. split; [reflexivity|].
    cbn [self mem throw_after trace data_ size_ capacity_].
    split; [reflexivity|]. split; [reflexivity|].
    split; [intros i Hi; lia|]. split; [reflexivity|].
    split; [unfold destroy_events; cbn; rewrite app_nil_r; reflexivity|].
    unfold wf. cbn [self mem data_ size_ capacity_].
    split; [lia|]. split; [lia|]. left. auto.
  - unfold bind at 1.
    rewrite (destroy_loop_own (Z.to_nat (s - 0)) 0 (Vector (Ptr (S b) 0) s c)
               h bl b ta trc eq_refl Hb)
      by lia.
    unfold set_size, bind, get, set_self. cbn [self mem throw_after trace data_ capacity_].
    eexists. split; [reflexivity|]. cbn [self mem throw_after trace data_ size_ capacity_ blk].
    assert (Hbl : length (clear_range bl (Z.to_nat 0) (Z.to_nat (s - 0))) = length bl)
      by apply length_clear_range.
    split; [reflexivity|]. split; [apply (shape_insert_block _ _ _ _ Hb Hbl)|].
    split.
    { intros i Hi. rewrite ptr_add_base by lia.
      erewrite read_slot_own;
        [| apply (block_at_insert _ _ _ _ Hb) | rewrite Hbl; lia].
      apply lookup_clear_range_in; lia. }
    split; [reflexivity|].
    split; [replace (Z.of_nat (Z.to_nat (s - 0))) with s by lia; reflexivity|].
    unfold wf. cbn [self mem data_ size_ capacity_].
    split; [lia|]. split; [lia|]. right. eexists b, _.
    split; [reflexivity|]. split; [apply (block_at_insert _ _ _ _ Hb)|].
    rewrite Hbl. exact Hlen.
Qed.

Lemma construct_values_new (values : list T) :
  forall (done : list T) v h trc,
    data_ v = Ptr (S (length h)) 0 ->
    Z.of_nat (length done + length values) <= difference_max ->
    construct_values values (Z.of_nat (length done))
      (Machine v
         (h ++ [Some ((Some <$> done) ++ replicate (length values) None)])
         None trc)
    = Ok tt
        (Machine v (h ++ [Some (Some <$> (done ++ values))]) None
           (trc ++ construct_events (S (length h)) (Z.of_nat (length done))
                     (Z.of_nat (length values)))).
Proof.
  pose proof difference_max_lt_modulus as Hmax.
  induction values as [|a values IH]; intros done v h trc Hd Hlen.
  - cbn [construct_values length replicate]. unfold ret, construct_events.
    rewrite seqZ_nil by lia. cbn [fmap list_fmap]. rewrite !app_nil_r.
    reflexivity.
  - cbn [construct_values]. rewrite bind_get. cbv beta. cbn [self]. rewrite Hd.
    rewrite ptr_add_base by (cbn [length] in Hlen; lia).
    unfold construct_copy, bind at 1 2 3, may_throw, store.
    cbn [throw_after mem].
    rewrite write_slot_new
      by (rewrite length_app, length_fmap, length_replicate; cbn [length]; lia).
    unfold set_mem, log. cbn [self mem throw_after trace].
    rewrite Nat2Z.id.
    rewrite insert_app_r_alt by (rewrite length_fmap; lia).
    rewrite length_fmap, Nat.sub_diag. cbn [length replicate].
    change (<[0%nat := Some a]> (None :: replicate (length values) None))
      with (Some a :: replicate (length values) (@None T)).
    replace ((Some <$> done) ++ Some a :: replicate (length values) None)
      with ((Some <$> (done ++ [a])) ++ replicate (length values) (@None T))
      by (rewrite fmap_app, <- app_assoc; reflexivity).
    replace (Z.of_nat (length done) + 1) with (Z.of_nat (length (done ++ [a])))
      by (rewrite length_app; cbn [length]; lia).
    rewrite (IH (done ++ [a]) v h _ Hd)
      by (rewrite length_app; cbn [length] in *; lia).
    rewrite <- app_assoc. cbn [app].
    unfold construct_events.
    rewrite (seqZ_cons (Z.of_nat (length done)) (Z.of_nat (S (length values))))
      by lia.
    rewrite fmap_cons, <- app_assoc. cbn [app].
    replace (Z.pred (Z.of_nat (S (length values))))
      with (Z.of_nat (length values)) by lia.
    replace (Z.succ (Z.of_nat (length done)))
      with (Z.of_nat (length (done ++ [a])))
      by (rewrite length_app; cbn [length]; lia).
    reflexivity.
Qed.

(** Construction from an initializer list, when no copy throws. *)
Lemma vector_init_list_run (values : list T) m :
  throw_after m = None ->
  Z.of_nat (length values) <= difference_max ->
  vector_init_list values m
  = Ok tt
      (Machine (Vector (Ptr (S (length (mem m))) 0)
                       (Z.of_nat (length values)) (Z.of_nat (length values)))
               (mem m ++ [Some (Some <$> values)]) None
               (trace m ++ [EvAllocate (S (length (mem m)))
                                       (Z.of_nat (length values))]
                        ++ construct_events (S (length (mem m))) 0
                                            (Z.of_nat (length values)))).
Proof.
  intros Hta Hlen. destruct m as [v h ta trc].
  cbn [self mem throw_after trace] in *. subst ta.
  unfold vector_init_list, allocate, construct_init_list.
  unfold set_capacity, set_data, set_size, bind, get, set_self, allocator_allocate.
  cbn [self mem throw_after trace data_ size_ capacity_].
  destruct (difference_max <? Z.of_nat (length values)) eqn:E;
    [apply Z.ltb_lt in E; lia|].
  cbn [self mem throw_after trace data_ size_ capacity_].
  rewrite Nat2Z.id.
  pose proof (construct_values_new values [] 
                (Vector (Ptr (S (length h)) 0) (Z.of_nat (length values))
                        (Z.of_nat (length values)))
                h (trc ++ [EvAllocate (S (length h)) (Z.of_nat (length values))])
                eq_refl) as H.
  cbn [length fmap list_fmap app Nat.add] in H.
  change (Z.of_nat 0) with 0 in H.
  rewrite H by lia. rewrite <- app_assoc. reflexivity.
Qed.

(** [push_back] when [size() + 1 < capacity()] and nothing throws: the
    value is constructed in the slot after the last element. *)
Lemma push_back_fast (x : T) (s c : Z) h (b : nat) bl trc :
  block_at h (S b) = Some bl ->
  Z.of_nat (length bl) = c ->
  0 <= s -> s + 1 < c -> c <= difference_max ->
  push_back tr x (Machine (Vector (Ptr (S b) 0) s c) h None trc)
  = Ok tt (Machine (Vector (Ptr (S b) 0) (s + 1) c)
                   (<[b := Some (<[Z.to_nat s := Some x]> bl)]> h) None
                   (trc ++ [EvConstruct (Ptr (S b) s)])).
Proof.
  pose proof difference_max_lt_modulus as Hmax.
  intros Hb Hlen Hs Hg Hc.
  unfold push_back, emplace_back, emplace, end_, begin, size, capacity,
    construct_forward, construct_move, set_size.
  unfold bind, get, ret, may_throw, on_exception, set_self, store, log, set_mem.
  destruct (is_nothrow_move_constructible tr);
    repeat first
      [ progress cbn [self mem throw_after trace data_ size_ capacity_]
      | rewrite ptr_add_base by lia
      | rewrite ptr_eqb_refl
      | rewrite guard_below by lia
      | rewrite (write_slot_own h b bl s (Some x) Hb) by lia
      | rewrite (wrap_small (s + 1)) by lia
      | progress cbv beta iota ];
    reflexivity.
Qed.

(** A run of [push_back] calls that stays below the capacity, when
    nothing throws: every call returns, the buffer and the capacity stay,
    and the values are stored in order after the elements already there. *)
Lemma push_back_all_below (values : list T) :
  forall (s c : Z) h (b : nat) bl trc,
    block_at h (S b) = Some bl ->
    Z.of_nat (length bl) = c ->
    0 <= s -> s + Z.of_nat (length values) < c -> c <= difference_max ->
    exists h' bl' trc',
      push_back_all tr values (Machine (Vector (Ptr (S b) 0) s c) h None trc)
      = Ok tt (Machine (Vector (Ptr (S b) 0) (s + Z.of_nat (length values)) c)
                       h' None trc')
      /\ block_at h' (S b) = Some bl'
      /\ shape h' = shape h
      /\ (forall i : nat, (i < length values)%nat ->
            bl' !! (Z.to_nat s + i)%nat = Some (values !! i))
      /\ (forall i : nat, (i < Z.to_nat s)%nat -> bl' !! i = bl !! i).
Proof.
  induction values as [|a values IH]; intros s c h b bl trc Hb Hlen Hs Hg Hc.
  - exists h, bl, trc. cbn [push_back_all length]. unfold ret.
    replace (s + Z.of_nat 0) with s by lia.
    split; [reflexivity|]. split; [exact Hb|]. split; [reflexivity|].
    split; [intros i Hi; cbn in Hi; lia | reflexivity].
  - cbn [length] in Hg. cbn [push_back_all].
    pose proof (push_back_fast a s c h b bl trc Hb Hlen Hs) as H1.
    destruct (IH (s + 1) c (<[b := Some (<[Z.to_nat s := Some a]> bl)]> h) b
                (<[Z.to_nat s := Some a]> bl)
                (trc ++ [EvConstruct (Ptr (S b) s)]))
      as (h' & bl' & trc' & Hrun & Hb' & Hsh & Hnew & Hold);
      [apply (block_at_insert _ _ _ _ Hb) | rewrite length_insert; exact Hlen
      | lia | lia | exact Hc |].
    exists h', bl', trc'.
    split.
    { rewrite (bind_ok _ _ _ _ _ (H1 ltac:(lia) Hc)). rewrite Hrun.
      cbn [length]. do 3 f_equal. lia. }
    split; [exact Hb'|].
    split.
    { rewrite Hsh. apply (shape_insert_block _ _ _ _ Hb). apply length_insert. }
    split.
    + intros [|i] Hi; cbn [length] in Hi.
      * rewrite Nat.add_0_r, Hold by lia.
        cbn. apply list_lookup_insert_eq. lia.
      * replace (Z.to_nat s + S i)%nat with (Z.to_nat (s + 1) + i)%nat by lia.
        rewrite Hnew by lia. reflexivity.
    + intros i Hi. rewrite Hold by lia. apply list_lookup_insert_ne. lia.
Qed.

Lemma vector_init_list_wf (values : list T) m :
  Z.of_nat (length values) <= difference_max ->
  wf (Machine (Vector (Ptr (S (length (mem m))) 0)
                      (Z.of_nat (length values)) (Z.of_nat (length values)))
              (mem m ++ [Some (Some <$> values)]) None
              (trace m ++ [EvAllocate (S (length (mem m)))
                                      (Z.of_nat (length values))]
                       ++ construct_events (S (length (mem m))) 0
                                           (Z.of_nat (length values)))).
Proof.
  intros Hlen. unfold wf. cbn [self mem data_ size_ capacity_].
  split; [lia|]. split; [exact Hlen|]. right.
  exists (length (mem m)), (Some <$> values).
  split; [reflexivity|]. split; [apply block_at_new|].
  rewrite length_fmap. reflexivity.
Qed.

(** [clear()] on a vector that owns its buffer returns, sets the size
    to 0, destroys each of the elements it held, and leaves the
    capacity, the address of the buffer and the blocks of the free store
    as they were. After construction from an initializer list of at
    least two elements and [clear()], a [push_back] returns with the
    same buffer and capacity, no block allocated or released, and the
    value as the only element. *)
Theorem clear_keeps_buffer_then_push_back :
  (forall m,
     wf m ->
     exists m',
       clear m = Ok tt m'
       /\ size_ (self m') = 0
       /\ capacity_ (self m') = capacity_ (self m)
       /\ data_ (self m') = data_ (self m)
       /\ shape (mem m') = shape (mem m)
       /\ (forall i, 0 <= i < size_ (self m) ->
             read_slot (mem m') (ptr_add (data_ (self m)) i) = Some None)
       /\ trace m' = trace m
                     ++ destroy_events (blk (data_ (self m))) 0 (size_ (self m)))
  /\ (forall m0 (values : list T) (x : T),
        throw_after m0 = None ->
        2 <= Z.of_nat (length values) <= difference_max ->
        exists m1 m2 m3,
          vector_init_list values m0 = Ok tt m1
          /\ clear m1 = Ok tt m2
          /\ push_back tr x m2 = Ok tt m3
          /\ capacity_ (self m1) = Z.of_nat (length values)
          /\ capacity_ (self m3) = capacity_ (self m1)
          /\ data_ (self m3) = data_ (self m1)
          /\ shape (mem m3) = shape (mem m1)
          /\ size_ (self m3) = 1
          /\ read_slot (mem m3) (data_ (self m3)) = Some (Some x)).
Proof.
  split.
  - intros m Hwf.
    destruct (clear_run m Hwf) as (m' & Hrun & Hself & Hsh & Hel & _ & Htr & _).
    exists m'. rewrite Hself. cbn [data_ size_ capacity_]. auto 10.
  - intros m0 values x Hta Hlen.
    pose proof (vector_init_list_run values m0 Hta (proj2 Hlen)) as H1.
    pose proof (vector_init_list_wf values m0 (proj2 Hlen)) as Hwf1.
    set (m1 := Machine _ _ _ _) in H1, Hwf1.
    destruct (clear_run m1 Hwf1)
      as (m2 & H2 & Hself2 & Hsh2 & _ & Hta2 & _ & Hwf2).
    destruct m2 as [v2 h2 ta2 trc2].
    cbn [self mem throw_after trace] in Hself2, Hsh2, Hta2.
    subst v2 ta2. cbn [m1 self throw_after data_ capacity_] in *.
    destruct Hwf2 as (_ & _ & Hbuf). cbn [self mem data_ size_ capacity_] in Hbuf.
    destruct Hbuf as [[Hnull _] | (b & bl & Hd & Hb & Hbl)]; [discriminate|].
    injection Hd as Hd. subst b.
    pose proof (push_back_fast x 0 (Z.of_nat (length values)) h2
                  (length (mem m0)) bl trc2 Hb Hbl) as H3.
    exists m1, (Machine (Vector (Ptr (S (length (mem m0))) 0) 0
                                (Z.of_nat (length values))) h2 None trc2).
    eexists. split; [exact H1|]. split; [exact H2|].
    split; [apply H3; lia|].
    cbn [m1 self mem data_ size_ capacity_].
    split; [reflexivity|]. split; [reflexivity|]. split; [reflexivity|].
    split.
    { rewrite (shape_insert_block _ _ _ _ Hb) by apply length_insert.
      exact Hsh2. }
    split; [reflexivity|].
    erewrite read_slot_own;
      [| apply (block_at_insert _ _ _ _ Hb) | rewrite length_insert; lia].
    apply list_lookup_insert_eq. cbn. lia.
Qed.

End Clear.

(** ** The growth loops *)

Section Growth.

Context {T : Type}.
Implicit Types (m : @machine T).

(** The do-while loop, for a test that compares the capacity with a
    bound [need] fixed by the size: it returns, the capacity at least
    doubles and reaches [need], and nothing else changes. *)
Lemma grow_reaches (again : vector -> bool) (need : Z) (fuel : nat) :
  forall (d : ptr) (s c : Z) (h : heap T) ta trc,
    (forall c', again (Vector d s c') = (c' <? need)) ->
    0 <= c <= 2 ^ 62 -> need <= 2 ^ 62 ->
    (1 <= fuel)%nat -> need <= 2 ^ Z.of_nat fuel * Z.max c 1 ->
    exists c',
      grow again fuel (Machine (Vector d s c) h ta trc)
      = Ok tt (Machine (Vector d s c') h ta trc)
      /\ 2 * c <= c' /\ 1 <= c' /\ need <= c'.
Proof.
  induction fuel as [|fuel IH]; intros d s c h ta trc Hag Hc Hneed Hf Hpow;
    [lia|].
  cbn [grow]. unfold bind, get, set_capacity, set_self, ret, realloc_factor.
  cbn [self mem throw_after trace data_ size_ capacity_].
  assert (H62 : 2 ^ 62 = 4611686018427387904) by reflexivity.
  assert (Hmod : modulus = 18446744073709551616) by reflexivity.
  assert (Hstep : forall c0, 1 <= c0 <= 2 ^ 62 ->
            exists c',
              (if again (Vector d s (wrap (c0 * 2)))
               then grow again fuel
               else fun m => Ok tt m)
                (Machine (Vector d s (wrap (c0 * 2))) h ta trc)
              = Ok tt (Machine (Vector d s c') h ta trc)
              /\ 2 * c0 <= c' /\ need <= c'
              \/ need > 2 ^ Z.of_nat (S fuel) * c0).
  { intros c0 Hc0. rewrite wrap_small by lia. rewrite Hag.
    destruct (c0 * 2 <? need) eqn:E.
    - apply Z.ltb_lt in E.
      destruct (decide (need <= 2 ^ Z.of_nat (S fuel) * c0)) as [Hok|Hno];
        [|exists 0; right; lia].
      rewrite Nat2Z.inj_succ, Z.pow_succ_r in Hok by lia.
      destruct fuel as [|fuel']; [cbn in Hok; lia|].
      destruct (IH d s (c0 * 2) h ta trc Hag) as (c' & Hrun & H2 & H1 & Hn);
        [lia | lia | lia | rewrite Z.max_l by lia; lia |].
      exists c'. left. split; [exact Hrun | lia].
    - apply Z.ltb_ge in E. exists (c0 * 2). left.
      split; [reflexivity | lia]. }
  destruct (c =? 0) eqn:E0.
  - apply Z.eqb_eq in E0. subst c.
    cbn [self mem throw_after trace data_ size_ capacity_].
    destruct (Hstep 1 ltac:(lia)) as (c' & [(Hrun & H2 & Hn) | Hbad]).
    + exists c'. split; [exact Hrun | lia].
    + rewrite Z.max_r in Hpow by lia. lia.
  - apply Z.eqb_neq in E0.
    cbn [self mem throw_after trace data_ size_ capacity_].
    destruct (Hstep c ltac:(lia)) as (c' & [(Hrun & H2 & Hn) | Hbad]).
    + exists c'. split; [exact Hrun | lia].
    + rewrite Z.max_l in Hpow by lia. lia.
Qed.

(** The loop of [emplace], entered because [size() + 1 < capacity()]
    does not hold: the new capacity is at least twice the old one, at
    least 1, and at least [size() + 1]. *)
Lemma emplace_growth (d : ptr) (s c : Z) (h : heap T) ta trc :
  0 <= s -> 0 <= c <= s + 1 -> s + 1 <= 2 ^ 62 ->
  exists c',
    grow (fun v => capacity_ v <? wrap (1 + size_ v)) grow_fuel
      (Machine (Vector d s c) h ta trc)
    = Ok tt (Machine (Vector d s c') h ta trc)
    /\ 2 * c <= c' /\ 1 <= c' /\ s + 1 <= c'.
Proof.
  intros Hs Hc Hb.
  assert (H62 : 2 ^ 62 = 4611686018427387904) by reflexivity.
  assert (Hmod : modulus = 18446744073709551616) by reflexivity.
  apply (grow_reaches _ (s + 1)); try lia.
  - intros c'. cbn [capacity_ size_]. rewrite wrap_small by lia.
    replace (1 + s) with (s + 1) by lia. reflexivity.
  - unfold grow_fuel. lia.
  - assert (2 ^ 62 <= 2 ^ Z.of_nat grow_fuel) by (vm_compute; discriminate).
    nia.
Qed.

(** The loop of [insert(pos, init_list)], for [n] values. *)
Lemma insert_init_list_growth (d : ptr) (s c n : Z) (h : heap T) ta trc :
  0 <= s -> 0 <= n -> 0 <= c <= s + n -> s + n <= 2 ^ 62 ->
  exists c',
    grow (fun v => capacity_ v <? wrap (n + size_ v)) grow_fuel
      (Machine (Vector d s c) h ta trc)
    = Ok tt (Machine (Vector d s c') h ta trc)
    /\ 2 * c <= c' /\ 1 <= c' /\ s + n <= c'.
Proof.
  intros Hs Hn Hc Hb.
  assert (H62 : 2 ^ 62 = 4611686018427387904) by reflexivity.
  assert (Hmod : modulus = 18446744073709551616) by reflexivity.
  apply (grow_reaches _ (s + n)); try lia.
  - intros c'. cbn [capacity_ size_]. rewrite wrap_small by lia.
    replace (n + s) with (s + n) by lia. reflexivity.
  - unfold grow_fuel. lia.
  - assert (2 ^ 62 <= 2 ^ Z.of_nat grow_fuel) by (vm_compute; discriminate).
    nia.
Qed.

(** The loop of [insert(pos, count, value)] compares with the size
    alone: what it reaches is the size, whatever [count] is. *)
Lemma insert_count_growth (d : ptr) (s c : Z) (h : heap T) ta trc :
  0 <= s <= 2 ^ 62 -> 0 <= c <= 2 ^ 62 ->
  exists c',
    grow (fun v => capacity_ v <? size_ v) grow_fuel
      (Machine (Vector d s c) h ta trc)
    = Ok tt (Machine (Vector d s c') h ta trc)
    /\ 2 * c <= c' /\ 1 <= c' /\ s <= c'.
Proof.
  intros Hs Hc.
  apply (grow_reaches _ s); try lia.
  - intros c'. reflexivity.
  - unfold grow_fuel. lia.
  - assert (2 ^ 62 <= 2 ^ Z.of_nat grow_fuel) by (vm_compute; discriminate).
    nia.
Qed.

End Growth.

(** ** operator== and operator< *)

Section Comparison.

Context {T : Type}.
Variable T_eqb : T -> T -> bool.
Variable T_ltb : T -> T -> bool.
Implicit Types (m : @machine T) (h : heap T) (p q : ptr) (la lb : list T).

Lemma wrap_wrap_add (a b : Z) : wrap (wrap a + b) = wrap (a + b).
Proof. unfold wrap, modulus. apply Zplus_mod_idemp_l. Qed.

Lemma ptr_add_add p (a b : Z) : ptr_add (ptr_add p a) b = ptr_add p (a + b).
Proof.
  unfold ptr_add. cbn [blk off]. rewrite wrap_wrap_add, Z.add_assoc.
  reflexivity.
Qed.

Lemma ptr_add_zero p : 0 <= off p < modulus -> ptr_add p 0 = p.
Proof.
  intros H. destruct p as [b o]. unfold ptr_add. cbn [blk off] in *.
  rewrite Z.add_0_r, wrap_small by lia. reflexivity.
Qed.

Lemma ptr_add_off p (k : Z) : 0 <= off (ptr_add p k) < modulus.
Proof.
  unfold ptr_add, wrap, modulus. cbn [off]. apply Z.mod_pos_bound. reflexivity.
Qed.

Lemma ptr_eqb_add p (k : Z) :
  0 <= off p < modulus -> 0 <= k < modulus ->
  ptr_eqb p (ptr_add p k) = (k =? 0).
Proof.
  intros Hp Hk. unfold ptr_eqb, ptr_add, wrap. cbn [blk off].
  rewrite Nat.eqb_refl. cbn [andb].
  assert (Hmod : modulus = 18446744073709551616) by reflexivity.
  destruct (k =? 0) eqn:E.
  - apply Z.eqb_eq in E. subst k. rewrite Z.add_0_r, Z.mod_small by lia.
    apply Z.eqb_refl.
  - apply Z.eqb_neq in E. apply Z.eqb_neq. intros Heq.
    pose proof (Z.div_mod (off p + k) modulus ltac:(lia)) as Hdm.
    pose proof (Z.mod_pos_bound (off p + k) modulus ltac:(lia)) as Hb.
    rewrite <- Heq in Hdm. nia.
Qed.

Lemma holds_head h p (a : T) la :
  0 <= off p < modulus -> holds h p (a :: la) -> read_slot h p = Some (Some a).
Proof.
  intros Hp H. specialize (H 0%nat ltac:(cbn; lia)).
  cbn in H. rewrite ptr_add_zero in H by exact Hp. exact H.
Qed.

Lemma holds_tail h p (a : T) la :
  holds h p (a :: la) -> holds h (ptr_add p 1) la.
Proof.
  intros H i Hi. specialize (H (S i) ltac:(cbn; lia)).
  rewrite ptr_add_add. replace (1 + Z.of_nat i) with (Z.of_nat (S i)) by lia.
  exact H.
Qed.

Lemma load_value_holds m p (a : T) la :
  0 <= off p < modulus -> holds (mem m) p (a :: la) ->
  load_value p m = Ok a m.
Proof.
  intros Hp H. unfold load_value, bind, load.
  rewrite (holds_head _ _ _ _ Hp H). reflexivity.
Qed.

Lemma equal_loop_spec la : forall lb p q m,
  length la = length lb ->
  0 <= off p < modulus -> 0 <= off q < modulus ->
  holds (mem m) p la -> holds (mem m) q lb ->
  equal_loop T_eqb (length la) p q m = Ok (list_equal T_eqb la lb) m.
Proof.
  induction la as [|a la IH]; intros [|b lb] p q m Hlen Hp Hq Ha Hb;
    try discriminate; cbn [length equal_loop list_equal].
  - reflexivity.
  - rewrite (bind_ok _ _ _ _ _ (load_value_holds m p a la Hp Ha)).
    rewrite (bind_ok _ _ _ _ _ (load_value_holds m q b lb Hq Hb)).
    destruct (T_eqb a b); [|reflexivity]. cbn [andb].
    apply IH; [cbn in Hlen; lia | apply ptr_add_off | apply ptr_add_off
              | apply (holds_tail _ _ _ _ Ha) | apply (holds_tail _ _ _ _ Hb)].
Qed.

(** [a == b] returns, and what it returns is the equality of the two
    element sequences. *)
Lemma operator_eq_spec (a b : vector) la lb m :
  size_ a = Z.of_nat (length la) -> size_ b = Z.of_nat (length lb) ->
  size_ a < modulus -> size_ b < modulus ->
  0 <= off (data_ a) < modulus -> 0 <= off (data_ b) < modulus ->
  holds (mem m) (data_ a) la -> holds (mem m) (data_ b) lb ->
  operator_eq T_eqb a b m = Ok (list_equal T_eqb la lb) m.
Proof.
  intros Hsa Hsb Hma Hmb Hpa Hpb Ha Hb. unfold operator_eq, std_equal.
  assert (Hd : forall p (n : Z), 0 <= n < modulus ->
             distance p (ptr_add p n) = n).
  { intros p n Hn. unfold distance, ptr_add. cbn [off].
    unfold wrap. rewrite Zminus_mod_idemp_l.
    replace (off p + n - off p) with n by lia. apply Z.mod_small. exact Hn. }
  rewrite !Hd by lia.
  destruct (size_ a =? size_ b) eqn:E.
  - apply Z.eqb_eq in E. rewrite Hsa, Nat2Z.id.
    apply (equal_loop_spec la lb); try assumption. lia.
  - apply Z.eqb_neq in E. unfold ret. f_equal.
    assert (Hne : length la <> length lb) by lia.
    clear - Hne. revert lb Hne.
    induction la as [|x la IH]; intros [|y lb] Hne;
      cbn [list_equal length] in *; try reflexivity; try lia.
    rewrite <- (IH lb) by lia. symmetry. apply andb_false_r.
Qed.

Lemma list_equal_true la : forall lb,
  (forall x y, T_eqb x y = true <-> x = y) ->
  list_equal T_eqb la lb = true <-> la = lb.
Proof.
  induction la as [|a la IH]; intros [|b lb] Heq; cbn [list_equal].
  - split; reflexivity.
  - split; discriminate.
  - split; discriminate.
  - rewrite andb_true_iff. rewrite (Heq a b). rewrite (IH lb Heq).
    split; [intros [-> ->]; reflexivity | intros [= -> ->]; auto].
Qed.

Lemma lexicographical_compare_loop_spec la : forall lb p q m,
  0 <= off p < modulus -> 0 <= off q < modulus ->
  Z.of_nat (length la) < modulus -> Z.of_nat (length lb) < modulus ->
  holds (mem m) p la -> holds (mem m) q lb ->
  lexicographical_compare_loop T_ltb (S (length la))
    p (ptr_add p (Z.of_nat (length la)))
    q (ptr_add q (Z.of_nat (length lb))) m
  = Ok (lex_less T_ltb la lb) m.
Proof.
  induction la as [|a la IH]; intros lb p q m Hp Hq Hla Hlb Ha Hb;
    cbn [lexicographical_compare_loop].
  - rewrite (ptr_eqb_add p) by (cbn [length]; lia).
    rewrite (ptr_eqb_add q) by lia.
    destruct lb as [|b lb]; reflexivity.
  - rewrite (ptr_eqb_add p) by lia. rewrite (ptr_eqb_add q) by lia.
    destruct lb as [|b lb]; [reflexivity|].
    cbn [length] in *.
    replace (Z.of_nat (S (length la)) =? 0) with false
      by (symmetry; apply Z.eqb_neq; lia).
    replace (Z.of_nat (S (length lb)) =? 0) with false
      by (symmetry; apply Z.eqb_neq; lia).
    cbn [negb andb].
    rewrite (bind_ok _ _ _ _ _ (load_value_holds m p a la Hp Ha)).
    rewrite (bind_ok _ _ _ _ _ (load_value_holds m q b lb Hq Hb)).
    cbn [lex_less].
    destruct (T_ltb a b); [reflexivity|].
    destruct (T_ltb b a); [reflexivity|].
    replace (Z.of_nat (S (length la))) with (1 + Z.of_nat (length la)) by lia.
    replace (Z.of_nat (S (length lb))) with (1 + Z.of_nat (length lb)) by lia.
    rewrite <- !ptr_add_add.
    apply IH; [apply ptr_add_off | apply ptr_add_off | lia | lia
              | apply (holds_tail _ _ _ _ Ha) | apply (holds_tail _ _ _ _ Hb)].
Qed.

(** [a < b] returns, and what it returns is the lexicographic comparison
    of the two element sequences. *)
Lemma operator_lt_spec (a b : vector) la lb m :
  size_ a = Z.of_nat (length la) -> size_ b = Z.of_nat (length lb) ->
  size_ a < modulus -> size_ b < modulus ->
  0 <= off (data_ a) < modulus -> 0 <= off (data_ b) < modulus ->
  holds (mem m) (data_ a) la -> holds (mem m) (data_ b) lb ->
  operator_lt T_ltb a b m = Ok (lex_less T_ltb la lb) m.
Proof.
  intros Hsa Hsb Hma Hmb Hpa Hpb Ha Hb.
  unfold operator_lt, std_lexicographical_compare.
  assert (Hd : distance (data_ a) (ptr_add (data_ a) (size_ a)) = size_ a).
  { unfold distance, ptr_add. cbn [off]. unfold wrap.
    rewrite Zminus_mod_idemp_l.
    replace (off (data_ a) + size_ a - off (data_ a)) with (size_ a) by lia.
    apply Z.mod_small. lia. }
  rewrite Hd, Hsa, Hsb, Nat2Z.id.
  apply lexicographical_compare_loop_spec; try assumption; lia.
Qed.

End Comparison.

(** ** Concrete runs *)

(** The rollback inside [reallocate_strong_guarantee] at [4; 8; 1],
    reallocation to 10 slots, the second copy throws. *)
Lemma reallocate_copy_failure_witness :
  wf three_elements
  /\ exists m',
       reallocate_strong_guarantee copy_only 10 three_elements
       = Throw element_exception m'
       /\ self m' = self three_elements
       /\ (forall p, read_slot (mem m') p = read_slot (mem three_elements) p)
       /\ block_at (mem m') 2 = None
       /\ trace m' =
            [EvAllocate 2 10; EvConstruct (Ptr 2 0); EvDestroy (Ptr 2 0);
             EvDeallocate 2 10].
Proof.
  assert (Hwf : wf three_elements).
  { unfold wf. cbn. split; [lia|]. split; [vm_compute; discriminate|].
    right. exists 0%nat, [Some 4; Some 8; Some 1]. auto. }
  split; [exact Hwf|].
  apply (reallocate_copy_failure_strong_guarantee copy_only three_elements 10 1).
  - reflexivity.
  - reflexivity.
  - exact Hwf.
  - cbn. split; [lia | vm_compute; discriminate].
  - reflexivity.
  - cbn. lia.
Defined.

(** The scenario of one hundred [push_back] calls after [reserve(100)]:
    ninety-nine of them stay in the reserved buffer; the hundredth takes
    the reallocating branch of [emplace] and has undefined behaviour. *)
Remark reserve_hundred_push_back_hundred :
  exists m1 m2 : @machine Z,
    reserve nothrow_movable 100 (boot None) = Ok tt m1
    /\ push_back_all nothrow_movable (replicate 99 0) m1 = Ok tt m2
    /\ size_ (self m2) = 99
    /\ capacity_ (self m2) = 100
    /\ data_ (self m2) = data_ (self m1)
    /\ push_back nothrow_movable 0 m2 = Fault.
Proof.
  do 2 eexists.
  split; [vm_compute; reflexivity|].
  split; [vm_compute; reflexivity|].
  cbn. repeat split; try reflexivity.
Qed.

(** [clear()] and one [push_back] at the initializer list
    [4; 8; 1; 5; 0; 3]. *)
Lemma clear_then_push_back_witness :
  exists m1 m2 m3 : @machine Z,
    vector_init_list [4; 8; 1; 5; 0; 3] (boot None) = Ok tt m1
    /\ clear m1 = Ok tt m2
    /\ push_back nothrow_movable 42 m2 = Ok tt m3
    /\ capacity_ (self m1) = 6
    /\ capacity_ (self m3) = capacity_ (self m1)
    /\ data_ (self m3) = data_ (self m1)
    /\ shape (mem m3) = shape (mem m1)
    /\ size_ (self m3) = 1
    /\ read_slot (mem m3) (data_ (self m3)) = Some (Some 42).
Proof.
  apply (proj2 (clear_keeps_buffer_then_push_back nothrow_movable)
           (boot None) [4; 8; 1; 5; 0; 3] 42).
  - reflexivity.
  - cbn. split; [lia | vm_compute; discriminate].
Defined.

(** * Properties of the remaining member functions *)

(** ** Blocks, slots and straight-line code *)

Section Blocks.

Context {T : Type}.
Implicit Types (m : @machine T) (h : heap T) (bl : list (slot T)).

Lemma length_write_list (xs : list (slot T)) : forall bl (k : nat),
  length (write_list bl k xs) = length bl.
Proof.
  induction xs as [|x xs IH]; intros bl k; cbn [write_list]; [reflexivity|].
  rewrite IH. apply length_insert.
Qed.

(** [write_list] in closed form. *)
Lemma write_list_explicit (xs : list (slot T)) : forall bl (k : nat),
  (k + length xs <= length bl)%nat ->
  write_list bl k xs = take k bl ++ xs ++ drop (k + length xs) bl.
Proof.
  induction xs as [|x xs IH]; intros bl k Hk; cbn [write_list length] in *.
  - rewrite Nat.add_0_r. cbn [app]. symmetry. apply take_drop.
  - rewrite IH by (rewrite length_insert; lia).
    rewrite (take_S_r _ k x) by (apply list_lookup_insert_eq; lia).
    rewrite take_insert_ge by lia.
    rewrite drop_insert_lt by lia.
    rewrite <- app_assoc. cbn [app].
    replace (S k + length xs)%nat with (k + S (length xs))%nat by lia.
    reflexivity.
Qed.

Lemma values_of_fmap (l : list T) : values_of (Some <$> l) = Some l.
Proof.
  induction l as [|a l IH]; cbn; [reflexivity|].
  change (values_of (Some <$> l)) with (values_of (Some <$> l)).
  fold (@fmap list _ _ _ (@Some T) l). rewrite IH. reflexivity.
Qed.

Lemma values_of_Some (sl : list (slot T)) : forall l,
  values_of sl = Some l -> sl = Some <$> l.
Proof.
  induction sl as [|[a|] sl IH]; intros l H; cbn [values_of] in H.
  - injection H as <-. reflexivity.
  - destruct (values_of sl) as [l'|]; [|discriminate].
    injection H as <-. rewrite (IH l' eq_refl). reflexivity.
  - discriminate.
Qed.

Lemma bind_bind {A B C} (c : @M T A) (k1 : A -> M B) (k2 : B -> M C) m :
  bind (bind c k1) k2 m = bind c (fun a => bind (k1 a) k2) m.
Proof. unfold bind. destruct (c m); reflexivity. Qed.

Lemma bind_ret {A B} (a : A) (k : A -> @M T B) m : bind (ret a) k m = k a m.
Proof. reflexivity. Qed.

Lemma bind_set_self {B} (v : vector) (k : unit -> @M T B) m :
  bind (set_self v) k m = k tt (Machine v (mem m) (throw_after m) (trace m)).
Proof. reflexivity. Qed.

Lemma bind_set_size {B} (n : Z) (k : unit -> @M T B) m :
  bind (set_size n) k m
  = k tt (Machine (Vector (data_ (self m)) n (capacity_ (self m)))
                  (mem m) (throw_after m) (trace m)).
Proof. reflexivity. Qed.

Lemma bind_set_capacity {B} (n : Z) (k : unit -> @M T B) m :
  bind (set_capacity n) k m
  = k tt (Machine (Vector (data_ (self m)) (size_ (self m)) n)
                  (mem m) (throw_after m) (trace m)).
Proof. reflexivity. Qed.

Lemma bind_set_data {B} (p : ptr) (k : unit -> @M T B) m :
  bind (set_data p) k m
  = k tt (Machine (Vector p (size_ (self m)) (capacity_ (self m)))
                  (mem m) (throw_after m) (trace m)).
Proof. reflexivity. Qed.

Lemma bind_log {B} (e : event) (k : unit -> @M T B) m :
  bind (log e) k m
  = k tt (Machine (self m) (mem m) (throw_after m) (trace m ++ [e])).
Proof. reflexivity. Qed.

Lemma bind_may_throw_none {B} (k : unit -> @M T B) m :
  throw_after m = None -> bind may_throw k m = k tt m.
Proof. intros H. unfold bind, may_throw. rewrite H. reflexivity. Qed.

Lemma bind_may_throw_some {B} (K : unit -> @M T B) v h (k : nat) trc :
  bind may_throw K (Machine v h (Some (S k)) trc)
  = K tt (Machine v h (Some k) trc).
Proof. reflexivity. Qed.

Lemma bind_load {B} (p : ptr) (x : slot T) (k : slot T -> @M T B) m :
  read_slot (mem m) p = Some x -> bind (load p) k m = k x m.
Proof. intros H. unfold bind, load. rewrite H. reflexivity. Qed.

Lemma bind_store {B} (p : ptr) (x : slot T) h (k : unit -> @M T B) m :
  write_slot (mem m) p x = Some h ->
  bind (store p x) k m
  = k tt (Machine (self m) h (throw_after m) (trace m)).
Proof. intros H. unfold bind, store. rewrite H. reflexivity. Qed.

Lemma bind_load_at {B} (p : ptr) (x : slot T) (k : slot T -> @M T B)
  v h ta trc :
  read_slot h p = Some x ->
  bind (load p) k (Machine v h ta trc) = k x (Machine v h ta trc).
Proof. intros H. unfold bind, load. cbn [mem]. rewrite H. reflexivity. Qed.

Lemma bind_store_at {B} (p : ptr) (x : slot T) h' (k : unit -> @M T B)
  v h ta trc :
  write_slot h p x = Some h' ->
  bind (store p x) k (Machine v h ta trc) = k tt (Machine v h' ta trc).
Proof. intros H. unfold bind, store. cbn [mem]. rewrite H. reflexivity. Qed.

(** A block that is in the store is the store's entry. *)
Lemma insert_block_id h (b : nat) bl :
  block_at h (S b) = Some bl -> <[b := Some bl]> h = h.
Proof. intros H. apply list_insert_id. apply block_at_lookup. exact H. Qed.

Lemma block_at_lt h (b : nat) bl : block_at h (S b) = Some bl -> (b < length h)%nat.
Proof. intros H. apply block_at_lookup in H. eapply lookup_lt_Some. exact H. Qed.

Lemma block_at_insert_eq h (b : nat) bl :
  (b < length h)%nat -> block_at (<[b := Some bl]> h) (S b) = Some bl.
Proof. intros H. cbn [block_at]. rewrite list_lookup_insert_eq by exact H. reflexivity. Qed.

Lemma block_at_insert_ne h (b b' : nat) (ob : option (list (slot T))) :
  b <> b' -> block_at (<[b := ob]> h) (S b') = block_at h (S b').
Proof. intros H. cbn [block_at]. rewrite list_lookup_insert_ne by exact H. reflexivity. Qed.

Lemma read_slot_block h (b : nat) bl (i : Z) :
  block_at h (S b) = Some bl -> 0 <= i < Z.of_nat (length bl) ->
  read_slot h (Ptr (S b) i) = bl !! Z.to_nat i.
Proof.
  intros Hb Hi. unfold read_slot. cbn [blk off]. rewrite Hb.
  rewrite in_block_true by lia. reflexivity.
Qed.

Lemma read_slot_out h (b : nat) bl (i : Z) :
  block_at h (S b) = Some bl -> Z.of_nat (length bl) <= i ->
  read_slot h (Ptr (S b) i) = None.
Proof.
  intros Hb Hi. unfold read_slot, in_block. cbn [blk off]. rewrite Hb.
  replace (i <? Z.of_nat (length bl)) with false
    by (symmetry; apply Z.ltb_ge; lia).
  rewrite andb_false_r. reflexivity.
Qed.

Lemma write_slot_out h (b : nat) bl (i : Z) (x : slot T) :
  block_at h (S b) = Some bl -> Z.of_nat (length bl) <= i ->
  write_slot h (Ptr (S b) i) x = None.
Proof.
  intros Hb Hi. unfold write_slot, in_block. cbn [blk off]. rewrite Hb.
  replace (i <? Z.of_nat (length bl)) with false
    by (symmetry; apply Z.ltb_ge; lia).
  rewrite andb_false_r. reflexivity.
Qed.

Lemma write_slot_block h (b : nat) bl (i : Z) (x : slot T) :
  (b < length h)%nat -> 0 <= i < Z.of_nat (length bl) ->
  write_slot (<[b := Some bl]> h) (Ptr (S b) i) x
  = Some (<[b := Some (<[Z.to_nat i := x]> bl)]> h).
Proof.
  intros Hb Hi. unfold write_slot. cbn [blk off pred].
  rewrite block_at_insert_eq by exact Hb.
  rewrite in_block_true by lia. rewrite list_insert_insert_eq. reflexivity.
Qed.

(** A loop whose round [j] rewrites the block [b] by [w j], moves the
    fields from [vs j] to [vs (j + 1)] and logs [ev j]. *)
Lemma iterate_writes (body : Z -> @M T unit) (b : nat) h ta
  (vs : Z -> vector) (w : Z -> list (slot T) -> list (slot T))
  (ev : Z -> list event) (len : nat) (n : nat) :
  forall (k : Z) bl trc,
    length bl = len ->
    (forall j bl', length bl' = len -> k <= j < k + Z.of_nat n ->
       length (w j bl') = len) ->
    (forall j bl' trc', length bl' = len -> k <= j < k + Z.of_nat n ->
       body j (Machine (vs j) (<[b := Some bl']> h) ta trc')
       = Ok tt (Machine (vs (j + 1)) (<[b := Some (w j bl')]> h) ta
                  (trc' ++ ev j))) ->
    iterate body n k (Machine (vs k) (<[b := Some bl]> h) ta trc)
    = Ok tt (Machine (vs (k + Z.of_nat n))
               (<[b := Some (run_writes w bl n k)]> h) ta
               (trc ++ concat (ev <$> seqZ k (Z.of_nat n)))).
Proof.
  induction n as [|n IH]; intros k bl trc Hlen Hw Hbody.
  - cbn [iterate run_writes]. unfold ret. rewrite seqZ_nil by lia.
    cbn. rewrite app_nil_r, Z.add_0_r. reflexivity.
  - cbn [iterate run_writes].
    rewrite (bind_ok _ _ _ _ _ (Hbody k bl trc Hlen ltac:(lia))).
    rewrite (IH (k + 1) (w k bl) (trc ++ ev k)).
    + rewrite (seqZ_cons k (Z.of_nat (S n))) by lia.
      rewrite fmap_cons. cbn [concat]. rewrite <- app_assoc.
      replace (Z.pred (Z.of_nat (S n))) with (Z.of_nat n) by lia.
      replace (k + 1 + Z.of_nat n) with (k + Z.of_nat (S n)) by lia.
      reflexivity.
    + apply Hw; [exact Hlen | lia].
    + intros j bl' Hl Hj. apply Hw; [exact Hl | lia].
    + intros j bl' trc' Hl Hj. apply Hbody; [exact Hl | lia].
Qed.

(** When every round writes [x j] to slot [j]. *)
Lemma run_writes_slots (x : Z -> slot T) (n : nat) : forall bl (k : Z),
  0 <= k ->
  run_writes (fun j bl' => <[Z.to_nat j := x j]> bl') bl n k
  = write_list bl (Z.to_nat k) (x <$> seqZ k (Z.of_nat n)).
Proof.
  induction n as [|n IH]; intros bl k Hk; cbn [run_writes].
  - rewrite seqZ_nil by lia. reflexivity.
  - rewrite (seqZ_cons k (Z.of_nat (S n))) by lia. rewrite fmap_cons.
    cbn [write_list]. rewrite IH by lia.
    replace (Z.to_nat (k + 1)) with (S (Z.to_nat k)) by lia.
    replace (Z.pred (Z.of_nat (S n))) with (Z.of_nat n) by lia.
    reflexivity.
Qed.

Lemma fmap_seqZ_const {A} (a : A) (k : Z) (n : nat) :
  (fun _ => a) <$> seqZ k (Z.of_nat n) = replicate n a.
Proof.
  revert k. induction n as [|n IH]; intros k.
  - rewrite seqZ_nil by lia. reflexivity.
  - rewrite (seqZ_cons k (Z.of_nat (S n))) by lia. rewrite fmap_cons.
    replace (Z.pred (Z.of_nat (S n))) with (Z.of_nat n) by lia.
    rewrite IH. reflexivity.
Qed.

Lemma concat_singletons {A B} (f : A -> B) (l : list A) :
  concat ((fun a => [f a]) <$> l) = f <$> l.
Proof. induction l as [|a l IH]; cbn; [reflexivity | rewrite <- IH; reflexivity]. Qed.

Lemma release_new_some h (x y : option (list (slot T))) :
  <[length h := y]> (h ++ [x]) = h ++ [y].
Proof.
  replace (length h) with (length h + 0)%nat at 1 by lia.
  rewrite insert_app_r. reflexivity.
Qed.

Lemma iterate_ext (body1 body2 : Z -> @M T unit) (n : nat) :
  (forall j m, body1 j m = body2 j m) ->
  forall k m, iterate body1 n k m = iterate body2 n k m.
Proof.
  intros H. induction n as [|n IH]; intros k m; cbn [iterate]; [reflexivity|].
  unfold bind. rewrite H. destruct (body2 k m); auto.
Qed.

Lemma try_iterate_ok (body cleanup : Z -> @M T unit) (n : nat) :
  forall k made m m',
    iterate body n k m = Ok tt m' ->
    try_iterate body cleanup n k made m = Ok tt m'.
Proof.
  induction n as [|n IH]; intros k made m m' H; cbn [iterate try_iterate] in *.
  - exact H.
  - apply bind_ok_inv in H. destruct H as ([] & m1 & H1 & H2).
    unfold bind at 1. unfold on_exception. rewrite H1.
    apply IH. exact H2.
Qed.

End Blocks.

(** Runs the reads of fields and the returns at the head of a sequence. *)
Ltac run_binds :=
  repeat first
    [ rewrite bind_bind
    | rewrite bind_get; cbv beta
    | rewrite bind_ret; cbv beta
    | progress unfold size, capacity, begin, end_ ].

(** ** Reallocation that succeeds: reserve and shrink_to_fit *)

Section Relocation.

Context {T : Type}.
Variable tr : traits.
Implicit Types (m : @machine T) (h : heap T) (bl : list (slot T)).

Lemma construct_copy_run (p : ptr) (x : slot T) m h' :
  throw_after m = None ->
  write_slot (mem m) p x = Some h' ->
  construct_copy p x m
  = Ok tt (Machine (self m) h' None (trace m ++ [EvConstruct p])).
Proof.
  intros Hta Hw. unfold construct_copy.
  rewrite bind_may_throw_none by exact Hta.
  rewrite (bind_store _ _ _ _ _ Hw). unfold log.
  cbn [self mem throw_after trace]. rewrite Hta. reflexivity.
Qed.

Lemma construct_copy_at (p : ptr) (x : slot T) v h h' trc :
  write_slot h p x = Some h' ->
  construct_copy p x (Machine v h None trc)
  = Ok tt (Machine v h' None (trc ++ [EvConstruct p])).
Proof.
  intros Hw.
  apply (construct_copy_run p x (Machine v h None trc) h' eq_refl Hw).
Qed.

Lemma construct_move_run (p : ptr) (x : slot T) m h' :
  throw_after m = None ->
  write_slot (mem m) p x = Some h' ->
  construct_move tr p x m
  = Ok tt (Machine (self m) h' None (trace m ++ [EvConstruct p])).
Proof.
  intros Hta Hw. unfold construct_move.
  assert (Hpre : forall B (k : unit -> @M T B),
             bind (if is_nothrow_move_constructible tr then ret tt
                   else may_throw) k m = k tt m).
  { intros B k. destruct (is_nothrow_move_constructible tr);
      [reflexivity | apply bind_may_throw_none; exact Hta]. }
  rewrite Hpre. rewrite (bind_store _ _ _ _ _ Hw). unfold log.
  cbn [self mem throw_after trace]. rewrite Hta. reflexivity.
Qed.



Lemma slots_prefix bl (n : nat) :
  (n <= length bl)%nat ->
  (fun j => default None (bl !! Z.to_nat j)) <$> seqZ 0 (Z.of_nat n)
  = take n bl.
Proof.
  induction n as [|n IH]; intros Hn.
  - rewrite seqZ_nil by lia. reflexivity.
  - rewrite seqZ_S, fmap_app, IH by lia. cbn [fmap list_fmap].
    destruct (lookup_lt_is_Some_2 bl n ltac:(lia)) as [x Hx].
    rewrite (take_S_r _ _ _ Hx). rewrite Z.add_0_l, Nat2Z.id, Hx.
    reflexivity.
Qed.

(** The loop that builds, in the block [S (length h)], the elements the
    block [S b] holds, by copy or by move, when none of the
    constructions throws. *)
Lemma relocation_loop (ctor : ptr -> slot T -> @M T unit) v h (b : nat) bl
  (nb0 : list (slot T)) trc (s : nat) :
  (forall p x m h', throw_after m = None ->
     write_slot (mem m) p x = Some h' ->
     ctor p x m = Ok tt (Machine (self m) h' None (trace m ++ [EvConstruct p]))) ->
  data_ v = Ptr (S b) 0 ->
  block_at h (S b) = Some bl ->
  (s <= length bl)%nat -> (s <= length nb0)%nat ->
  Z.of_nat (length bl) <= difference_max ->
  Z.of_nat (length nb0) <= difference_max ->
  iterate (fun index =>
             bind (get data_) (fun d =>
             bind (load (ptr_add d index)) (fun x =>
             ctor (ptr_add (Ptr (S (length h)) 0) index) x)))
          s 0 (Machine v (h ++ [Some nb0]) None trc)
  = Ok tt (Machine v (h ++ [Some (take s bl ++ drop s nb0)]) None
             (trc ++ construct_events (S (length h)) 0 (Z.of_nat s))).
Proof.
  pose proof difference_max_lt_modulus as Hmax.
  intros Hctor Hd Hb Hs Hs' Hlen Hlen'.
  pose proof (block_at_lt _ _ _ Hb) as Hblt.
  pose proof (iterate_writes
    (fun index =>
       bind (get data_) (fun d =>
       bind (load (ptr_add d index)) (fun x =>
       ctor (ptr_add (Ptr (S (length h)) 0) index) x)))
    (length h) (h ++ [Some nb0]) None (fun _ => v)
    (fun j bl' => <[Z.to_nat j := default None (bl !! Z.to_nat j)]> bl')
    (fun j => [EvConstruct (Ptr (S (length h)) j)])
    (length nb0) s 0 nb0 trc eq_refl) as H.
  rewrite release_new_some in H.
  rewrite H; clear H.
  - rewrite run_writes_slots by lia. rewrite slots_prefix by exact Hs.
    rewrite write_list_explicit by (rewrite length_take_le; lia).
    rewrite length_take_le by lia. cbn [take Z.to_nat app Nat.add].
    rewrite release_new_some.
    rewrite (concat_singletons (fun j => EvConstruct (Ptr (S (length h)) j))).
    reflexivity.
  - intros j bl' Hl Hj. rewrite length_insert. exact Hl.
  - intros j bl' trc' Hl Hj.
    rewrite bind_get. cbv beta. cbn [self]. rewrite Hd.
    rewrite !ptr_add_base by lia.
    assert (Hold : block_at (<[length h := Some bl']> (h ++ [Some nb0])) (S b)
                   = Some bl).
    { rewrite block_at_insert_ne by lia. apply block_at_app_l. exact Hb. }
    destruct (lookup_lt_is_Some_2 bl (Z.to_nat j) ltac:(lia)) as [x Hx].
    rewrite (bind_load _ x).
    2:{ cbn [mem]. rewrite (read_slot_block _ _ _ _ Hold) by lia. exact Hx. }
    rewrite Hx. cbn [default].
    apply Hctor; [reflexivity|]. cbn [mem].
    apply write_slot_block; [rewrite length_app; cbn; lia | lia].
Qed.

(** [reallocate_strong_guarantee] on a vector that owns the block
    [S b], when nothing throws. *)
Lemma reallocate_run (capacity s c : Z) h (b : nat) bl trc :
  block_at h (S b) = Some bl ->
  0 <= s <= Z.of_nat (length bl) ->
  Z.of_nat (length bl) <= difference_max ->
  s <= capacity <= difference_max ->
  reallocate_strong_guarantee tr capacity
    (Machine (Vector (Ptr (S b) 0) s c) h None trc)
  = Ok tt
      (Machine (Vector (Ptr (S (length h)) 0) s capacity)
         (<[b := None]> h
            ++ [Some (take (Z.to_nat s) bl
                        ++ replicate (Z.to_nat capacity - Z.to_nat s) None)])
         None
         (trc ++ [EvAllocate (S (length h)) capacity]
              ++ construct_events (S (length h)) 0 s
              ++ destroy_events (S b) 0 s
              ++ [EvDeallocate (S b) c])).
Proof.
  intros Hb Hs Hlen Hcap.
  pose proof (block_at_lt _ _ _ Hb) as Hblt.
  unfold reallocate_strong_guarantee.
  unfold bind at 1. unfold allocator_allocate.
  cbn [self mem throw_after trace].
  destruct (difference_max <? capacity) eqn:E; [apply Z.ltb_lt in E; lia|].
  rewrite bind_get. cbv beta. cbn [self size_].
  set (v := Vector (Ptr (S b) 0) s c).
  set (nb0 := replicate (Z.to_nat capacity) (@None T)).
  assert (Hloop : forall ctor : ptr -> slot T -> @M T unit,
    (forall p x m h', throw_after m = None ->
       write_slot (mem m) p x = Some h' ->
       ctor p x m
       = Ok tt (Machine (self m) h' None (trace m ++ [EvConstruct p]))) ->
    iterate (fun index =>
               bind (get data_) (fun d =>
               bind (load (ptr_add d index)) (fun x =>
               ctor (ptr_add (Ptr (S (length h)) 0) index) x)))
            (Z.to_nat s) 0
            (Machine v (h ++ [Some nb0]) None
                     (trc ++ [EvAllocate (S (length h)) capacity]))
    = Ok tt (Machine v
               (h ++ [Some (take (Z.to_nat s) bl
                              ++ replicate (Z.to_nat capacity - Z.to_nat s) None)])
               None
               ((trc ++ [EvAllocate (S (length h)) capacity])
                  ++ construct_events (S (length h)) 0 s))).
  { intros ctor Hctor.
    rewrite (relocation_loop ctor v h b bl nb0 _ (Z.to_nat s) Hctor eq_refl Hb)
      by (unfold nb0; rewrite ?length_replicate; lia).
    unfold nb0. rewrite drop_replicate. rewrite Z2Nat.id by lia. reflexivity. }
  assert (Hreloc :
    (if is_nothrow_move_constructible tr
        || negb (is_nothrow_move_constructible tr)
           && negb (is_copy_constructible tr)
     then for_ 0 s (fun index =>
            bind (get data_) (fun d =>
            bind (load (ptr_add d index)) (fun x =>
            construct_move tr (ptr_add (Ptr (S (length h)) 0) index) x)))
     else try_iterate
            (fun index =>
               bind (get data_) (fun d =>
               bind (load (ptr_add d index)) (fun x =>
               construct_copy (ptr_add (Ptr (S (length h)) 0) index) x)))
            (fun copiesMade =>
               bind (for_ 0 copiesMade (fun index =>
                       allocator_destroy (ptr_add (Ptr (S (length h)) 0) index)))
                    (fun _ => allocator_deallocate (Ptr (S (length h)) 0) capacity))
            (Z.to_nat s) 0 0)
      (Machine v (h ++ [Some nb0]) None
               (trc ++ [EvAllocate (S (length h)) capacity]))
    = Ok tt (Machine v
               (h ++ [Some (take (Z.to_nat s) bl
                              ++ replicate (Z.to_nat capacity - Z.to_nat s) None)])
               None
               ((trc ++ [EvAllocate (S (length h)) capacity])
                  ++ construct_events (S (length h)) 0 s))).
  { destruct (is_nothrow_move_constructible tr
              || negb (is_nothrow_move_constructible tr)
                 && negb (is_copy_constructible tr)).
    - unfold for_. rewrite Z.sub_0_r.
      apply (Hloop (construct_move tr)). apply construct_move_run.
    - apply try_iterate_ok.
      apply (Hloop construct_copy). apply construct_copy_run. }
  rewrite (bind_ok _ _ _ _ _ Hreloc). cbv zeta.
  rewrite bind_get. cbv beta. cbn [self]. unfold v at 1. cbn [size_].
  unfold deallocate_destruct_keep_size_and_capacity.
  rewrite !bind_bind. rewrite bind_get. cbv beta. cbn [self]. unfold v at 1.
  cbn [size_]. rewrite bind_bind. unfold for_. rewrite Z.sub_0_r.
  set (nb := take (Z.to_nat s) bl
             ++ replicate (Z.to_nat capacity - Z.to_nat s) None).
  rewrite (bind_ok _ _ _ _ _
             (destroy_loop_own (Z.to_nat s) 0 v (h ++ [Some nb]) bl b None _
                eq_refl (block_at_app_l _ _ _ _ Hb) ltac:(lia) ltac:(lia) Hlen)).
  rewrite !bind_bind. rewrite bind_get. cbv beta. cbn [self]. unfold v at 1.
  cbn [data_]. rewrite bind_bind. rewrite bind_get. cbv beta. cbn [self].
  unfold v at 1. cbn [capacity_].
  rewrite bind_bind. unfold bind at 1. unfold allocator_deallocate.
  cbn [ptr_eqb blk off nullptr Nat.eqb andb mem pred].
  rewrite block_at_insert_eq by (rewrite length_app; cbn; lia).
  cbn [Z.eqb self throw_after trace].
  rewrite list_insert_insert_eq.
  rewrite bind_bind, bind_set_capacity. rewrite bind_set_size.
  unfold set_data. rewrite bind_get. unfold set_self.
  cbn [self mem throw_after trace data_ size_ capacity_].
  rewrite insert_app_l by exact Hblt.
  rewrite Z2Nat.id by lia.
  rewrite <- !app_assoc. reflexivity.
Qed.

(** [reallocate_strong_guarantee] on a vector without buffer. *)
Lemma reallocate_run_null (capacity c : Z) h trc :
  0 <= capacity <= difference_max ->
  reallocate_strong_guarantee tr capacity
    (Machine (Vector nullptr 0 c) h None trc)
  = Ok tt
      (Machine (Vector (Ptr (S (length h)) 0) 0 capacity)
         (h ++ [Some (replicate (Z.to_nat capacity) None)])
         None
         (trc ++ [EvAllocate (S (length h)) capacity])).
Proof.
  intros Hcap.
  unfold reallocate_strong_guarantee, deallocate_destruct_keep_size_and_capacity,
    for_, allocator_allocate, allocator_deallocate, set_data, set_capacity,
    set_size, set_self.
  unfold bind at 1. cbn [self mem throw_after trace].
  destruct (difference_max <? capacity) eqn:E; [apply Z.ltb_lt in E; lia|].
  destruct (is_nothrow_move_constructible tr
            || negb (is_nothrow_move_constructible tr)
               && negb (is_copy_constructible tr));
    reflexivity.
Qed.

End Relocation.

(** ** The elements of a vector *)

Section Contents.

Context {T : Type}.
Implicit Types (m : @machine T) (h : heap T) (bl : list (slot T)) (l : list T).

Lemma wfb_wf m : wfb m = true -> wf m.
Proof.
  unfold wfb, wf. intros H.
  apply andb_true_iff in H. destruct H as [H Hbuf].
  apply andb_true_iff in H. destruct H as [H Hc].
  apply andb_true_iff in H. destruct H as [Hs0 Hsc].
  apply Z.leb_le in Hs0, Hsc, Hc.
  split; [lia|]. split; [exact Hc|].
  apply orb_true_iff in Hbuf. destruct Hbuf as [Hn|Hb].
  - left. apply andb_true_iff in Hn. destruct Hn as [Hp Hz].
    apply Z.eqb_eq in Hz. split; [|exact Hz].
    unfold ptr_eqb in Hp. apply andb_true_iff in Hp. destruct Hp as [Hb Ho].
    apply Nat.eqb_eq in Hb. apply Z.eqb_eq in Ho.
    destruct (data_ (self m)) as [pb po]. cbn in *. subst. reflexivity.
  - right. destruct (data_ (self m)) as [[|b] o]; cbn [blk off] in Hb;
      [discriminate|].
    apply andb_true_iff in Hb. destruct Hb as [Ho Hbl].
    apply Z.eqb_eq in Ho. subst o.
    destruct (block_at (mem m) (S b)) as [bl|] eqn:E; [|discriminate].
    apply Z.eqb_eq in Hbl. exists b, bl. auto.
Qed.

Lemma contents_empty m : size_ (self m) = 0 -> contents m = Some [].
Proof. intros H. unfold contents. rewrite H. reflexivity. Qed.

Lemma contents_intro m (b : nat) bl l :
  data_ (self m) = Ptr (S b) 0 ->
  block_at (mem m) (S b) = Some bl ->
  size_ (self m) = Z.of_nat (length l) ->
  (length l <= length bl)%nat ->
  take (length l) bl = Some <$> l ->
  contents m = Some l.
Proof.
  intros Hd Hb Hs Hl Ht. unfold contents. rewrite Hd, Hs. cbn [blk off].
  destruct (Z.of_nat (length l) =? 0) eqn:E.
  - apply Z.eqb_eq in E. destruct l; [reflexivity | cbn in E; lia].
  - apply Z.eqb_neq in E. rewrite Hb. cbn [Z.eqb andb].
    replace (0 <? Z.of_nat (length l)) with true
      by (symmetry; apply Z.ltb_lt; lia).
    replace (Z.of_nat (length l) <=? Z.of_nat (length bl)) with true
      by (symmetry; apply Z.leb_le; lia).
    cbn [andb]. rewrite Nat2Z.id, Ht. apply values_of_fmap.
Qed.

Lemma contents_elim m (b : nat) bl l :
  data_ (self m) = Ptr (S b) 0 ->
  block_at (mem m) (S b) = Some bl ->
  0 <= size_ (self m) <= Z.of_nat (length bl) ->
  contents m = Some l ->
  size_ (self m) = Z.of_nat (length l)
  /\ take (length l) bl = Some <$> l.
Proof.
  intros Hd Hb Hs H. unfold contents in H. rewrite Hd in H. cbn [blk off] in H.
  destruct (size_ (self m) =? 0) eqn:E.
  - apply Z.eqb_eq in E. injection H as <-. cbn. auto.
  - rewrite Hb in H. cbn [Z.eqb andb] in H.
    destruct ((0 <? size_ (self m))
              && (size_ (self m) <=? Z.of_nat (length bl))); [|discriminate].
    apply values_of_Some in H.
    assert (Hlen : length l = Z.to_nat (size_ (self m))).
    { apply (f_equal length) in H. rewrite length_fmap, length_take_le in H by lia.
      auto. }
    rewrite Hlen. split; [lia | exact H].
Qed.

(** What a well-formed vector with known elements looks like. *)
Lemma wf_view m l :
  wf m -> contents m = Some l ->
  (data_ (self m) = nullptr /\ capacity_ (self m) = 0
   /\ size_ (self m) = 0 /\ l = [])
  \/ exists (b : nat) bl,
       data_ (self m) = Ptr (S b) 0
       /\ block_at (mem m) (S b) = Some bl
       /\ Z.of_nat (length bl) = capacity_ (self m)
       /\ size_ (self m) = Z.of_nat (length l)
       /\ take (length l) bl = Some <$> l
       /\ (length l <= length bl)%nat
       /\ capacity_ (self m) <= difference_max.
Proof.
  intros (Hs & Hc & Hbuf) Hl.
  destruct Hbuf as [[Hd H0] | (b & bl & Hd & Hb & Hlen)].
  - left. assert (Hz : size_ (self m) = 0) by lia.
    rewrite (contents_empty m Hz) in Hl. injection Hl as <-. auto.
  - right. exists b, bl.
    destruct (contents_elim m b bl l Hd Hb ltac:(lia) Hl) as [Hsz Ht].
    repeat split; auto. lia.
Qed.

Lemma wf_intro m (b : nat) bl :
  data_ (self m) = Ptr (S b) 0 ->
  block_at (mem m) (S b) = Some bl ->
  Z.of_nat (length bl) = capacity_ (self m) ->
  0 <= size_ (self m) <= capacity_ (self m) ->
  capacity_ (self m) <= difference_max ->
  wf m.
Proof.
  intros Hd Hb Hl Hs Hc. unfold wf. split; [exact Hs|]. split; [exact Hc|].
  right. exists b, bl. auto.
Qed.

End Contents.

(** ** reserve and shrink_to_fit *)

Section ReserveGrows.

Context {T : Type}.
Variable tr : traits.
Implicit Types (m : @machine T) (h : heap T) (bl : list (slot T)) (l : list T).

(** A reallocation that succeeds keeps the elements and moves them to a
    fresh buffer of the capacity asked for. *)
Lemma reallocate_keeps_elements (n : Z) m l :
  wf m -> contents m = Some l -> throw_after m = None ->
  size_ (self m) <= n <= difference_max ->
  exists m',
    reallocate_strong_guarantee tr n m = Ok tt m'
    /\ wf m'
    /\ contents m' = Some l
    /\ throw_after m' = None
    /\ size_ (self m') = size_ (self m)
    /\ capacity_ (self m') = n
    /\ data_ (self m') = Ptr (S (length (mem m))) 0
    /\ (data_ (self m) <> nullptr ->
        block_at (mem m') (blk (data_ (self m))) = None).
Proof.
  intros Hwf Hl Hta Hn.
  destruct m as [[d s c] h ta trc].
  cbn [self mem throw_after trace data_ size_ capacity_] in *. subst ta.
  destruct (wf_view _ _ Hwf Hl)
    as [(Hd & Hc & Hs & ->) | (b & bl & Hd & Hb & Hlen & Hs & Ht & Hle & Hc)];
    cbn [self mem data_ size_ capacity_] in *.
  - subst d s. eexists. split; [apply reallocate_run_null; lia|].
    cbn [self mem throw_after data_ size_ capacity_].
    split.
    { apply (wf_intro _ (length h) (replicate (Z.to_nat n) None));
        cbn [self mem data_ size_ capacity_];
        [reflexivity | apply block_at_new | rewrite length_replicate; lia
        | lia | lia]. }
    split; [reflexivity|]. split; [reflexivity|]. split; [reflexivity|].
    split; [reflexivity|]. split; [reflexivity|]. intros H. contradiction.
  - subst d. pose proof (block_at_lt _ _ _ Hb) as Hblt.
    eexists. split; [apply (reallocate_run tr n s c h b bl trc Hb); lia|].
    cbn [self mem throw_after data_ size_ capacity_ blk].
    set (nb := take (Z.to_nat s) bl ++ _).
    assert (Hnb : length nb = Z.to_nat n).
    { unfold nb. rewrite length_app, length_take_le, length_replicate by lia.
      lia. }
    assert (Hblk : block_at (<[b := None]> h ++ [Some nb]) (S (length h))
                   = Some nb).
    { replace (length h) with (length (<[b := None]> h))
        by apply length_insert.
      apply block_at_new. }
    split.
    { apply (wf_intro _ (length h) nb); cbn [self mem data_ size_ capacity_];
        [reflexivity | exact Hblk | lia | lia | lia]. }
    split.
    { apply (contents_intro _ (length h) nb); cbn [self mem data_ size_];
        [reflexivity | exact Hblk | exact Hs | lia |].
      unfold nb. rewrite Hs, Nat2Z.id.
      rewrite take_app_le by (rewrite length_take_le; lia).
      rewrite take_take, Nat.min_id. exact Ht. }
    split; [reflexivity|]. split; [reflexivity|]. split; [reflexivity|].
    split; [reflexivity|].
    intros _. cbn [block_at]. rewrite lookup_app_l by (rewrite length_insert; lia).
    rewrite list_lookup_insert_eq by lia. reflexivity.
Qed.

(** X1. [reserve(n)] within [max_size()], when nothing throws: the call
    returns, the elements are the same and the capacity is the larger of
    the old capacity and [n]. Within the capacity nothing changes; beyond
    it the elements are in a new buffer and the old one is released. *)
Theorem reserve_keeps_elements (n : Z) m l :
  wf m -> contents m = Some l -> throw_after m = None ->
  n <= max_size ->
  exists m',
    reserve tr n m = Ok tt m'
    /\ wf m'
    /\ contents m' = Some l
    /\ capacity_ (self m') = Z.max (capacity_ (self m)) n
    /\ (n <= capacity_ (self m) -> m' = m)
    /\ (capacity_ (self m) < n ->
        data_ (self m') = Ptr (S (length (mem m))) 0
        /\ (data_ (self m) <> nullptr ->
            block_at (mem m') (blk (data_ (self m))) = None)).
Proof.
  intros Hwf Hl Hta Hn. unfold max_size in Hn. unfold reserve, max_size.
  destruct (difference_max <? n) eqn:E; [apply Z.ltb_lt in E; lia|].
  rewrite bind_get.
  destruct (capacity_ (self m) <? n) eqn:E'.
  - apply Z.ltb_lt in E'.
    destruct (reallocate_keeps_elements n m l Hwf Hl Hta)
      as (m' & Hrun & Hwf' & Hl' & _ & Hs & Hc & Hd & Hold).
    { destruct Hwf as (? & ? & _). lia. }
    exists m'. split; [exact Hrun|]. split; [exact Hwf'|].
    split; [exact Hl'|]. split; [lia|]. split; [intros H; lia|].
    intros _. split; [exact Hd | exact Hold].
  - apply Z.ltb_ge in E'. exists m. unfold ret.
    split; [reflexivity|]. split; [exact Hwf|]. split; [exact Hl|].
    split; [lia|]. split; [reflexivity|]. intros H. lia.
Qed.

(** X2. [shrink_to_fit()], when nothing throws: the call returns with
    the same elements and a capacity equal to the size. *)
Theorem shrink_to_fit_fits m l :
  wf m -> contents m = Some l -> throw_after m = None ->
  exists m',
    shrink_to_fit tr m = Ok tt m'
    /\ wf m'
    /\ contents m' = Some l
    /\ size_ (self m') = size_ (self m)
    /\ capacity_ (self m') = size_ (self m)
    /\ (capacity_ (self m) = size_ (self m) -> m' = m).
Proof.
  intros Hwf Hl Hta. unfold shrink_to_fit. rewrite !bind_get.
  destruct (capacity_ (self m) =? size_ (self m)) eqn:E; cbn [negb].
  - apply Z.eqb_eq in E. exists m. unfold ret. auto 10.
  - apply Z.eqb_neq in E.
    destruct (reallocate_keeps_elements (size_ (self m)) m l Hwf Hl Hta)
      as (m' & Hrun & Hwf' & Hl' & _ & Hs & Hc & _).
    { destruct Hwf as (? & ? & _). lia. }
    exists m'. split; [exact Hrun|]. split; [exact Hwf'|].
    split; [exact Hl'|]. split; [exact Hs|]. split; [exact Hc|].
    intros H. contradiction.
Qed.

End ReserveGrows.

(** ** The end of the vector: pop_back, push_back, emplace_back, resize *)

Section EndOperations.

Context {T : Type}.
Variable tr : traits.
Implicit Types (m : @machine T) (h : heap T) (bl : list (slot T)) (l : list T).

Lemma pop_back_run (s c : Z) h (b : nat) bl ta trc :
  block_at h (S b) = Some bl ->
  0 < s <= Z.of_nat (length bl) ->
  Z.of_nat (length bl) <= difference_max ->
  pop_back (Machine (Vector (Ptr (S b) 0) s c) h ta trc)
  = Ok tt (Machine (Vector (Ptr (S b) 0) (s - 1) c)
             (<[b := Some (<[Z.to_nat (s - 1) := None]> bl)]> h) ta
             (trc ++ [EvDestroy (Ptr (S b) (s - 1))])).
Proof.
  pose proof difference_max_lt_modulus as Hmax.
  intros Hb Hs Hlen.
  unfold pop_back, size, allocator_destroy, set_size.
  rewrite !bind_get. cbv beta. cbn [self data_ size_].
  rewrite ptr_add_base by lia. unfold ptr_sub. cbn [blk off].
  rewrite (wrap_small (s - 1)) by lia.
  rewrite bind_bind.
  rewrite (bind_store_at _ _ _ _ _ _ _ _
             (write_slot_own h b bl (s - 1) None Hb ltac:(lia))).
  rewrite bind_log. rewrite !bind_get. cbv beta.
  cbn [self mem throw_after trace data_ size_ capacity_].
  rewrite (wrap_small (s - 1)) by lia. reflexivity.
Qed.

(** X3. [pop_back()] on a vector that is not empty: the call returns,
    the last element is destroyed and the others stay, in the same
    buffer with the same capacity. *)
Theorem pop_back_removes_last m l (x : T) :
  wf m -> contents m = Some (l ++ [x]) ->
  exists m',
    pop_back m = Ok tt m'
    /\ wf m'
    /\ contents m' = Some l
    /\ data_ (self m') = data_ (self m)
    /\ capacity_ (self m') = capacity_ (self m)
    /\ read_slot (mem m') (ptr_add (data_ (self m)) (Z.of_nat (length l)))
       = Some None.
Proof.
  pose proof difference_max_lt_modulus as Hmax.
  intros Hwf Hl.
  destruct m as [[d s c] h ta trc].
  destruct (wf_view _ _ Hwf Hl)
    as [(_ & _ & _ & Hnil) | (b & bl & Hd & Hb & Hlen & Hs & Ht & Hle & Hc)];
    cbn [self mem data_ size_ capacity_] in *.
  { destruct l; discriminate. }
  subst d. rewrite length_app in *. cbn [length] in *.
  pose proof (block_at_lt _ _ _ Hb) as Hblt.
  eexists. split; [apply (pop_back_run s c h b bl ta trc Hb); lia|].
  cbn [self mem data_ size_ capacity_].
  replace (Z.to_nat (s - 1)) with (length l) by lia.
  assert (Hblk : block_at (<[b := Some (<[length l := None]> bl)]> h) (S b)
                 = Some (<[length l := None]> bl))
    by (apply block_at_insert_eq; exact Hblt).
  split.
  { apply (wf_intro _ b (<[length l := None]> bl));
      cbn [self mem data_ size_ capacity_];
      [reflexivity | exact Hblk | rewrite length_insert; exact Hlen | lia | lia]. }
  split.
  { apply (contents_intro _ b (<[length l := None]> bl));
      cbn [self mem data_ size_];
      [reflexivity | exact Hblk | lia | rewrite length_insert; lia |].
    rewrite take_insert_ge by lia.
    apply (f_equal (take (length l))) in Ht.
    rewrite take_take in Ht.
    replace (length l `min` (length l + 1))%nat with (length l) in Ht by lia.
    rewrite Ht, fmap_app, take_app_length'; [reflexivity|].
    rewrite length_fmap. reflexivity. }
  split; [reflexivity|]. split; [reflexivity|].
  rewrite ptr_add_base by lia.
  rewrite (read_slot_block _ _ _ _ Hblk) by (rewrite length_insert; lia).
  rewrite Nat2Z.id. apply list_lookup_insert_eq. lia.
Qed.

(** X4. [pop_back()] on an empty vector is undefined: it destroys the
    object one slot before the buffer. *)
Theorem pop_back_empty_undefined m :
  wf m -> size_ (self m) = 0 -> pop_back m = Fault.
Proof.
  pose proof difference_max_lt_modulus as Hmax.
  intros (Hs & Hc & Hbuf) Hz.
  destruct m as [[d s c] h ta trc]. cbn [self mem data_ size_ capacity_] in *.
  subst s.
  unfold pop_back, size, allocator_destroy.
  rewrite !bind_get. cbv beta. cbn [self data_ size_].
  assert (Hw : forall p, p = nullptr \/ (exists b bl, p = Ptr (S b) 0
                 /\ block_at h (S b) = Some bl /\ Z.of_nat (length bl) = c) ->
               write_slot h (ptr_sub (ptr_add p 0) 1) None = None).
  { intros p [-> | (b & bl & -> & Hb & Hlen)].
    - reflexivity.
    - rewrite ptr_add_base by lia. unfold ptr_sub. cbn [blk off].
      apply (write_slot_out _ _ bl); [exact Hb|].
      change (wrap (0 - 1)) with (modulus - 1). lia. }
  unfold bind, store. cbn [mem]. rewrite Hw; [reflexivity|].
  destruct Hbuf as [[-> _] | (b & bl & -> & Hb & Hlen)];
    [left; reflexivity | right; eauto].
Qed.


(** What the block looks like after one more element. *)
Lemma take_snoc bl l (x : T) :
  (length l < length bl)%nat ->
  take (length l) bl = Some <$> l ->
  take (length (l ++ [x])) (<[length l := Some x]> bl) = Some <$> (l ++ [x]).
Proof.
  intros Hlt Ht. rewrite length_app. cbn [length].
  replace (length l + 1)%nat with (S (length l)) by lia.
  rewrite (take_S_r _ _ (Some x)) by (apply list_lookup_insert_eq; lia).
  rewrite take_insert_ge by lia. rewrite Ht, fmap_app. reflexivity.
Qed.



Lemma pop_loop_run (n : nat) : forall (k s c : Z) h (b : nat) bl ta trc,
  block_at h (S b) = Some bl ->
  Z.of_nat n <= s <= Z.of_nat (length bl) ->
  Z.of_nat (length bl) <= difference_max ->
  exists bl' trc',
    iterate (fun _ => pop_back) n k (Machine (Vector (Ptr (S b) 0) s c) h ta trc)
    = Ok tt (Machine (Vector (Ptr (S b) 0) (s - Z.of_nat n) c)
               (<[b := Some bl']> h) ta trc')
    /\ length bl' = length bl
    /\ take (Z.to_nat (s - Z.of_nat n)) bl' = take (Z.to_nat (s - Z.of_nat n)) bl.
Proof.
  induction n as [|n IH]; intros k s c h b bl ta trc Hb Hs Hlen.
  - exists bl, trc. cbn [iterate]. unfold ret.
    rewrite insert_block_id by exact Hb. rewrite Z.sub_0_r. auto.
  - cbn [iterate].
    rewrite (bind_ok _ _ _ _ _ (pop_back_run s c h b bl ta trc Hb ltac:(lia) Hlen)).
    pose proof (block_at_lt _ _ _ Hb) as Hblt.
    destruct (IH (k + 1) (s - 1) c (<[b := Some (<[Z.to_nat (s - 1) := None]> bl)]> h)
                b (<[Z.to_nat (s - 1) := None]> bl) ta
                (trc ++ [EvDestroy (Ptr (S b) (s - 1))]))
      as (bl' & trc' & Hrun & Hl' & Ht');
      [apply block_at_insert_eq; exact Hblt | rewrite length_insert; lia
      | rewrite length_insert; lia |].
    exists bl', trc'. rewrite Hrun, list_insert_insert_eq.
    replace (s - 1 - Z.of_nat n) with (s - Z.of_nat (S n)) in * by lia.
    split; [reflexivity|]. split; [rewrite Hl'; apply length_insert|].
    rewrite Ht'. apply take_insert_ge. lia.
Qed.

Lemma insert_end_run (value : T) (s c : Z) h (b : nat) bl trc :
  block_at h (S b) = Some bl ->
  0 <= s < Z.of_nat (length bl) ->
  Z.of_nat (length bl) <= difference_max ->
  insert_end_strong_guarantee value (Machine (Vector (Ptr (S b) 0) s c) h None trc)
  = Ok tt (Machine (Vector (Ptr (S b) 0) (s + 1) c)
             (<[b := Some (<[Z.to_nat s := Some value]> bl)]> h) None
             (trc ++ [EvConstruct (Ptr (S b) s)])).
Proof.
  pose proof difference_max_lt_modulus as Hmax.
  intros Hb Hs Hlen.
  unfold insert_end_strong_guarantee, construct_copy, set_size.
  unfold bind, get, ret, may_throw, on_exception, set_self, store, log, set_mem.
  repeat first
    [ progress cbn [self mem throw_after trace data_ size_ capacity_]
    | rewrite ptr_add_base by lia
    | rewrite (write_slot_own h b bl s (Some value) Hb) by lia
    | rewrite (wrap_small (s + 1)) by lia
    | progress cbv beta iota ].
  reflexivity.
Qed.

Lemma fill_end_run (value : T) (n : nat) : forall (k s c : Z) h (b : nat) bl trc,
  block_at h (S b) = Some bl ->
  0 <= s -> s + Z.of_nat n <= Z.of_nat (length bl) ->
  Z.of_nat (length bl) <= difference_max ->
  iterate (fun _ => insert_end_strong_guarantee value) n k
    (Machine (Vector (Ptr (S b) 0) s c) h None trc)
  = Ok tt (Machine (Vector (Ptr (S b) 0) (s + Z.of_nat n) c)
             (<[b := Some (write_list bl (Z.to_nat s) (replicate n (Some value)))]> h)
             None
             (trc ++ construct_events (S b) s (Z.of_nat n))).
Proof.
  induction n as [|n IH]; intros k s c h b bl trc Hb Hs Hn Hlen.
  - cbn [iterate replicate write_list]. unfold ret, construct_events.
    rewrite seqZ_nil by lia. cbn [fmap list_fmap].
    rewrite app_nil_r, Z.add_0_r, insert_block_id by exact Hb. reflexivity.
  - cbn [iterate replicate write_list].
    rewrite (bind_ok _ _ _ _ _
               (insert_end_run value s c h b bl trc Hb ltac:(lia) Hlen)).
    pose proof (block_at_lt _ _ _ Hb) as Hblt.
    rewrite (IH (k + 1) (s + 1) c _ b (<[Z.to_nat s := Some value]> bl))
      by (rewrite ?length_insert;
          first [apply block_at_insert_eq; exact Hblt | lia]).
    rewrite list_insert_insert_eq.
    replace (Z.to_nat (s + 1)) with (S (Z.to_nat s)) by lia.
    unfold construct_events. rewrite (seqZ_cons s (Z.of_nat (S n))) by lia.
    rewrite fmap_cons, <- app_assoc. cbn [app].
    replace (Z.pred (Z.of_nat (S n))) with (Z.of_nat n) by lia.
    replace (s + 1 + Z.of_nat n) with (s + Z.of_nat (S n)) by lia.
    reflexivity.
Qed.

(** The elements after the slots from the end on have received [xs]. *)
Lemma take_append bl l (xs : list T) :
  (length l + length xs <= length bl)%nat ->
  take (length l) bl = Some <$> l ->
  take (length (l ++ xs)) (write_list bl (length l) (Some <$> xs))
  = Some <$> (l ++ xs).
Proof.
  intros Hle Ht.
  rewrite write_list_explicit by (rewrite length_fmap; lia).
  rewrite Ht, app_assoc, <- fmap_app.
  rewrite take_app_length'; [reflexivity|]. rewrite length_fmap. reflexivity.
Qed.

(** [insert_end_strong_guarantee(value)] from [size()] up to [n]. *)
Lemma fill_end_appends (value : T) (n : Z) m l :
  wf m -> contents m = Some l -> throw_after m = None ->
  size_ (self m) <= n <= capacity_ (self m) ->
  exists m',
    for_ (size_ (self m)) n (fun _ => insert_end_strong_guarantee value) m
    = Ok tt m'
    /\ wf m'
    /\ contents m' = Some (l ++ replicate (Z.to_nat (n - size_ (self m))) value)
    /\ size_ (self m') = n
    /\ capacity_ (self m') = capacity_ (self m)
    /\ data_ (self m') = data_ (self m).
Proof.
  intros Hwf Hl Hta Hn.
  destruct m as [[d s c] h ta trc].
  cbn [self mem throw_after data_ size_ capacity_] in *. subst ta.
  unfold for_.
  destruct (wf_view _ _ Hwf Hl)
    as [(Hd & Hc0 & Hs0 & ->) | (b & bl & Hd & Hb & Hlen & Hs & Ht & Hle & Hc)];
    cbn [self mem data_ size_ capacity_] in *.
  - subst. replace n with 0 by lia. cbn [Z.sub Z.to_nat iterate replicate app].
    unfold ret. eexists. split; [reflexivity|]. auto 10.
  - subst d. pose proof (block_at_lt _ _ _ Hb) as Hblt.
    set (k := Z.to_nat (n - s)).
    rewrite (fill_end_run value k s s c h b bl trc Hb) by lia.
    eexists. split; [reflexivity|].
    cbn [self mem data_ size_ capacity_].
    set (bl' := write_list bl (Z.to_nat s) (replicate k (Some value))).
    assert (Hl' : length bl' = length bl) by apply length_write_list.
    assert (Hblk : block_at (<[b := Some bl']> h) (S b) = Some bl')
      by (apply block_at_insert_eq; exact Hblt).
    split.
    { apply (wf_intro _ b bl'); cbn [self mem data_ size_ capacity_];
        [reflexivity | exact Hblk | lia | lia | lia]. }
    split.
    { apply (contents_intro _ b bl'); cbn [self mem data_ size_];
        [reflexivity | exact Hblk
        | rewrite length_app, length_replicate; lia
        | rewrite length_app, length_replicate; lia |].
      unfold bl'. rewrite Hs, Nat2Z.id.
      replace (replicate k (Some value)) with (Some <$> replicate k value)
        by apply fmap_replicate.
      apply take_append; [rewrite length_replicate; lia | exact Ht]. }
    split; [lia|]. auto.
Qed.

(** X7. [resize(count, value)] with [count] below the size: the call
    returns, the first [count] elements stay and the others are
    destroyed, in the same buffer with the same capacity. *)
Theorem resize_shrinks (count : Z) (value : @reference T) m l :
  wf m -> contents m = Some l ->
  0 <= count < size_ (self m) ->
  exists m',
    resize tr count value m = Ok tt m'
    /\ wf m'
    /\ contents m' = Some (take (Z.to_nat count) l)
    /\ size_ (self m') = count
    /\ capacity_ (self m') = capacity_ (self m)
    /\ data_ (self m') = data_ (self m).
Proof.
  intros Hwf Hl Hn.
  destruct m as [[d s c] h ta trc].
  cbn [self mem throw_after data_ size_ capacity_] in *.
  unfold resize, size. rewrite !bind_get. cbv beta. cbn [self size_].
  destruct (count <? s) eqn:E; [|apply Z.ltb_ge in E; lia].
  unfold for_.
  destruct (wf_view _ _ Hwf Hl)
    as [(Hd & Hc0 & Hs0 & _) | (b & bl & Hd & Hb & Hlen & Hs & Ht & Hle & Hc)];
    cbn [self mem data_ size_ capacity_] in *; [lia|].
  subst d. pose proof (block_at_lt _ _ _ Hb) as Hblt.
  destruct (pop_loop_run (Z.to_nat (s - count)) count s c h b bl ta trc Hb)
    as (bl' & trc' & Hrun & Hl' & Ht'); [lia | lia |].
  replace (s - Z.of_nat (Z.to_nat (s - count))) with count in * by lia.
  eexists. split; [exact Hrun|]. cbn [self mem data_ size_ capacity_].
  assert (Hblk : block_at (<[b := Some bl']> h) (S b) = Some bl')
    by (apply block_at_insert_eq; exact Hblt).
  split.
  { apply (wf_intro _ b bl'); cbn [self mem data_ size_ capacity_];
      [reflexivity | exact Hblk | lia | lia | lia]. }
  split.
  { apply (contents_intro _ b bl'); cbn [self mem data_ size_];
      [reflexivity | exact Hblk | rewrite length_take_le; lia
      | rewrite length_take_le; lia |].
    rewrite length_take_le by lia. rewrite Ht'.
    apply (f_equal (take (Z.to_nat count))) in Ht.
    rewrite take_take in Ht.
    replace (Z.to_nat count `min` length l)%nat with (Z.to_nat count) in Ht by lia.
    rewrite Ht, fmap_take. reflexivity. }
  auto.
Qed.

(** The loop of [resize] with [value] bound to an element of the
    vector: the appended slots are after the elements, so every round
    reads the same object. *)
Lemma fill_end_ref (x : T) (i : Z) (n : nat) :
  forall (k s c : Z) h (b : nat) bl trc,
    block_at h (S b) = Some bl ->
    0 <= i < s -> s + Z.of_nat n <= Z.of_nat (length bl) ->
    Z.of_nat (length bl) <= difference_max ->
    bl !! Z.to_nat i = Some (Some x) ->
    iterate (fun _ => bind (deref (Inside (Ptr (S b) i)))
                        (fun v => insert_end_strong_guarantee v))
            n k (Machine (Vector (Ptr (S b) 0) s c) h None trc)
    = iterate (fun _ => insert_end_strong_guarantee x) n k
        (Machine (Vector (Ptr (S b) 0) s c) h None trc).
Proof.
  induction n as [|n IH]; intros k s c h b bl trc Hb Hi Hn Hlen Hx;
    cbn [iterate]; [reflexivity|].
  pose proof (block_at_lt _ _ _ Hb) as Hblt.
  unfold deref at 1. rewrite !bind_bind.
  rewrite (bind_load_at _ (Some x))
    by (rewrite (read_slot_block _ _ _ _ Hb) by lia; exact Hx).
  rewrite bind_ret.
  rewrite !(bind_ok _ _ _ _ _
              (insert_end_run x s c h b bl trc Hb ltac:(lia) Hlen)).
  apply (IH _ _ _ _ _ (<[Z.to_nat s := Some x]> bl)).
  - apply block_at_insert_eq; exact Hblt.
  - lia.
  - rewrite length_insert; lia.
  - rewrite length_insert; lia.
  - rewrite list_lookup_insert_ne by lia. exact Hx.
Qed.

(** X8. [resize(count, value)] with [count] at least the size and
    within [max_size()], when nothing throws and [value] is bound to an
    object of value [x]: an object outside the free store, or, when
    [count] is within the capacity, an element of the vector itself.
    The call returns, the elements are the old ones followed by copies
    of [x] up to [count], and the capacity is the larger of the old
    capacity and [count]. *)
Theorem resize_grows (count : Z) (value : @reference T) (x : T) m l :
  wf m -> contents m = Some l -> throw_after m = None ->
  size_ (self m) <= count <= max_size ->
  refers_to m value x ->
  (capacity_ (self m) < count -> value = Outside x) ->
  exists m',
    resize tr count value m = Ok tt m'
    /\ wf m'
    /\ contents m'
       = Some (l ++ replicate (Z.to_nat (count - size_ (self m))) x)
    /\ size_ (self m') = count
    /\ capacity_ (self m') = Z.max (capacity_ (self m)) count.
Proof.
  pose proof difference_max_lt_modulus as Hmax.
  intros Hwf Hl Hta Hn Hv Hout. unfold max_size in Hn.
  unfold resize, size, capacity. rewrite !bind_get. cbv beta.
  destruct (count <? size_ (self m)) eqn:E; [apply Z.ltb_lt in E; lia|].
  rewrite bind_get.
  assert (Hval : forall m1 : @machine T,
    for_ (size_ (self m1)) count
      (fun _ => bind (deref (Outside x))
                  (fun v => insert_end_strong_guarantee v)) m1
    = for_ (size_ (self m1)) count
        (fun _ => insert_end_strong_guarantee x) m1).
  { intros m1. unfold for_. apply iterate_ext. reflexivity. }
  destruct (capacity_ (self m) <? count) eqn:E'.
  - apply Z.ltb_lt in E'. rewrite (Hout E').
    destruct (reallocate_keeps_elements tr count m l Hwf Hl Hta)
      as (m1 & Hrun & Hwf1 & Hl1 & Hta1 & Hs1 & Hc1 & _); [lia|].
    rewrite (bind_ok _ _ _ _ _ Hrun). rewrite <- Hs1, Hval.
    destruct (fill_end_appends x count m1 l Hwf1 Hl1 Hta1)
      as (m' & Hfill & Hwf' & Hl' & Hs' & Hc' & _); [lia|].
    exists m'. split; [exact Hfill|]. split; [exact Hwf'|].
    split; [exact Hl'|]. split; [exact Hs'|]. lia.
  - apply Z.ltb_ge in E'. rewrite bind_ret.
    assert (Hloop :
      for_ (size_ (self m)) count
        (fun _ => bind (deref value) (fun v => insert_end_strong_guarantee v)) m
      = for_ (size_ (self m)) count
          (fun _ => insert_end_strong_guarantee x) m).
    { destruct value as [v|p]; cbn [refers_to] in Hv.
      - subst v. apply Hval.
      - destruct Hv as (i & Hi & Hp & Hx). subst p.
        destruct m as [[d s c] h ta trc].
        cbn [self mem throw_after data_ size_ capacity_] in *. subst ta.
        destruct (wf_view _ _ Hwf Hl)
          as [(_ & _ & Hs0 & _)
             | (b & bl & Hd & Hb & Hlen & Hs & Ht & Hle & Hc)];
          cbn [self mem data_ size_ capacity_] in *; [lia|].
        subst d. rewrite ptr_add_base in Hx |- * by lia.
        rewrite (read_slot_block _ _ _ _ Hb) in Hx by lia.
        unfold for_. apply (fill_end_ref x i _ s s c h b bl trc Hb); lia || exact Hx. }
    rewrite Hloop.
    destruct (fill_end_appends x count m l Hwf Hl Hta)
      as (m' & Hfill & Hwf' & Hl' & Hs' & Hc' & _); [lia|].
    exists m'. split; [exact Hfill|]. split; [exact Hwf'|].
    split; [exact Hl'|]. split; [exact Hs'|]. lia.
Qed.

(** X31. [resize(count, value)] with [value] bound to an element of the
    vector itself and [count] above the capacity, as in
    [v.resize(n, v[i])], is undefined: the elements move to a new
    buffer, the old buffer is released, and the first
    [insert_end_strong_guarantee(value)] copies from the released
    buffer. *)
Theorem resize_own_element_dangles (count i : Z) m l :
  wf m -> contents m = Some l -> throw_after m = None ->
  capacity_ (self m) < count <= max_size ->
  0 <= i < size_ (self m) ->
  resize tr count (Inside (ptr_add (data_ (self m)) i)) m = Fault.
Proof.
  intros Hwf Hl Hta Hn Hi. unfold max_size in Hn.
  assert (Hsc : size_ (self m) <= capacity_ (self m))
    by (destruct Hwf as (? & _); lia).
  assert (Hd : data_ (self m) <> nullptr).
  { destruct Hwf as (_ & _ & [[_ H0] | (b & bl & Hd & _)]); [lia|].
    rewrite Hd. discriminate. }
  unfold resize, size, capacity. rewrite !bind_get. cbv beta.
  destruct (count <? size_ (self m)) eqn:E; [apply Z.ltb_lt in E; lia|].
  rewrite bind_get.
  destruct (capacity_ (self m) <? count) eqn:E'; [|apply Z.ltb_ge in E'; lia].
  destruct (reallocate_keeps_elements tr count m l Hwf Hl Hta)
    as (m1 & Hrun & _ & _ & _ & Hs1 & _ & _ & Hold); [lia|].
  rewrite (bind_ok _ _ _ _ _ Hrun).
  specialize (Hold Hd).
  unfold for_.
  destruct (Z.to_nat (count - size_ (self m))) as [|n] eqn:En; [lia|].
  cbn [iterate]. unfold deref. rewrite !bind_bind.
  unfold bind at 1. unfold load, read_slot.
  cbn [ptr_add blk]. rewrite Hold. reflexivity.
Qed.

End EndOperations.

(** ** Destroying and building all the elements *)

Section Filling.

Context {T : Type}.
Variable tr : traits.
Implicit Types (m : @machine T) (h : heap T) (bl : list (slot T)) (l : list T).

Lemma keeps_except_refl (b : nat) h : keeps_except b h h.
Proof. intros b' bl _ H. exact H. Qed.

Lemma keeps_except_trans (b : nat) h1 h2 h3 :
  keeps_except b h1 h2 -> keeps_except b h2 h3 -> keeps_except b h1 h3.
Proof. intros H12 H23 b' bl Hne H. apply H23, H12; assumption. Qed.

Lemma keeps_except_insert (b : nat) h (ob : option (list (slot T))) :
  keeps_except (S b) h (<[b := ob]> h).
Proof.
  intros [|b'] bl Hne H; [discriminate|].
  rewrite block_at_insert_ne by congruence. exact H.
Qed.

Lemma keeps_except_app (b : nat) h h' : keeps_except b h (h ++ h').
Proof. intros b' bl _ H. apply block_at_app_l. exact H. Qed.

(** A block that exists is not the one an allocation returns. *)
Lemma block_at_old h (b : nat) bl : block_at h b = Some bl -> b <> S (length h).
Proof.
  intros H ->. apply block_at_lt in H. lia.
Qed.

(** What [other] owns and holds is untouched by changes to other blocks. *)
Lemma view_kept (other : @vector) m m' (b : nat) l :
  keeps_except b (mem m) (mem m') ->
  blk (data_ other) <> b ->
  wf (view other m) -> contents (view other m) = Some l ->
  wf (view other m') /\ contents (view other m') = Some l.
Proof.
  intros Hk Hne Hwf Hl.
  destruct (wf_view _ _ Hwf Hl)
    as [(Hd & Hc0 & Hs0 & ->) | (bo & blo & Hd & Hb & Hlen & Hs & Ht & Hle & Hc)];
    cbn [view self mem data_ size_ capacity_] in *.
  - split.
    + destruct Hwf as (H1 & H2 & _). split; [exact H1|]. split; [exact H2|].
      left. auto.
    + apply contents_empty. exact Hs0.
  - rewrite Hd in Hne. cbn [blk] in Hne.
    pose proof (Hk _ _ Hne Hb) as Hb'.
    split.
    + apply (wf_intro _ bo blo); cbn [view self mem];
        [exact Hd | exact Hb' | exact Hlen | lia | exact Hc].
    + apply (contents_intro _ bo blo); cbn [view self mem]; assumption.
Qed.

Lemma destruct_run (s s' c : Z) h (b : nat) bl ta trc :
  block_at h (S b) = Some bl ->
  0 <= s <= Z.of_nat (length bl) ->
  Z.of_nat (length bl) <= difference_max ->
  destruct s (Machine (Vector (Ptr (S b) 0) s' c) h ta trc)
  = Ok tt (Machine (Vector (Ptr (S b) 0) 0 c)
             (<[b := Some (clear_range bl 0 (Z.to_nat s))]> h) ta
             (trc ++ destroy_events (S b) 0 s)).
Proof.
  intros Hb Hs Hlen. unfold destruct, for_. rewrite Z.sub_0_r.
  rewrite (bind_ok _ _ _ _ _
             (destroy_loop_own (Z.to_nat s) 0 (Vector (Ptr (S b) 0) s' c)
                h bl b ta trc eq_refl Hb ltac:(lia) ltac:(lia) Hlen)).
  rewrite Z2Nat.id by lia. reflexivity.
Qed.

(** [destruct(size())] on any vector. *)
Lemma destruct_all m :
  wf m ->
  exists m1,
    destruct (size_ (self m)) m = Ok tt m1
    /\ wf m1
    /\ self m1 = Vector (data_ (self m)) 0 (capacity_ (self m))
    /\ throw_after m1 = throw_after m
    /\ length (mem m1) = length (mem m)
    /\ keeps_except (blk (data_ (self m))) (mem m) (mem m1)
    /\ trace m1 = trace m ++ destroy_events (blk (data_ (self m))) 0
                                            (size_ (self m)).
Proof.
  intros (Hs & Hc & Hbuf).
  destruct m as [[d s c] h ta trc]. cbn [self mem data_ size_ capacity_] in *.
  destruct Hbuf as [[-> ->] | (b & bl & -> & Hb & Hlen)].
  - replace s with 0 by lia. eexists. split; [reflexivity|].
    cbn [self mem throw_after trace data_ size_ capacity_ blk].
    split; [split; [cbn; lia|]; split; [cbn; lia|]; left; auto|].
    split; [reflexivity|]. split; [reflexivity|]. split; [reflexivity|].
    split; [apply keeps_except_refl|].
    unfold destroy_events. rewrite seqZ_nil by lia.
    rewrite fmap_nil, app_nil_r. reflexivity.
  - pose proof (block_at_lt _ _ _ Hb) as Hblt.
    rewrite (destruct_run s s c h b bl ta trc Hb) by lia.
    eexists. split; [reflexivity|].
    cbn [self mem throw_after trace data_ size_ capacity_ blk].
    split.
    { apply (wf_intro _ b (clear_range bl 0 (Z.to_nat s)));
        cbn [self mem data_ size_ capacity_];
        [reflexivity | apply block_at_insert_eq; exact Hblt
        | rewrite length_clear_range; exact Hlen | lia | lia]. }
    split; [reflexivity|]. split; [reflexivity|].
    split; [apply length_insert|].
    split; [apply keeps_except_insert | reflexivity].
Qed.

(** The loop of [construct(size, value)]. *)
Lemma construct_loop_own (value : T) (n : nat) :
  forall (k : Z) v h (b : nat) bl trc,
    data_ v = Ptr (S b) 0 -> block_at h (S b) = Some bl ->
    0 <= k -> k + Z.of_nat n <= Z.of_nat (length bl) ->
    Z.of_nat (length bl) <= difference_max ->
    iterate (fun index =>
               bind (get data_) (fun d =>
               construct_copy (ptr_add d index) (Some value)))
            n k (Machine v h None trc)
    = Ok tt (Machine v
               (<[b := Some (write_list bl (Z.to_nat k)
                               (replicate n (Some value)))]> h)
               None (trc ++ construct_events (S b) k (Z.of_nat n))).
Proof.
  pose proof difference_max_lt_modulus as Hmax.
  induction n as [|n IH]; intros k v h b bl trc Hd Hb Hk Hn Hlen.
  - cbn [iterate replicate write_list]. unfold ret, construct_events.
    rewrite seqZ_nil by lia. cbn [fmap list_fmap].
    rewrite app_nil_r, insert_block_id by exact Hb. reflexivity.
  - cbn [iterate replicate write_list].
    rewrite bind_bind, bind_get. cbv beta. cbn [self]. rewrite Hd.
    rewrite ptr_add_base by lia.
    rewrite (bind_ok _ _ _ _ _
               (construct_copy_at _ _ v _ _ trc
                  (write_slot_own h b bl k (Some value) Hb ltac:(lia)))).
    pose proof (block_at_lt _ _ _ Hb) as Hblt.
    rewrite (IH (k + 1) v _ b (<[Z.to_nat k := Some value]> bl) _ Hd)
      by (rewrite ?length_insert;
          first [apply block_at_insert_eq; exact Hblt | lia]).
    rewrite list_insert_insert_eq.
    replace (Z.to_nat (k + 1)) with (S (Z.to_nat k)) by lia.
    unfold construct_events. rewrite (seqZ_cons k (Z.of_nat (S n))) by lia.
    rewrite fmap_cons, <- app_assoc. cbn [app].
    replace (Z.pred (Z.of_nat (S n))) with (Z.of_nat n) by lia.
    reflexivity.
Qed.

(** The loop of [construct_init_list(values)]. *)
Lemma construct_values_own (values : list T) :
  forall (k : Z) v h (b : nat) bl trc,
    data_ v = Ptr (S b) 0 -> block_at h (S b) = Some bl ->
    0 <= k -> k + Z.of_nat (length values) <= Z.of_nat (length bl) ->
    Z.of_nat (length bl) <= difference_max ->
    construct_values values k (Machine v h None trc)
    = Ok tt (Machine v
               (<[b := Some (write_list bl (Z.to_nat k) (Some <$> values))]> h)
               None
               (trc ++ construct_events (S b) k (Z.of_nat (length values)))).
Proof.
  pose proof difference_max_lt_modulus as Hmax.
  induction values as [|a values IH]; intros k v h b bl trc Hd Hb Hk Hn Hlen.
  - cbn [construct_values fmap list_fmap write_list length].
    unfold ret, construct_events.
    rewrite seqZ_nil by lia. cbn [fmap list_fmap].
    rewrite app_nil_r, insert_block_id by exact Hb. reflexivity.
  - cbn [construct_values length] in *. rewrite fmap_cons. cbn [write_list].
    rewrite bind_get. cbv beta. cbn [self]. rewrite Hd.
    rewrite ptr_add_base by lia.
    rewrite (bind_ok _ _ _ _ _
               (construct_copy_at _ _ v _ _ trc
                  (write_slot_own h b bl k (Some a) Hb ltac:(lia)))).
    pose proof (block_at_lt _ _ _ Hb) as Hblt.
    rewrite (IH (k + 1) v _ b (<[Z.to_nat k := Some a]> bl) _ Hd)
      by (rewrite ?length_insert;
          first [apply block_at_insert_eq; exact Hblt | lia]).
    rewrite list_insert_insert_eq.
    replace (Z.to_nat (k + 1)) with (S (Z.to_nat k)) by lia.
    unfold construct_events.
    rewrite (seqZ_cons k (Z.of_nat (S (length values)))) by lia.
    rewrite fmap_cons, <- app_assoc. cbn [app].
    replace (Z.pred (Z.of_nat (S (length values))))
      with (Z.of_nat (length values)) by lia.
    reflexivity.
Qed.

(** Building [xs] from slot 0 on in a buffer without elements. *)
Lemma filled_buffer (write : @M T unit) (xs : list T) (d : ptr) (s c : Z) h trc evs :
  wf (Machine (Vector d 0 c) h None trc) ->
  Z.of_nat (length xs) <= c ->
  (forall (b : nat) bl,
     d = Ptr (S b) 0 -> block_at h (S b) = Some bl ->
     write (Machine (Vector d (Z.of_nat (length xs)) c) h None trc)
     = Ok tt (Machine (Vector d (Z.of_nat (length xs)) c)
                (<[b := Some (write_list bl 0 (Some <$> xs))]> h) None
                (trc ++ evs))) ->
  (xs = [] ->
     write (Machine (Vector d (Z.of_nat (length xs)) c) h None trc)
     = Ok tt (Machine (Vector d (Z.of_nat (length xs)) c) h None (trc ++ evs))) ->
  exists m',
    bind (set_size (Z.of_nat (length xs))) (fun _ => write)
      (Machine (Vector d s c) h None trc) = Ok tt m'
    /\ wf m'
    /\ contents m' = Some xs
    /\ self m' = Vector d (Z.of_nat (length xs)) c
    /\ throw_after m' = None
    /\ length (mem m') = length h
    /\ keeps_except (blk d) h (mem m')
    /\ trace m' = trc ++ evs.
Proof.
  intros (_ & Hc & Hbuf) Hn Hrun Hnil. rewrite bind_set_size.
  cbn [self mem throw_after trace data_ size_ capacity_] in *.
  destruct Hbuf as [[-> ->] | (b & bl & -> & Hb & Hlen)].
  - assert (xs = []) as -> by (destruct xs; [reflexivity | cbn in Hn; lia]).
    rewrite (Hnil eq_refl). eexists. split; [reflexivity|].
    cbn [self mem throw_after trace data_ size_ capacity_ blk length].
    split; [split; [cbn; lia|]; split; [cbn; lia|]; left; auto|].
    split; [reflexivity|]. split; [reflexivity|]. split; [reflexivity|].
    split; [reflexivity|]. split; [apply keeps_except_refl | reflexivity].
  - pose proof (block_at_lt _ _ _ Hb) as Hblt.
    rewrite (Hrun b bl eq_refl Hb). eexists. split; [reflexivity|].
    cbn [self mem throw_after trace data_ size_ capacity_ blk].
    set (bl' := write_list bl 0 (Some <$> xs)).
    assert (Hl' : length bl' = length bl) by apply length_write_list.
    assert (Hblk : block_at (<[b := Some bl']> h) (S b) = Some bl')
      by (apply block_at_insert_eq; exact Hblt).
    split.
    { apply (wf_intro _ b bl'); cbn [self mem data_ size_ capacity_];
        [reflexivity | exact Hblk | lia | lia | lia]. }
    split.
    { apply (contents_intro _ b bl'); cbn [self mem data_ size_];
        [reflexivity | exact Hblk | reflexivity | lia |].
      unfold bl'. rewrite write_list_explicit by (rewrite length_fmap; cbn; lia).
      rewrite take_0, app_nil_l. rewrite take_app_length'; [reflexivity|].
      rewrite length_fmap. reflexivity. }
    split; [reflexivity|]. split; [reflexivity|].
    split; [apply length_insert|].
    split; [apply keeps_except_insert | reflexivity].
Qed.

(** [construct(n, value)] in a buffer without elements. *)
Lemma construct_fills (n : Z) (value : T) (d : ptr) (s c : Z) h trc :
  wf (Machine (Vector d 0 c) h None trc) ->
  0 <= n <= c ->
  exists m',
    construct n value (Machine (Vector d s c) h None trc) = Ok tt m'
    /\ wf m'
    /\ contents m' = Some (replicate (Z.to_nat n) value)
    /\ self m' = Vector d n c
    /\ throw_after m' = None
    /\ length (mem m') = length h
    /\ keeps_except (blk d) h (mem m')
    /\ trace m' = trc ++ construct_events (blk d) 0 n.
Proof.
  intros Hwf Hn. unfold construct.
  pose proof (filled_buffer
    (for_ 0 n (fun index =>
       bind (get data_) (fun d0 =>
       construct_copy (ptr_add d0 index) (Some value))))
    (replicate (Z.to_nat n) value) d s c h trc
    (construct_events (blk d) 0 n) Hwf) as H.
  rewrite length_replicate, Z2Nat.id in H by lia.
  apply H; clear H; [lia | |].
  - intros b bl -> Hb. unfold for_. rewrite Z.sub_0_r.
    destruct Hwf as (_ & Hc & [[? _] | (b' & bl' & Hd' & Hb' & Hlen')]);
      cbn [self mem data_ capacity_] in *; [discriminate|].
    injection Hd' as <-. rewrite Hb in Hb'. injection Hb' as <-.
    rewrite (construct_loop_own value (Z.to_nat n) 0
               (Vector (Ptr (S b) 0) n c) h b bl trc eq_refl Hb) by lia.
    rewrite Z2Nat.id by lia. rewrite fmap_replicate. reflexivity.
  - intros Hnil. apply (f_equal length) in Hnil.
    rewrite length_replicate in Hnil. cbn in Hnil.
    replace n with 0 by lia. unfold for_, construct_events.
    cbn [Z.sub Z.to_nat iterate]. unfold ret. rewrite seqZ_nil by lia.
    cbn [fmap list_fmap]. rewrite app_nil_r. reflexivity.
Qed.

(** [construct_init_list(values)] in a buffer without elements. *)
Lemma construct_init_list_fills (values : list T) (d : ptr) (s c : Z) h trc :
  wf (Machine (Vector d 0 c) h None trc) ->
  Z.of_nat (length values) <= c ->
  exists m',
    construct_init_list values (Machine (Vector d s c) h None trc) = Ok tt m'
    /\ wf m'
    /\ contents m' = Some values
    /\ self m' = Vector d (Z.of_nat (length values)) c
    /\ throw_after m' = None
    /\ length (mem m') = length h
    /\ keeps_except (blk d) h (mem m')
    /\ trace m' = trc ++ construct_events (blk d) 0 (Z.of_nat (length values)).
Proof.
  intros Hwf Hn. unfold construct_init_list.
  apply (filled_buffer (construct_values values 0) values d s c h trc
           (construct_events (blk d) 0 (Z.of_nat (length values))) Hwf Hn).
  - intros b bl -> Hb.
    destruct Hwf as (_ & Hc & [[? _] | (b' & bl' & Hd' & Hb' & Hlen')]);
      cbn [self mem data_ capacity_] in *; [discriminate|].
    injection Hd' as <-. rewrite Hb in Hb'. injection Hb' as <-.
    rewrite (construct_values_own values 0
               (Vector (Ptr (S b) 0) (Z.of_nat (length values)) c)
               h b bl trc eq_refl Hb) by lia.
    reflexivity.
  - intros ->. cbn [construct_values length]. unfold ret, construct_events.
    rewrite seqZ_nil by lia. cbn [fmap list_fmap]. rewrite app_nil_r.
    reflexivity.
Qed.

(** [reallocate(capacity(), n)] on a vector without elements. *)
Lemma reallocate_run_empty (n : Z) m :
  wf m -> size_ (self m) = 0 -> 0 <= n <= difference_max ->
  exists m1,
    reallocate (capacity_ (self m)) n m = Ok tt m1
    /\ wf m1
    /\ self m1 = Vector (Ptr (S (length (mem m))) 0) 0 n
    /\ throw_after m1 = throw_after m
    /\ keeps_except (blk (data_ (self m))) (mem m) (mem m1)
    /\ (data_ (self m) <> nullptr ->
        block_at (mem m1) (blk (data_ (self m))) = None).
Proof.
  intros (Hs & Hc & Hbuf) Hz Hn.
  destruct m as [[d s c] h ta trc]. cbn [self mem data_ size_ capacity_] in *.
  subst s.
  assert (Hnew : forall h0, length h0 = length h ->
            wf (Machine (Vector (Ptr (S (length h)) 0) 0 n)
                  (h0 ++ [Some (replicate (Z.to_nat n) None)]) ta
                  (trc ++ [EvAllocate (S (length h)) n]))
            /\ wf (Machine (Vector (Ptr (S (length h)) 0) 0 n)
                  (h0 ++ [Some (replicate (Z.to_nat n) None)]) ta
                  ((trc ++ [EvDeallocate (blk d) c])
                     ++ [EvAllocate (S (length h)) n]))).
  { intros h0 Hh0.
    split;
      apply (wf_intro _ (length h) (replicate (Z.to_nat n) None));
      cbn [self mem data_ size_ capacity_];
      try reflexivity; try lia;
      first [ rewrite <- Hh0; apply block_at_new
            | rewrite length_replicate; lia ]. }
  unfold reallocate, deallocate, allocate, allocator_deallocate,
    allocator_allocate, set_capacity, set_size, set_data, set_self.
  destruct Hbuf as [[-> ->] | (b & bl & -> & Hb & Hlen)].
  - unfold bind, get, ret.
    cbn [ptr_eqb nullptr blk off Nat.eqb Z.eqb andb self mem throw_after trace
         data_ size_ capacity_].
    destruct (difference_max <? n) eqn:E; [apply Z.ltb_lt in E; lia|].
    eexists. split; [reflexivity|].
    cbn [self mem throw_after trace data_ size_ capacity_ blk].
    split; [apply (Hnew h eq_refl)|].
    split; [reflexivity|]. split; [reflexivity|].
    split; [apply keeps_except_app|]. intros H. contradiction.
  - pose proof (block_at_lt _ _ _ Hb) as Hblt.
    unfold bind, get, ret.
    cbn [ptr_eqb nullptr blk off Nat.eqb Z.eqb andb self mem throw_after trace
         data_ size_ capacity_ pred].
    rewrite Hb. cbn [self mem throw_after trace data_ size_ capacity_].
    destruct (difference_max <? n) eqn:E; [apply Z.ltb_lt in E; lia|].
    rewrite length_insert.
    eexists. split; [reflexivity|].
    cbn [self mem throw_after trace data_ size_ capacity_ blk].
    split; [apply (Hnew (<[b := None]> h)); apply length_insert|].
    split; [reflexivity|]. split; [reflexivity|].
    split.
    { eapply keeps_except_trans;
        [apply keeps_except_insert | apply keeps_except_app]. }
    intros _. cbn [block_at]. rewrite lookup_app_l by (rewrite length_insert; lia).
    rewrite list_lookup_insert_eq by lia. reflexivity.
Qed.

(** [if (n > capacity()) reallocate(capacity(), n);] on a vector without
    elements, followed by [k]. *)
Lemma ensure_capacity (n : Z) m :
  wf m -> size_ (self m) = 0 -> 0 <= n <= difference_max ->
  exists m1,
    (forall B (k : unit -> @M T B),
       bind capacity (fun c =>
         bind (if c <? n then bind capacity (fun c' => reallocate c' n)
               else ret tt) k) m
       = k tt m1)
    /\ wf m1
    /\ size_ (self m1) = 0
    /\ capacity_ (self m1) = Z.max (capacity_ (self m)) n
    /\ throw_after m1 = throw_after m
    /\ keeps_except (blk (data_ (self m))) (mem m) (mem m1)
    /\ (n <= capacity_ (self m) -> m1 = m)
    /\ (capacity_ (self m) < n ->
        data_ (self m1) = Ptr (S (length (mem m))) 0
        /\ (data_ (self m) <> nullptr ->
            block_at (mem m1) (blk (data_ (self m))) = None)).
Proof.
  intros Hwf Hz Hn. unfold capacity.
  destruct (capacity_ (self m) <? n) eqn:E.
  - pose proof E as E'. apply Z.ltb_lt in E'.
    destruct (reallocate_run_empty n m Hwf Hz Hn)
      as (m1 & Hrun & Hwf1 & Hself & Hta & Hk & Hold).
    exists m1. split.
    { intros B k. rewrite bind_get. cbv beta. rewrite E, bind_bind, bind_get.
      apply bind_ok. exact Hrun. }
    rewrite Hself. cbn [data_ size_ capacity_].
    split; [exact Hwf1|]. split; [reflexivity|]. split; [lia|].
    split; [exact Hta|]. split; [exact Hk|]. split; [lia|].
    intros _. split; [reflexivity | exact Hold].
  - pose proof E as E'. apply Z.ltb_ge in E'. exists m. split.
    { intros B k. rewrite bind_get. cbv beta. rewrite E. reflexivity. }
    split; [exact Hwf|]. split; [exact Hz|]. split; [lia|].
    split; [reflexivity|]. split; [apply keeps_except_refl|].
    split; [reflexivity|]. intros H. lia.
Qed.

(** X9. [assign(n, value)] with [n] within [max_size()], when nothing
    throws: the call returns, the vector holds [n] copies of [value],
    and the capacity is the larger of the old capacity and [n]. *)
Theorem assign_fills (n : Z) (value : T) m :
  wf m -> throw_after m = None -> 0 <= n <= max_size ->
  exists m',
    assign n value m = Ok tt m'
    /\ wf m'
    /\ contents m' = Some (replicate (Z.to_nat n) value)
    /\ size_ (self m') = n
    /\ capacity_ (self m') = Z.max (capacity_ (self m)) n.
Proof.
  intros Hwf Hta Hn. unfold max_size in Hn. unfold assign.
  destruct (destruct_all m Hwf) as (m1 & Hrun & Hwf1 & Hself1 & Hta1 & _).
  rewrite bind_get, (bind_ok _ _ _ _ _ Hrun).
  destruct (ensure_capacity n m1 Hwf1)
    as (m2 & Hrun2 & Hwf2 & Hs2 & Hc2 & Hta2 & _);
    [rewrite Hself1; reflexivity | lia |].
  rewrite Hrun2.
  destruct m2 as [[d2 s2 c2] h2 ta2 trc2].
  cbn [self mem throw_after data_ size_ capacity_] in *.
  rewrite Hself1 in Hc2. cbn [capacity_] in Hc2.
  assert (ta2 = None) as -> by congruence. subst s2.
  destruct (construct_fills n value d2 0 c2 h2 trc2 Hwf2)
    as (m' & Hrun' & Hwf' & Hl' & Hself' & _); [lia|].
  exists m'. rewrite Hself'. cbn [size_ capacity_]. auto.
Qed.

(** X10. [assign(values)] and [operator=(values)] for an initializer
    list, when nothing throws: the call returns, the vector holds the
    values of the list in order, and the capacity is the larger of the
    old capacity and the length of the list. *)
Theorem assign_init_list_fills (values : list T) m :
  wf m -> throw_after m = None ->
  Z.of_nat (length values) <= max_size ->
  exists m',
    assign_init_list values m = Ok tt m'
    /\ wf m'
    /\ contents m' = Some values
    /\ capacity_ (self m')
       = Z.max (capacity_ (self m)) (Z.of_nat (length values)).
Proof.
  intros Hwf Hta Hn. unfold max_size in Hn. unfold assign_init_list.
  destruct (destruct_all m Hwf) as (m1 & Hrun & Hwf1 & Hself1 & Hta1 & _).
  rewrite bind_get, (bind_ok _ _ _ _ _ Hrun).
  destruct (ensure_capacity (Z.of_nat (length values)) m1 Hwf1)
    as (m2 & Hrun2 & Hwf2 & Hs2 & Hc2 & Hta2 & _);
    [rewrite Hself1; reflexivity | lia |].
  rewrite Hrun2.
  destruct m2 as [[d2 s2 c2] h2 ta2 trc2].
  cbn [self mem throw_after data_ size_ capacity_] in *.
  rewrite Hself1 in Hc2. cbn [capacity_] in Hc2.
  assert (ta2 = None) as -> by congruence. subst s2.
  destruct (construct_init_list_fills values d2 0 c2 h2 trc2 Hwf2)
    as (m' & Hrun' & Hwf' & Hl' & Hself' & _); [lia|].
  exists m'. rewrite Hself'. cbn [size_ capacity_]. auto.
Qed.

End Filling.

(** ** Construction, destruction, copy and move *)

Section Lifetime.

Context {T : Type}.
Variable tr : traits.
Implicit Types (m : @machine T) (h : heap T) (bl : list (slot T)) (l : list T).

Lemma allocate_run (n : Z) (d : ptr) (s c : Z) h ta trc :
  0 <= n <= difference_max ->
  allocate n (Machine (Vector d s c) h ta trc)
  = Ok tt (Machine (Vector (Ptr (S (length h)) 0) s n)
             (h ++ [Some (replicate (Z.to_nat n) None)]) ta
             (trc ++ [EvAllocate (S (length h)) n])).
Proof.
  intros Hn. unfold allocate, allocator_allocate, set_capacity, set_data,
    set_self, bind, get.
  cbn [self mem throw_after trace data_ size_ capacity_].
  destruct (difference_max <? n) eqn:E; [apply Z.ltb_lt in E; lia|].
  reflexivity.
Qed.

Lemma wf_fresh (n s' : Z) h ta trc :
  0 <= s' <= n -> n <= difference_max ->
  wf (Machine (Vector (Ptr (S (length h)) 0) s' n)
        (h ++ [Some (replicate (Z.to_nat n) (@None T))]) ta trc).
Proof.
  intros Hs Hn.
  apply (wf_intro _ (length h) (replicate (Z.to_nat n) None));
    cbn [self mem data_ size_ capacity_];
    [reflexivity | apply block_at_new | rewrite length_replicate; lia
    | lia | lia].
Qed.

(** X11. The constructor [vector(n, value)], when nothing throws: the
    vector holds [n] copies of [value] in a new buffer of [n] slots,
    and no block that existed is touched. *)
Theorem vector_length_value_holds (n : Z) (value : T) m :
  throw_after m = None -> 0 <= n <= max_size ->
  exists m',
    vector_length_value n value m = Ok tt m'
    /\ wf m'
    /\ contents m' = Some (replicate (Z.to_nat n) value)
    /\ self m' = Vector (Ptr (S (length (mem m))) 0) n n
    /\ (forall b bl, block_at (mem m) b = Some bl ->
          block_at (mem m') b = Some bl).
Proof.
  intros Hta Hn. unfold max_size in Hn.
  destruct m as [[d s c] h ta trc]. cbn [self mem throw_after] in *. subst ta.
  unfold vector_length_value, allocate_and_copy_construct.
  rewrite (bind_ok _ _ _ _ _ (allocate_run n d s c h None trc Hn)).
  destruct (construct_fills n value (Ptr (S (length h)) 0) s n
              (h ++ [Some (replicate (Z.to_nat n) None)])
              (trc ++ [EvAllocate (S (length h)) n]))
    as (m' & Hrun & Hwf' & Hl' & Hself' & _ & _ & Hk & _);
    [apply wf_fresh; lia | lia |].
  exists m'. split; [exact Hrun|]. split; [exact Hwf'|].
  split; [exact Hl'|]. split; [exact Hself'|].
  intros b bl Hb. apply Hk; [apply (block_at_old _ _ _ Hb)|].
  apply block_at_app_l. exact Hb.
Qed.

Lemma deallocate_run (n : Z) m :
  wf m ->
  exists m',
    deallocate n m = Ok tt m'
    /\ self m' = Vector (data_ (self m)) 0 0
    /\ throw_after m' = throw_after m
    /\ keeps_except (blk (data_ (self m))) (mem m) (mem m')
    /\ length (mem m') = length (mem m)
    /\ (data_ (self m) <> nullptr ->
        block_at (mem m') (blk (data_ (self m))) = None)
    /\ trace m' = trace m ++ (if ptr_eqb (data_ (self m)) nullptr then []
                              else [EvDeallocate (blk (data_ (self m))) n]).
Proof.
  intros (Hs & Hc & Hbuf).
  destruct m as [[d s c] h ta trc]. cbn [self mem data_ size_ capacity_] in *.
  unfold deallocate, allocator_deallocate, set_capacity, set_size, set_self.
  destruct Hbuf as [[-> ->] | (b & bl & -> & Hb & Hlen)].
  - unfold bind, get, ret.
    cbn [ptr_eqb nullptr blk off Nat.eqb Z.eqb andb self mem throw_after trace
         data_ size_ capacity_].
    eexists. split; [reflexivity|].
    cbn [self mem throw_after trace].
    split; [reflexivity|]. split; [reflexivity|].
    split; [apply keeps_except_refl|]. split; [reflexivity|].
    split; [intros H; contradiction|]. rewrite app_nil_r. reflexivity.
  - pose proof (block_at_lt _ _ _ Hb) as Hblt.
    unfold bind, get, ret.
    cbn [ptr_eqb nullptr blk off Nat.eqb Z.eqb andb self mem throw_after trace
         data_ size_ capacity_ pred].
    rewrite Hb. cbn [self mem throw_after trace data_ size_ capacity_].
    eexists. split; [reflexivity|].
    cbn [self mem throw_after trace blk].
    split; [reflexivity|]. split; [reflexivity|].
    split; [apply keeps_except_insert|]. split; [apply length_insert|].
    split; [|reflexivity].
    intros _. cbn [block_at]. rewrite list_lookup_insert_eq by lia. reflexivity.
Qed.

(** X12. The destructor: every element is destroyed, in order, and the
    buffer is released once; no other block is touched. *)
Theorem vector_destroy_releases m :
  wf m ->
  exists m',
    vector_destroy m = Ok tt m'
    /\ trace m'
       = trace m
         ++ destroy_events (blk (data_ (self m))) 0 (size_ (self m))
         ++ (if ptr_eqb (data_ (self m)) nullptr then []
             else [EvDeallocate (blk (data_ (self m))) (capacity_ (self m))])
    /\ (data_ (self m) <> nullptr ->
        block_at (mem m') (blk (data_ (self m))) = None)
    /\ keeps_except (blk (data_ (self m))) (mem m) (mem m')
    /\ length (mem m') = length (mem m).
Proof.
  intros Hwf. unfold vector_destroy, deallocate_and_destruct.
  rewrite !bind_get. cbv beta.
  destruct (destruct_all m Hwf)
    as (m1 & Hrun & Hwf1 & Hself1 & Hta1 & Hlen1 & Hk1 & Htr1).
  rewrite (bind_ok _ _ _ _ _ Hrun).
  destruct (deallocate_run (capacity_ (self m)) m1 Hwf1)
    as (m' & Hrun' & Hself' & Hta' & Hk' & Hlen' & Hold' & Htr').
  rewrite Hself1 in *. cbn [data_] in *.
  exists m'. split; [exact Hrun'|].
  split; [rewrite Htr', Htr1, <- app_assoc; reflexivity|].
  split; [exact Hold'|].
  split; [eapply keeps_except_trans; eassumption | congruence].
Qed.

(** The loop of [uninitialized_alloc_copy]. *)
Lemma copy_from_loop (n : nat) :
  forall (k : Z) v h (b bo : nat) bl blo trc,
    data_ v = Ptr (S b) 0 ->
    block_at h (S b) = Some bl -> block_at h (S bo) = Some blo -> b <> bo ->
    0 <= k ->
    k + Z.of_nat n <= Z.of_nat (length bl) ->
    k + Z.of_nat n <= Z.of_nat (length blo) ->
    Z.of_nat (length bl) <= difference_max ->
    Z.of_nat (length blo) <= difference_max ->
    iterate (fun index =>
               bind (get data_) (fun d =>
               bind (load (ptr_add (Ptr (S bo) 0) index)) (fun x =>
               construct_copy (ptr_add d index) x)))
            n k (Machine v h None trc)
    = Ok tt (Machine v
               (<[b := Some (write_list bl (Z.to_nat k)
                               (take n (drop (Z.to_nat k) blo)))]> h)
               None (trc ++ construct_events (S b) k (Z.of_nat n))).
Proof.
  pose proof difference_max_lt_modulus as Hmax.
  induction n as [|n IH];
    intros k v h b bo bl blo trc Hd Hb Hbo Hne Hk Hn Hno Hlen Hleno.
  - cbn [iterate take write_list]. unfold ret, construct_events.
    rewrite seqZ_nil by lia. rewrite fmap_nil, take_0.
    cbn [write_list].
    rewrite app_nil_r, insert_block_id by exact Hb. reflexivity.
  - cbn [iterate].
    rewrite bind_bind, bind_get. cbv beta. cbn [self]. rewrite Hd.
    rewrite !ptr_add_base by lia.
    destruct (lookup_lt_is_Some_2 blo (Z.to_nat k) ltac:(lia)) as [x Hx].
    rewrite bind_bind.
    rewrite (bind_load_at _ x)
      by (rewrite (read_slot_block _ _ _ _ Hbo) by lia; exact Hx).
    rewrite (bind_ok _ _ _ _ _
               (construct_copy_at _ _ v _ _ trc
                  (write_slot_own h b bl k x Hb ltac:(lia)))).
    pose proof (block_at_lt _ _ _ Hb) as Hblt.
    rewrite (IH (k + 1) v _ b bo (<[Z.to_nat k := x]> bl) blo _ Hd)
      by (rewrite ?length_insert;
          first [ apply block_at_insert_eq; exact Hblt
                | rewrite block_at_insert_ne by exact Hne; exact Hbo
                | exact Hne | lia ]).
    rewrite list_insert_insert_eq.
    replace (Z.to_nat (k + 1)) with (S (Z.to_nat k)) by lia.
    rewrite (drop_S _ _ _ Hx). cbn [take write_list].
    unfold construct_events. rewrite (seqZ_cons k (Z.of_nat (S n))) by lia.
    rewrite fmap_cons, <- app_assoc. cbn [app].
    replace (Z.pred (Z.of_nat (S n))) with (Z.of_nat n) by lia.
    reflexivity.
Qed.

(** [uninitialized_alloc_copy(other)] into a buffer without elements. *)
Lemma uninitialized_alloc_copy_fills (other : @vector) l (d : ptr) (s c : Z)
  h trc :
  wf (Machine (Vector d 0 c) h None trc) ->
  wf (Machine other h None trc) ->
  contents (Machine other h None trc) = Some l ->
  data_ other <> nullptr ->
  blk (data_ other) <> blk d ->
  size_ other <= c ->
  exists m',
    uninitialized_alloc_copy other (Machine (Vector d s c) h None trc)
    = Ok tt m'
    /\ wf m'
    /\ contents m' = Some l
    /\ self m' = Vector d (size_ other) c
    /\ throw_after m' = None
    /\ length (mem m') = length h
    /\ keeps_except (blk d) h (mem m').
Proof.
  intros Hwf Hwfo Hlo Hnn Hne Hsz.
  destruct (wf_view _ _ Hwfo Hlo)
    as [(Hd & _) | (bo & blo & Hd & Hbo & Hleno & Hso & Hto & Hleo & Hco)];
    cbn [self mem data_ size_ capacity_] in *; [contradiction|].
  rewrite Hd in Hne. cbn [blk] in Hne.
  unfold uninitialized_alloc_copy. rewrite Hso.
  destruct (filled_buffer
    (bind (get size_) (fun s0 =>
       for_ 0 s0 (fun index =>
         bind (get data_) (fun d0 =>
         bind (load (ptr_add (data_ other) index)) (fun x =>
         construct_copy (ptr_add d0 index) x)))))
    l d s c h trc (construct_events (blk d) 0 (Z.of_nat (length l))) Hwf)
    as (m' & Hrun & Hwf' & Hl' & Hself' & Hta' & Hlen' & Hk' & _).
  - lia.
  - intros b bl -> Hb. cbn [blk] in Hne.
    rewrite bind_get. cbv beta. cbn [self size_].
    unfold for_. rewrite Z.sub_0_r, Nat2Z.id, Hd.
    destruct Hwf as (_ & Hc & [[? _] | (b' & bl' & Hd' & Hb' & Hlen')]);
      cbn [self mem data_ capacity_] in *; [discriminate|].
    injection Hd' as <-. rewrite Hb in Hb'. injection Hb' as <-.
    rewrite (copy_from_loop (length l) 0
               (Vector (Ptr (S b) 0) (Z.of_nat (length l)) c)
               h b bo bl blo trc eq_refl Hb Hbo)
      by first [congruence | lia].
    change (Z.to_nat 0) with 0%nat. rewrite drop_0, Hto. reflexivity.
  - intros ->. rewrite bind_get. cbn [length]. unfold for_, construct_events.
    cbn [Z.of_nat Z.sub Z.to_nat iterate]. unfold ret. rewrite seqZ_nil by lia.
    rewrite fmap_nil, app_nil_r. reflexivity.
  - exists m'. rewrite Hself'. auto 10.
Qed.

(** X13. The copy constructor, when nothing throws: the new vector has
    the elements of [other] in a buffer of its own, with a capacity
    equal to the size of [other]; [other] is unchanged. *)
Theorem vector_copy_deep (other : @vector) m l :
  wf (view other m) -> contents (view other m) = Some l ->
  throw_after m = None ->
  exists m',
    vector_copy other m = Ok tt m'
    /\ wf m'
    /\ contents m' = Some l
    /\ capacity_ (self m') = (if ptr_eqb (data_ other) nullptr then 0
                              else size_ other)
    /\ (data_ other <> nullptr -> data_ (self m') <> data_ other)
    /\ wf (view other m')
    /\ contents (view other m') = Some l.
Proof.
  intros Hwfo Hlo Hta.
  assert (Hdm : 0 <= difference_max) by (unfold difference_max; lia).
  destruct m as [[d s c] h ta trc]. cbn [self mem throw_after] in *. subst ta.
  unfold view in Hwfo, Hlo. cbn [mem throw_after trace] in Hwfo, Hlo.
  unfold vector_copy. rewrite bind_set_size, bind_set_capacity.
  cbn [self mem throw_after trace data_ size_ capacity_].
  unfold copy.
  destruct (wf_view _ _ Hwfo Hlo)
    as [(Hd & Hc0 & Hs0 & ->) | (bo & blo & Hd & Hbo & Hleno & Hso & Hto & Hleo & Hco)];
    cbn [self mem data_ size_ capacity_] in *.
  - rewrite Hd. cbn [ptr_eqb nullptr blk off Nat.eqb Z.eqb andb negb].
    unfold set_data, set_self, bind, get.
    cbn [self mem throw_after trace data_ size_ capacity_].
    eexists. split; [reflexivity|].
    split; [split; [cbn; lia|]; split; [cbn; lia|]; left; auto|].
    split; [apply contents_empty; reflexivity|]. split; [reflexivity|].
    split; [intros H; contradiction|].
    unfold view. cbn [mem throw_after trace]. auto.
  - rewrite Hd. cbn [ptr_eqb nullptr blk off Nat.eqb Z.eqb andb negb].
    assert (Hsz : 0 <= size_ other <= difference_max) by lia.
    rewrite (bind_ok _ _ _ _ _ (allocate_run (size_ other) d 0 0 h None trc Hsz)).
    set (h1 := h ++ [Some (replicate (Z.to_nat (size_ other)) None)]).
    set (trc1 := trc ++ [EvAllocate (S (length h)) (size_ other)]).
    destruct (view_kept other (Machine other h None trc)
                (Machine other h1 None trc1) (S (length h)) l)
      as [Hwfo1 Hlo1];
      [apply keeps_except_app
      | rewrite Hd; apply (block_at_old _ _ _ Hbo) | exact Hwfo | exact Hlo |].
    unfold view in Hwfo1, Hlo1. cbn [mem throw_after trace] in Hwfo1, Hlo1.
    destruct (uninitialized_alloc_copy_fills other l (Ptr (S (length h)) 0)
                0 (size_ other) h1 trc1)
      as (m' & Hrun & Hwf' & Hl' & Hself' & Hta' & Hlen' & Hk');
      [apply wf_fresh; lia | exact Hwfo1 | exact Hlo1
      | rewrite Hd; discriminate
      | rewrite Hd; apply (block_at_old _ _ _ Hbo) | lia |].
    exists m'. split; [exact Hrun|]. split; [exact Hwf'|].
    split; [exact Hl'|]. rewrite Hself'. cbn [data_ capacity_].
    split; [reflexivity|].
    split.
    { intros _ H. rewrite ?Hd in H. injection H as H.
      apply block_at_lt in Hbo. lia. }
    apply (view_kept other (Machine other h1 None trc1) m' (S (length h)) l);
      [exact Hk' | rewrite Hd; apply (block_at_old _ _ _ Hbo)
      | exact Hwfo1 | exact Hlo1].
Qed.

(** X14. Copy assignment from a vector that owns a buffer, when
    nothing throws: the call returns, the target has the elements of
    [other], its capacity is the larger of its old capacity and the size
    of [other], and [other] is unchanged. *)
Theorem copy_assign_copies (other : @vector) m l :
  wf m -> wf (view other m) -> contents (view other m) = Some l ->
  throw_after m = None ->
  data_ other <> nullptr ->
  blk (data_ other) <> blk (data_ (self m)) ->
  exists m',
    copy_assign false other m = Ok tt m'
    /\ wf m'
    /\ contents m' = Some l
    /\ capacity_ (self m') = Z.max (capacity_ (self m)) (size_ other)
    /\ wf (view other m')
    /\ contents (view other m') = Some l.
Proof.
  intros Hwf Hwfo Hlo Hta Hnn Hne. unfold copy_assign, size.
  destruct (destruct_all m Hwf)
    as (m1 & Hrun1 & Hwf1 & Hself1 & Hta1 & Hlen1 & Hk1 & _).
  rewrite bind_get, (bind_ok _ _ _ _ _ Hrun1).
  replace (ptr_eqb (data_ other) nullptr) with false.
  2:{ symmetry. destruct (data_ other) as [[|bo] o] eqn:Ed.
      - destruct (wf_view _ _ Hwfo Hlo) as [(Hd & _) | (? & ? & Hd & _)];
          cbn [view self data_] in Hd; congruence.
      - reflexivity. }
  cbn [negb].
  destruct (view_kept other m m1 _ l Hk1 Hne Hwfo Hlo) as [Hwfo1 Hlo1].
  assert (Hsz : 0 <= size_ other <= difference_max).
  { destruct Hwfo as (? & ? & _). cbn [view self] in *. lia. }
  destruct (ensure_capacity (size_ other) m1 Hwf1)
    as (m2 & Hrun2 & Hwf2 & Hs2 & Hc2 & Hta2 & Hk2 & Hsame & Hnew);
    [rewrite Hself1; reflexivity | exact Hsz |].
  rewrite Hrun2. rewrite Hself1 in *. cbn [data_ size_ capacity_] in *.
  destruct (view_kept other m1 m2 _ l Hk2 Hne Hwfo1 Hlo1) as [Hwfo2 Hlo2].
  assert (Hne2 : blk (data_ other) <> blk (data_ (self m2))).
  { destruct (Z_lt_le_dec (capacity_ (self m)) (size_ other)) as [Hlt|Hle].
    - destruct (Hnew Hlt) as [Hd2 _]. rewrite Hd2. cbn [blk].
      destruct (wf_view _ _ Hwfo1 Hlo1) as [(Hd & _) | (bo & blo & Hd & Hbo & _)];
        cbn [view self mem data_] in *; [contradiction|].
      rewrite Hd. cbn [blk]. apply (block_at_old _ _ _ Hbo).
    - rewrite (Hsame Hle), Hself1. exact Hne. }
  destruct m2 as [[d2 s2 c2] h2 ta2 trc2].
  unfold view in Hwfo2, Hlo2.
  cbn [self mem throw_after trace data_ size_ capacity_] in *.
  assert (ta2 = None) as -> by congruence. subst s2.
  destruct (uninitialized_alloc_copy_fills other l d2 0 c2 h2 trc2
              Hwf2 Hwfo2 Hlo2 Hnn Hne2)
    as (m' & Hrun & Hwf' & Hl' & Hself' & Hta' & Hlen' & Hk'); [lia|].
  exists m'. split; [exact Hrun|]. split; [exact Hwf'|].
  split; [exact Hl'|]. rewrite Hself'. cbn [capacity_].
  split; [exact Hc2|].
  apply (view_kept other (Machine other h2 None trc2) m' (blk d2) l);
    [exact Hk' | exact Hne2 | exact Hwfo2 | exact Hlo2].
Qed.

(** X15. Copy assignment from a vector whose [data_] is null (a
    default-constructed or moved-from one): the target gets a null
    [data_] and size 0, but its buffer is not released and its capacity
    is not reset, so a target that had a buffer is left reporting a
    capacity it does not have. *)
Theorem copy_assign_from_null (other : @vector) m :
  wf m -> data_ other = nullptr ->
  exists m',
    copy_assign false other m = Ok tt m'
    /\ self m' = Vector nullptr 0 (capacity_ (self m))
    /\ (data_ (self m) <> nullptr ->
        exists bl, block_at (mem m') (blk (data_ (self m))) = Some bl)
    /\ (0 < capacity_ (self m) -> ~ wf m').
Proof.
  intros Hwf Hnull. unfold copy_assign, size.
  destruct (destruct_all m Hwf)
    as (m1 & Hrun1 & Hwf1 & Hself1 & Hta1 & Hlen1 & Hk1 & _).
  rewrite bind_get, (bind_ok _ _ _ _ _ Hrun1). rewrite Hnull.
  cbn [ptr_eqb nullptr blk off Nat.eqb Z.eqb andb negb].
  rewrite bind_set_data, Hself1. cbn [data_ size_ capacity_].
  unfold set_size, set_self, bind, get.
  cbn [self mem throw_after trace data_ size_ capacity_].
  eexists. split; [reflexivity|]. cbn [self mem].
  split; [reflexivity|]. split.
  - intros Hd. destruct Hwf1 as (_ & _ & [[Hd1 _] | (b & bl & Hd1 & Hb & _)]);
      rewrite Hself1 in Hd1; cbn [data_] in Hd1; [contradiction|].
    exists bl. rewrite Hd1. exact Hb.
  - intros Hc (_ & _ & [[_ H0] | (b & bl & Hd & _)]);
      cbn [self data_ capacity_] in *; [lia | discriminate].
Qed.

(** X16. Move assignment from a vector that owns a buffer: the target
    releases its own buffer and takes over the buffer of [other], but
    its size and capacity are read from [other] after [other] has been
    reset, so the target ends empty with capacity 0. The elements of
    [other] are still in the buffer, and the destructor of the target
    then releases the buffer without destroying them. *)
Theorem move_assign_drops_elements (other : @vector) m l :
  wf m -> wf (view other m) -> contents (view other m) = Some l ->
  data_ other <> nullptr ->
  blk (data_ other) <> blk (data_ (self m)) ->
  exists m',
    move_assign false other m = Ok (Vector nullptr 0 0) m'
    /\ self m' = Vector (data_ other) 0 0
    /\ contents m' = Some []
    /\ contents (view other m') = Some l
    /\ (data_ (self m) <> nullptr ->
        block_at (mem m') (blk (data_ (self m))) = None)
    /\ exists m'',
         vector_destroy m' = Ok tt m''
         /\ trace m'' = trace m' ++ [EvDeallocate (blk (data_ other)) 0].
Proof.
  intros Hwf Hwfo Hlo Hnn Hne.
  unfold move_assign, capacity, size, deallocate_and_destruct.
  rewrite !bind_get. cbv beta.
  destruct (destruct_all m Hwf)
    as (m1 & Hrun1 & Hwf1 & Hself1 & Hta1 & Hlen1 & Hk1 & _).
  rewrite bind_bind, (bind_ok _ _ _ _ _ Hrun1).
  destruct (deallocate_run (capacity_ (self m)) m1 Hwf1)
    as (m2 & Hrun2 & Hself2 & Hta2 & Hk2 & Hlen2 & Hold2 & _).
  rewrite (bind_ok _ _ _ _ _ Hrun2).
  rewrite Hself1 in *. cbn [data_] in *.
  destruct (view_kept other m m1 _ l Hk1 Hne Hwfo Hlo) as [Hwfo1 Hlo1].
  destruct (view_kept other m1 m2 _ l Hk2 Hne Hwfo1 Hlo1) as [Hwfo2 Hlo2].
  cbv zeta. unfold reset. cbn [size_ capacity_].
  rewrite bind_set_data, bind_set_size, bind_set_capacity.
  cbn [self mem throw_after trace data_ size_ capacity_]. unfold ret.
  eexists. split; [reflexivity|]. cbn [self mem].
  split; [reflexivity|]. split; [reflexivity|].
  split; [exact Hlo2|]. split; [exact Hold2|].
  destruct (wf_view _ _ Hwfo2 Hlo2) as [(Hd & _) | (bo & blo & Hd & Hbo & _)];
    cbn [view self mem data_] in *; [contradiction|].
  unfold vector_destroy, deallocate_and_destruct, destruct, for_, deallocate,
    allocator_deallocate, set_capacity, set_size, set_self.
  rewrite Hd.
  unfold bind, get, ret.
  cbn [self mem throw_after trace data_ size_ capacity_].
  change (Z.to_nat (0 - 0)) with 0%nat. cbn [iterate]. unfold ret.
  cbn [ptr_eqb nullptr blk off Nat.eqb Z.eqb andb self mem throw_after trace
       data_ size_ capacity_ pred].
  rewrite Hbo. cbn [self mem throw_after trace data_ size_ capacity_].
  eexists. split; reflexivity.
Qed.

End Lifetime.

(** ** Positions: insert at the end, erase, ranges *)

Section Positions.

Context {T : Type}.
Variable tr : traits.
Implicit Types (m : @machine T) (h : heap T) (bl : list (slot T)) (l : list T).

(** X17. [insert(end(), count, value)] with [size() + count < capacity()],
    when nothing throws: the call returns and appends one copy of
    [value], whatever [count] is. *)
Theorem insert_at_end_adds_one (count : Z) (value : T) m l :
  wf m -> contents m = Some l -> throw_after m = None ->
  0 <= count -> size_ (self m) + count < capacity_ (self m) ->
  exists p m',
    insert tr (ptr_add (data_ (self m)) (size_ (self m))) count value m
    = Ok p m'
    /\ wf m'
    /\ contents m' = Some (l ++ [value])
    /\ size_ (self m') = size_ (self m) + 1
    /\ data_ (self m') = data_ (self m)
    /\ capacity_ (self m') = capacity_ (self m).
Proof.
  pose proof difference_max_lt_modulus as Hmax.
  intros Hwf Hl Hta Hcount Hg.
  destruct m as [[d s c] h ta trc].
  cbn [self mem throw_after data_ size_ capacity_] in *. subst ta.
  destruct (wf_view _ _ Hwf Hl)
    as [(_ & Hc0 & Hs0 & _) | (b & bl & Hd & Hb & Hlen & Hs & Ht & Hle & Hc)];
    cbn [self mem data_ size_ capacity_] in *; [lia|].
  subst d. pose proof (block_at_lt _ _ _ Hb) as Hblt.
  unfold insert, begin, size, capacity, end_.
  rewrite !bind_get. cbv beta zeta. cbn [self data_ size_ capacity_].
  rewrite guard_below by lia.
  run_binds. cbn [self data_ size_].
  rewrite ptr_eqb_refl.
  rewrite (bind_ok _ _ _ _ _
             (insert_end_run value s c h b bl trc Hb ltac:(lia) ltac:(lia))).
  assert (Hret : exists p,
    (if count =? 0 then ret (ptr_add (Ptr (S b) 0) s)
     else bind (get data_) (fun d0 =>
            ret (ptr_add d0 (distance (ptr_add (Ptr (S b) 0) s) (Ptr (S b) 0)))))
      (Machine (Vector (Ptr (S b) 0) (s + 1) c)
         (<[b := Some (<[Z.to_nat s := Some value]> bl)]> h) None
         (trc ++ [EvConstruct (Ptr (S b) s)]))
    = Ok p (Machine (Vector (Ptr (S b) 0) (s + 1) c)
         (<[b := Some (<[Z.to_nat s := Some value]> bl)]> h) None
         (trc ++ [EvConstruct (Ptr (S b) s)]))).
  { destruct (count =? 0); eexists; reflexivity. }
  destruct Hret as [p Hret]. exists p. eexists. split; [exact Hret|].
  cbn [self mem data_ size_ capacity_].
  rewrite Hs, Nat2Z.id.
  assert (Hblk : block_at (<[b := Some (<[length l := Some value]> bl)]> h) (S b)
                 = Some (<[length l := Some value]> bl))
    by (apply block_at_insert_eq; exact Hblt).
  split.
  { apply (wf_intro _ b (<[length l := Some value]> bl));
      cbn [self mem data_ size_ capacity_];
      [reflexivity | exact Hblk | rewrite length_insert; exact Hlen | lia | lia]. }
  split.
  { apply (contents_intro _ b (<[length l := Some value]> bl));
      cbn [self mem data_ size_];
      [reflexivity | exact Hblk | rewrite length_app; cbn [length]; lia
      | rewrite length_insert, length_app; cbn [length]; lia |].
    apply take_snoc; [lia | exact Ht]. }
  auto.
Qed.

(** X18. [erase(pos)] with [pos] after [begin()] and up to [end()] is
    undefined: the index is computed as [begin() - pos], which wraps
    around, and the element destroyed is outside the buffer. *)
Theorem erase_at_after_begin_undefined (i : Z) m :
  wf m -> 0 < i <= size_ (self m) ->
  erase_at tr (ptr_add (data_ (self m)) i) m = Fault.
Proof.
  pose proof difference_max_lt_modulus as Hmax.
  intros (Hs & Hc & Hbuf) Hi.
  destruct m as [[d s c] h ta trc]. cbn [self mem data_ size_ capacity_] in *.
  destruct Hbuf as [[-> ->] | (b & bl & -> & Hb & Hlen)]; [lia|].
  unfold erase_at, begin, allocator_destroy.
  rewrite !bind_get. cbv beta zeta. cbn [self data_].
  rewrite (ptr_add_base (S b) i) by lia. unfold distance. cbn [off].
  assert (Hw : wrap (0 - i) = modulus - i).
  { unfold wrap. replace (0 - i) with (modulus - i + (-1) * modulus) by lia.
    rewrite Z.mod_add by (unfold modulus; lia).
    apply Z.mod_small. lia. }
  rewrite Hw. rewrite ptr_add_base by lia.
  unfold bind, store. cbn [mem].
  rewrite (write_slot_out _ _ bl)
    by (first [exact Hb | unfold difference_max, modulus in *; lia]).
  reflexivity.
Qed.

(** X19. The constructor from a range [first, last) that is not empty
    throws [std::bad_alloc] and allocates nothing: the number of
    elements is computed as [first - last], which wraps around to a
    value the allocator refuses. *)
Theorem vector_range_nonempty_throws (first : ptr) (n : Z) m :
  0 <= off first -> off first + n < modulus -> 0 < n <= difference_max ->
  exists m',
    vector_range first (ptr_add first n) m = Throw bad_alloc m'
    /\ mem m' = mem m
    /\ trace m' = trace m
    /\ capacity_ (self m') = modulus - n.
Proof.
  pose proof difference_max_lt_modulus as Hmax.
  intros Ho Hon Hn.
  unfold vector_range. rewrite bind_set_size, bind_set_capacity. cbv zeta.
  unfold distance, ptr_add. cbn [off blk].
  rewrite (wrap_small (off first + n)) by lia.
  assert (Hw : wrap (off first - (off first + n)) = modulus - n).
  { unfold wrap.
    replace (off first - (off first + n)) with (modulus - n + (-1) * modulus)
      by lia.
    rewrite Z.mod_add by (unfold modulus; lia).
    apply Z.mod_small. lia. }
  rewrite Hw.
  unfold allocate, allocator_allocate, set_capacity, set_self, bind, get.
  cbn [self mem throw_after trace data_ size_ capacity_].
  destruct (difference_max <? modulus - n) eqn:E.
  - eexists. split; [reflexivity|]. cbn [self mem trace capacity_]. auto.
  - apply Z.ltb_ge in E. unfold difference_max, modulus in *. lia.
Qed.

Lemma bind_ext {A B} (c : @M T A) (k1 k2 : A -> M B) m :
  (forall a m', k1 a m' = k2 a m') -> bind c k1 m = bind c k2 m.
Proof. intros H. unfold bind. destruct (c m); auto. Qed.

Lemma iterate_add (body : Z -> @M T unit) (a : nat) : forall (b : nat) (k : Z) m,
  iterate body (a + b) k m
  = bind (iterate body a k) (fun _ => iterate body b (k + Z.of_nat a)) m.
Proof.
  induction a as [|a IH]; intros b k m.
  - cbn [Nat.add iterate]. rewrite bind_ret, Z.add_0_r. reflexivity.
  - cbn [Nat.add iterate]. rewrite bind_bind. apply bind_ext.
    intros [] m1. rewrite IH.
    replace (k + 1 + Z.of_nat a) with (k + Z.of_nat (S a)) by lia.
    reflexivity.
Qed.

(** Destroying more elements than the buffer has slots. *)
Lemma destroy_loop_overrun (n : Z) m :
  wf m -> capacity_ (self m) < n ->
  for_ 0 n (fun index =>
    bind (get data_) (fun d => allocator_destroy (ptr_add d index))) m
  = Fault.
Proof.
  pose proof difference_max_lt_modulus as Hmax.
  intros (Hs & Hc & Hbuf) Hn.
  destruct m as [[d s c] h ta trc]. cbn [self mem data_ size_ capacity_] in *.
  unfold for_. rewrite Z.sub_0_r.
  destruct Hbuf as [[-> ->] | (b & bl & -> & Hb & Hlen)].
  - destruct (Z.to_nat n) as [|k] eqn:E; [lia|]. reflexivity.
  - replace (Z.to_nat n) with (length bl + S (Z.to_nat n - length bl - 1))%nat
      by lia.
    rewrite iterate_add.
    rewrite (bind_ok _ _ _ _ _
               (destroy_loop_own (length bl) 0 (Vector (Ptr (S b) 0) s c)
                  h bl b ta trc eq_refl Hb ltac:(lia) ltac:(lia) ltac:(lia))).
    cbn [iterate]. rewrite bind_bind, bind_get. cbv beta. cbn [self data_].
    rewrite ptr_add_base by lia.
    unfold allocator_destroy, bind, store. cbn [mem].
    pose proof (block_at_lt _ _ _ Hb) as Hblt.
    rewrite (write_slot_out _ _ (clear_range bl (Z.to_nat 0) (length bl)))
      by (first [ apply block_at_insert_eq; exact Hblt
                | rewrite length_clear_range; lia ]).
    reflexivity.
Qed.

(** X20. [assign(first, last)] with a range that is not empty is
    undefined: the number of elements is computed as [first - last],
    which wraps around, and that many elements are destroyed, past the
    end of the buffer. *)
Theorem assign_range_nonempty_undefined (first : ptr) (n : Z) m :
  wf m ->
  0 <= off first -> off first + n < modulus -> 0 < n <= difference_max ->
  assign_range_of first (ptr_add first n) m = Fault.
Proof.
  pose proof difference_max_lt_modulus as Hmax.
  intros Hwf Ho Hon Hn.
  unfold assign_range_of. cbv zeta.
  unfold distance, ptr_add. cbn [off blk].
  rewrite (wrap_small (off first + n)) by lia.
  assert (Hw : wrap (off first - (off first + n)) = modulus - n).
  { unfold wrap.
    replace (off first - (off first + n)) with (modulus - n + (-1) * modulus)
      by lia.
    rewrite Z.mod_add by (unfold modulus; lia).
    apply Z.mod_small. lia. }
  rewrite Hw. unfold destruct. rewrite bind_bind.
  unfold bind at 1.
  rewrite (destroy_loop_overrun (modulus - n) m Hwf); [reflexivity|].
  destruct Hwf as (_ & Hc & _). unfold difference_max, modulus in *. lia.
Qed.

Lemma assign_slot_raw (p : ptr) (x : slot T) v h ta trc :
  read_slot h p = Some None ->
  assign_slot p x (Machine v h ta trc) = Fault.
Proof. intros H. unfold assign_slot. cbn [mem]. rewrite H. reflexivity. Qed.

Lemma assign_slot_at (p : ptr) (x : slot T) (y : T) v h h' ta trc :
  read_slot h p = Some (Some y) ->
  write_slot h p x = Some h' ->
  assign_slot p x (Machine v h ta trc) = Ok tt (Machine v h' ta trc).
Proof.
  intros Hr Hw. unfold assign_slot, store. cbn [mem]. rewrite Hr, Hw.
  reflexivity.
Qed.


End Positions.

(** ** Insertion at the beginning *)

Section InsertBegin.

Context {T : Type}.
Variable tr : traits.
Implicit Types (m : @machine T) (h : heap T) (bl : list (slot T)) (l : list T).

Lemma try_iterate_fault (body cleanup : Z -> @M T unit) (n : nat) :
  forall k made m,
    iterate body n k m = Fault ->
    try_iterate body cleanup n k made m = Fault.
Proof.
  induction n as [|n IH]; intros k made m H; cbn [iterate try_iterate] in *.
  - discriminate.
  - unfold bind in *. unfold on_exception.
    destruct (body k m) as [[] m1 | e m1 |]; [|discriminate|reflexivity].
    apply IH. exact H.
Qed.

(** The slots after the elements, when they hold no objects. *)
Lemma unused_raw_slots (s c : Z) h (b : nat) bl ta trc :
  unused_raw (Machine (Vector (Ptr (S b) 0) s c) h ta trc) ->
  block_at h (S b) = Some bl ->
  Z.of_nat (length bl) = c -> c <= difference_max ->
  forall j : Z, s <= j < c -> 0 <= j -> bl !! Z.to_nat j = Some None.
Proof.
  pose proof difference_max_lt_modulus as Hmax.
  intros Hraw Hb Hlen Hc j Hj Hj0.
  specialize (Hraw j Hj). cbn [self mem data_] in Hraw.
  rewrite ptr_add_base in Hraw by lia.
  rewrite (read_slot_block _ _ _ _ Hb) in Hraw by lia. exact Hraw.
Qed.

(** The loop of [std::move_backward] and [std::copy_backward] in one
    block, the slots below [E] going [count] slots up, the highest
    first: its first assignment is to the slot [E + count - 1]; when that
    slot holds no object the loop is undefined. *)
Lemma backward_assign_raw (E count : Z) (n : nat) v h (b : nat) bl ta trc :
  block_at h (S b) = Some bl ->
  0 < E -> 0 < count ->
  E + count <= Z.of_nat (length bl) ->
  Z.of_nat (length bl) <= difference_max ->
  bl !! Z.to_nat (E + count - 1) = Some None ->
  (0 < n)%nat ->
  iterate (fun j => bind (load (ptr_sub (Ptr (S b) E) (j + 1)))
                      (fun x => assign_slot (ptr_sub (Ptr (S b) (E + count)) (j + 1)) x))
          n 0 (Machine v h ta trc)
  = Fault.
Proof.
  pose proof difference_max_lt_modulus as Hmax.
  intros Hb HE Hcount Hroom Hlen Hraw Hn.
  destruct n as [|n]; [lia|]. cbn [iterate]. rewrite bind_bind.
  unfold ptr_sub at 1 2. cbn [blk off].
  rewrite (wrap_small (E - (0 + 1))), (wrap_small (E + count - (0 + 1))) by lia.
  destruct (lookup_lt_is_Some_2 bl (Z.to_nat (E - (0 + 1))) ltac:(lia))
    as [x Hx].
  rewrite (bind_load_at _ x)
    by (rewrite (read_slot_block _ _ _ _ Hb) by lia; exact Hx).
  unfold bind at 1. rewrite assign_slot_raw; [reflexivity|].
  rewrite (read_slot_block _ _ _ _ Hb) by lia.
  replace (E + count - (0 + 1)) with (E + count - 1) by lia. exact Hraw.
Qed.

(** The same loop run for more rounds than there are slots below [E]:
    a round assigns to a slot without object, or the loop comes to read
    below the block. *)
Lemma shift_right_overrun_from (E count : Z) (n : nat) :
  forall (k : Z) v h (b : nat) bl ta trc,
    block_at h (S b) = Some bl ->
    0 <= count -> 0 <= k <= E ->
    E + count <= Z.of_nat (length bl) ->
    Z.of_nat (length bl) <= difference_max ->
    E - k < Z.of_nat n ->
    iterate (fun j => bind (load (ptr_sub (Ptr (S b) E) (j + 1)))
                        (fun x => assign_slot (ptr_sub (Ptr (S b) (E + count)) (j + 1)) x))
            n k (Machine v h ta trc)
    = Fault.
Proof.
  pose proof difference_max_lt_modulus as Hmax.
  induction n as [|n IH]; intros k v h b bl ta trc Hb Hcount Hk Hroom Hlen Hn;
    [lia|].
  pose proof (block_at_lt _ _ _ Hb) as Hblt.
  cbn [iterate]. rewrite bind_bind.
  unfold ptr_sub at 1 2. cbn [blk off].
  destruct (decide (k = E)) as [->|Hne].
  - replace (E - (E + 1)) with (-1) by lia.
    change (wrap (-1)) with (modulus - 1).
    unfold bind at 1, load. cbn [mem].
    rewrite (read_slot_out _ b bl)
      by (first [ exact Hb | unfold difference_max, modulus in *; lia ]).
    reflexivity.
  - rewrite (wrap_small (E - (k + 1))), (wrap_small (E + count - (k + 1)))
      by lia.
    destruct (lookup_lt_is_Some_2 bl (Z.to_nat (E - (k + 1))) ltac:(lia))
      as [x Hx].
    rewrite (bind_load_at _ x)
      by (rewrite (read_slot_block _ _ _ _ Hb) by lia; exact Hx).
    destruct (lookup_lt_is_Some_2 bl (Z.to_nat (E + count - (k + 1)))
                ltac:(lia)) as [[y|] Hy].
    + assert (Hr : read_slot h (Ptr (S b) (E + count - (k + 1)))
                   = Some (Some y))
        by (rewrite (read_slot_block _ _ _ _ Hb) by lia; exact Hy).
      assert (Hin : 0 <= E + count - (k + 1) < Z.of_nat (length bl)) by lia.
      rewrite (bind_ok _ _ _ _ _
                 (assign_slot_at _ x y v h _ ta trc Hr
                    (write_slot_own h b bl (E + count - (k + 1)) x Hb Hin))).
      apply (IH (k + 1) v _ b (<[Z.to_nat (E + count - (k + 1)) := x]> bl));
        [ apply block_at_insert_eq; exact Hblt | lia | lia
        | rewrite length_insert; lia | rewrite length_insert; lia | lia ].
    + unfold bind at 1. rewrite assign_slot_raw; [reflexivity|].
      rewrite (read_slot_block _ _ _ _ Hb) by lia. exact Hy.
Qed.

Lemma shift_right_overrun (E count : Z) (n : nat) v h (b : nat) bl ta trc :
  block_at h (S b) = Some bl ->
  0 <= count -> 0 <= E ->
  E + count <= Z.of_nat (length bl) ->
  Z.of_nat (length bl) <= difference_max ->
  E < Z.of_nat n ->
  iterate (fun j => bind (load (ptr_sub (Ptr (S b) E) (j + 1)))
                      (fun x => assign_slot (ptr_sub (Ptr (S b) (E + count)) (j + 1)) x))
          n 0 (Machine v h ta trc)
  = Fault.
Proof.
  intros Hb Hcount HE Hroom Hlen Hn.
  apply (shift_right_overrun_from E count n 0 v h b bl ta trc Hb); lia.
Qed.

(** The first loop of [shift_and_construct]: each slot after the
    elements is copy-constructed from itself. *)
Lemma self_copy_loop (n : nat) : forall (k s c : Z) h (b : nat) bl trc,
  block_at h (S b) = Some bl ->
  0 <= s -> 0 <= k ->
  s + k + Z.of_nat n <= Z.of_nat (length bl) ->
  Z.of_nat (length bl) <= difference_max ->
  iterate (fun index =>
             bind (get data_) (fun d => bind size (fun s0 =>
             bind (load (ptr_add d (wrap (s0 + index)))) (fun x =>
             construct_copy (ptr_add (ptr_add d s0) index) x))))
          n k (Machine (Vector (Ptr (S b) 0) s c) h None trc)
  = Ok tt (Machine (Vector (Ptr (S b) 0) s c) h None
             (trc ++ construct_events (S b) (s + k) (Z.of_nat n))).
Proof.
  pose proof difference_max_lt_modulus as Hmax.
  induction n as [|n IH]; intros k s c h b bl trc Hb Hs Hk Hn Hlen.
  - cbn [iterate]. unfold ret, construct_events.
    rewrite seqZ_nil by lia. rewrite fmap_nil, app_nil_r. reflexivity.
  - cbn [iterate]. run_binds. cbn [self data_ size_].
    rewrite (wrap_small (s + k)) by lia.
    rewrite ptr_add_add, !ptr_add_base by lia.
    destruct (lookup_lt_is_Some_2 bl (Z.to_nat (s + k)) ltac:(lia)) as [x Hx].
    rewrite (bind_load_at _ x)
      by (rewrite (read_slot_block _ _ _ _ Hb) by lia; exact Hx).
    rewrite (bind_ok _ _ _ _ _
               (construct_copy_at _ _ _ _ _ trc
                  (write_slot_own h b bl (s + k) x Hb ltac:(lia)))).
    rewrite (list_insert_id bl _ _ Hx), insert_block_id by exact Hb.
    rewrite (IH (k + 1) s c h b bl _ Hb) by lia.
    unfold construct_events.
    rewrite (seqZ_cons (s + k) (Z.of_nat (S n))) by lia.
    rewrite fmap_cons, <- app_assoc. cbn [app].
    replace (Z.pred (Z.of_nat (S n))) with (Z.of_nat n) by lia.
    replace (Z.succ (s + k)) with (s + (k + 1)) by lia.
    reflexivity.
Qed.

(** [shift_and_construct(0, value, count)] on a vector that is not
    empty, with room for [count] more elements: the slots after the
    elements have been copy-constructed from themselves and hold no
    objects when the elements are assigned to them. *)
Lemma shift_and_construct_front_raw (value : T) (count s c : Z) h (b : nat) bl trc :
  block_at h (S b) = Some bl ->
  0 < s -> 0 < count -> s + count <= Z.of_nat (length bl) ->
  Z.of_nat (length bl) <= difference_max ->
  bl !! Z.to_nat (s + count - 1) = Some None ->
  shift_and_construct 0 value count
    (Machine (Vector (Ptr (S b) 0) s c) h None trc)
  = Fault.
Proof.
  pose proof difference_max_lt_modulus as Hmax.
  intros Hb Hs Hcount Hroom Hlen Hraw.
  unfold shift_and_construct. run_binds. cbv zeta. cbn [self data_ size_].
  rewrite (bind_ok _ _ _ _ _
             (try_iterate_ok _ _ _ _ _ _ _
                (self_copy_loop (Z.to_nat count) 0 s c h b bl trc Hb
                   ltac:(lia) ltac:(lia) ltac:(lia) Hlen))).
  rewrite ptr_add_add, !ptr_add_base by lia.
  unfold distance. cbn [off]. rewrite Z.sub_0_r, (wrap_small s) by lia.
  unfold bind at 1.
  rewrite (try_iterate_fault _ _ _ _ _ _
             (backward_assign_raw s count (Z.to_nat s) _ h b bl None _ Hb
                Hs Hcount Hroom Hlen Hraw ltac:(lia))).
  reflexivity.
Qed.

(** X22. [insert(begin(), count, value)] with [count] at least 1 on a
    vector that is not empty, with [size() + count < capacity()], when
    nothing throws, is undefined: [shift_and_construct] copy-constructs
    each of the [count] slots after the elements from its own content,
    which is no object, and then assigns the elements to these slots. *)
Theorem insert_at_begin_undefined (count : Z) (value : T) m :
  wf m -> unused_raw m -> throw_after m = None ->
  0 < size_ (self m) -> 0 < count ->
  size_ (self m) + count < capacity_ (self m) ->
  insert tr (data_ (self m)) count value m = Fault.
Proof.
  pose proof difference_max_lt_modulus as Hmax.
  intros Hwf Hraw Hta Hpos Hcount Hg.
  destruct m as [[d s c] h ta trc].
  cbn [self mem throw_after data_ size_ capacity_] in *. subst ta.
  destruct Hwf as (Hs & Hc & Hbuf). cbn [self mem data_ size_ capacity_] in *.
  destruct Hbuf as [[-> ->] | (b & bl & -> & Hb & Hlen)]; [lia|].
  pose proof (unused_raw_slots s c h b bl None trc Hraw Hb Hlen Hc) as Hslot.
  unfold insert. run_binds. cbv zeta. cbn [self data_ size_ capacity_].
  rewrite guard_below by lia.
  run_binds. cbn [self data_ size_].
  rewrite ptr_eqb_add by (cbn [off]; lia).
  destruct (s =? 0) eqn:E; [apply Z.eqb_eq in E; lia|].
  unfold distance. cbn [off]. change (wrap (0 - 0)) with 0.
  unfold bind at 1.
  rewrite (shift_and_construct_front_raw value count s c h b bl trc Hb)
    by (first [ lia | apply Hslot; lia ]).
  reflexivity.
Qed.

(** [shift_and_construct(0, x)] for an lvalue and for an rvalue. *)
Lemma shift_and_construct_forward_front_raw (cat : value_category) (x : T)
  (s c : Z) h (b : nat) bl trc :
  block_at h (S b) = Some bl ->
  0 < s -> s + 1 <= Z.of_nat (length bl) ->
  Z.of_nat (length bl) <= difference_max ->
  bl !! Z.to_nat s = Some None ->
  shift_and_construct_forward tr cat 0 x
    (Machine (Vector (Ptr (S b) 0) s c) h None trc)
  = Fault.
Proof.
  pose proof difference_max_lt_modulus as Hmax.
  intros Hb Hs Hroom Hlen Hraw.
  assert (Hraw1 : bl !! Z.to_nat (s + 1 - 1) = Some None)
    by (replace (s + 1 - 1) with s by lia; exact Hraw).
  pose proof (shift_and_construct_front_raw x 1 s c h b bl trc Hb Hs
                ltac:(lia) Hroom Hlen Hraw1) as Hcopy.
  destruct cat; cbn [shift_and_construct_forward]; [exact Hcopy|].
  unfold shift_and_construct_rvalue.
  destruct (is_nothrow_move_constructible tr
            || (negb (is_nothrow_move_constructible tr)
                && negb (is_copy_constructible tr))); [|exact Hcopy].
  run_binds. cbn [self data_ size_].
  rewrite !ptr_add_add, !ptr_add_base by lia.
  rewrite (bind_load_at _ None)
    by (rewrite (read_slot_block _ _ _ _ Hb) by lia; exact Hraw).
  rewrite (bind_ok _ _ _ _ _
             (construct_move_run tr _ _
                (Machine (Vector (Ptr (S b) 0) s c) h None trc) _ eq_refl
                (write_slot_own h b bl s None Hb ltac:(lia)))).
  cbn [self trace].
  rewrite (list_insert_id bl _ _ Hraw), insert_block_id by exact Hb.
  unfold std_move_backward, assign_range, distance. cbn [off].
  rewrite Z.sub_0_r, (wrap_small s) by lia.
  unfold bind at 1.
  rewrite (backward_assign_raw s 1 (Z.to_nat s) _ h b bl None _ Hb)
    by (first [ lia | exact Hraw1 ]).
  reflexivity.
Qed.

(** X23. [emplace(begin(), x)] and [insert(begin(), x)], for an lvalue
    or an rvalue [x], on a vector that is not empty, with
    [size() + 1 < capacity()], when nothing throws, are undefined: both
    overloads of [shift_and_construct] construct the slot after the last
    element from its own content, which is no object, and then assign
    the last element to it. *)
Theorem emplace_at_begin_undefined (cat : value_category) (x : T) m :
  wf m -> unused_raw m -> throw_after m = None ->
  0 < size_ (self m) ->
  size_ (self m) + 1 < capacity_ (self m) ->
  emplace tr cat (data_ (self m)) x m = Fault
  /\ insert_value tr cat (data_ (self m)) x m = Fault.
Proof.
  pose proof difference_max_lt_modulus as Hmax.
  intros Hwf Hraw Hta Hpos Hg.
  destruct m as [[d s c] h ta trc].
  cbn [self mem throw_after data_ size_ capacity_] in *. subst ta.
  destruct Hwf as (Hs & Hc & Hbuf). cbn [self mem data_ size_ capacity_] in *.
  destruct Hbuf as [[-> ->] | (b & bl & -> & Hb & Hlen)]; [lia|].
  pose proof (unused_raw_slots s c h b bl None trc Hraw Hb Hlen Hc) as Hslot.
  assert (Hem :
    emplace tr cat (Ptr (S b) 0) x (Machine (Vector (Ptr (S b) 0) s c) h None trc)
    = Fault).
  { unfold emplace. run_binds. cbv zeta. cbn [self data_ size_ capacity_].
    rewrite guard_below by lia.
    run_binds. cbn [self data_ size_].
    rewrite ptr_eqb_add by (cbn [off]; lia).
    destruct (s =? 0) eqn:E; [apply Z.eqb_eq in E; lia|].
    unfold distance. cbn [off]. change (wrap (0 - 0)) with 0.
    unfold bind at 1.
    rewrite (shift_and_construct_forward_front_raw cat x s c h b bl trc Hb)
      by (first [ lia | apply Hslot; lia ]).
    reflexivity. }
  split; exact Hem.
Qed.

(** The first loop of [shift_and_construct_init]. *)
Lemma init_make_room_run (values : list T) :
  forall (index s c : Z) h (b : nat) bl trc,
    block_at h (S b) = Some bl ->
    0 <= s -> 0 <= index ->
    s + index + Z.of_nat (length values) <= Z.of_nat (length bl) ->
    Z.of_nat (length bl) <= difference_max ->
    init_make_room values index (Machine (Vector (Ptr (S b) 0) s c) h None trc)
    = Ok tt (Machine (Vector (Ptr (S b) 0) s c) h None
               (trc ++ construct_events (S b) (s + index)
                         (Z.of_nat (length values)))).
Proof.
  pose proof difference_max_lt_modulus as Hmax.
  induction values as [|a values IH];
    intros index s c h b bl trc Hb Hs Hk Hn Hlen.
  - cbn [init_make_room length]. unfold ret, construct_events.
    rewrite seqZ_nil by lia. rewrite fmap_nil, app_nil_r. reflexivity.
  - cbn [init_make_room length] in *.
    rewrite bind_may_throw_none by reflexivity.
    run_binds. cbn [self data_ size_].
    rewrite (wrap_small (s + index)) by lia.
    rewrite ptr_add_add, !ptr_add_base by lia.
    destruct (lookup_lt_is_Some_2 bl (Z.to_nat (s + index)) ltac:(lia))
      as [x Hx].
    rewrite (bind_load_at _ x)
      by (rewrite (read_slot_block _ _ _ _ Hb) by lia; exact Hx).
    rewrite (bind_ok _ _ _ _ _
               (construct_copy_at _ _ _ _ _ trc
                  (write_slot_own h b bl (s + index) x Hb ltac:(lia)))).
    rewrite (list_insert_id bl _ _ Hx), insert_block_id by exact Hb.
    rewrite (IH (index + 1) s c h b bl _ Hb) by lia.
    unfold construct_events.
    rewrite (seqZ_cons (s + index) (Z.of_nat (S (length values)))) by lia.
    rewrite fmap_cons, <- app_assoc. cbn [app].
    replace (Z.pred (Z.of_nat (S (length values))))
      with (Z.of_nat (length values)) by lia.
    replace (Z.succ (s + index)) with (s + (index + 1)) by lia.
    reflexivity.
Qed.

(** X24. [insert(begin(), values)] for an initializer list that is not
    empty, on a vector that is not empty, with
    [size() + values.size() < capacity()], when nothing throws, is
    undefined: [shift_and_construct_init] copy-constructs each of the
    slots after the elements from its own content, which is no object,
    and [std::copy_backward] then assigns the elements to these slots. *)
Theorem insert_init_list_at_begin_undefined (values : list T) m :
  wf m -> unused_raw m -> throw_after m = None ->
  0 < size_ (self m) -> values <> [] ->
  size_ (self m) + Z.of_nat (length values) < capacity_ (self m) ->
  insert_init_list tr (data_ (self m)) values m = Fault.
Proof.
  pose proof difference_max_lt_modulus as Hmax.
  intros Hwf Hraw Hta Hpos Hne Hg.
  assert (Hn : 0 < Z.of_nat (length values))
    by (destruct values; [contradiction | cbn [length]; lia]).
  destruct m as [[d s c] h ta trc].
  cbn [self mem throw_after data_ size_ capacity_] in *. subst ta.
  destruct Hwf as (Hs & Hc & Hbuf). cbn [self mem data_ size_ capacity_] in *.
  destruct Hbuf as [[-> ->] | (b & bl & -> & Hb & Hlen)]; [lia|].
  pose proof (unused_raw_slots s c h b bl None trc Hraw Hb Hlen Hc) as Hslot.
  set (n := Z.of_nat (length values)) in *.
  unfold insert_init_list. run_binds. cbv zeta. cbn [self data_ size_ capacity_].
  fold n. rewrite guard_below by lia.
  unfold distance. cbn [off]. change (wrap (0 - 0)) with 0.
  unfold shift_and_construct_init. run_binds.
  rewrite (bind_ok _ _ _ _ _
             (init_make_room_run values 0 s c h b bl trc Hb
                ltac:(lia) ltac:(lia) ltac:(lia) ltac:(lia))).
  run_binds. cbn [self data_ size_]. fold n.
  rewrite ptr_add_add, !ptr_add_base by lia.
  unfold std_copy_backward, assign_range, distance. cbn [off].
  rewrite Z.sub_0_r, (wrap_small s) by lia.
  unfold bind at 1.
  rewrite (backward_assign_raw s n (Z.to_nat s) _ h b bl None _ Hb)
    by (first [ lia | apply Hslot; lia ]).
  reflexivity.
Qed.

End InsertBegin.

(** ** push_back at the capacity *)

Section FirstElement.

Context {T : Type}.
Variable tr : traits.
Implicit Types (m : @machine T) (h : heap T) (bl : list (slot T)) (l : list T).

(** [push_back] on a vector that owns the block [S b], is not empty and
    has no room for two more elements, when nothing throws. *)
Lemma push_back_full_run (x : T) (s c : Z) h (b : nat) bl trc :
  block_at h (S b) = Some bl ->
  Z.of_nat (length bl) = c ->
  0 < s <= c -> c <= s + 1 -> 2 * c <= difference_max ->
  push_back tr x (Machine (Vector (Ptr (S b) 0) s c) h None trc) = Fault.
Proof.
  pose proof difference_max_lt_modulus as Hmax.
  intros Hb Hlen Hs Hfull Hcap.
  pose proof (block_at_lt _ _ _ Hb) as Hblt.
  unfold push_back. rewrite bind_may_throw_none by reflexivity.
  unfold emplace_back, emplace. run_binds. cbv zeta.
  cbn [self data_ size_ capacity_].
  rewrite !(ptr_add_base (S b) s) by lia.
  unfold distance. cbn [off].
  assert (Hidx : wrap (0 - s) = modulus - s).
  { unfold wrap. replace (0 - s) with (modulus - s + (-1) * modulus) by lia.
    rewrite Z.mod_add by (unfold modulus; lia).
    apply Z.mod_small. lia. }
  rewrite Hidx. rewrite (wrap_small (s + 1)) by lia.
  destruct (s + 1 <? c) eqn:E; [apply Z.ltb_lt in E; lia|].
  assert (Hgrow :
    grow (fun v => capacity_ v <? wrap (1 + size_ v)) grow_fuel
      (Machine (Vector (Ptr (S b) 0) s c) h None trc)
    = Ok tt (Machine (Vector (Ptr (S b) 0) s (2 * c)) h None trc)).
  { unfold grow_fuel. cbn [grow]. run_binds. cbn [self capacity_].
    destruct (c =? 0) eqn:E0; [apply Z.eqb_eq in E0; lia|].
    run_binds. cbn [self capacity_]. rewrite bind_set_capacity.
    cbn [self mem throw_after trace data_ size_ capacity_].
    run_binds. cbn [self data_ size_ capacity_].
    unfold realloc_factor. rewrite (wrap_small (c * 2)), (wrap_small (1 + s))
      by lia.
    destruct (c * 2 <? 1 + s) eqn:E1; [apply Z.ltb_lt in E1; lia|].
    replace (c * 2) with (2 * c) by lia. reflexivity. }
  run_binds. rewrite (bind_ok _ _ _ _ _ Hgrow).
  run_binds. cbn [self capacity_].
  rewrite (bind_ok _ _ _ _ _
             (reallocate_run tr (2 * c) s (2 * c) h b bl trc Hb
                ltac:(lia) ltac:(lia) ltac:(lia))).
  set (nb := take (Z.to_nat s) bl ++ _).
  set (h1 := <[b := None]> h ++ [Some nb]).
  set (trc1 := trc ++ _).
  assert (Hnb : Z.of_nat (length nb) = 2 * c).
  { unfold nb. rewrite length_app, length_take_le, length_replicate by lia.
    lia. }
  assert (Hblk : block_at h1 (S (length h)) = Some nb).
  { unfold h1. replace (length h) with (length (<[b := None]> h))
      by apply length_insert.
    apply block_at_new. }
  assert (Hloop : forall v ta0 trc0 h0 (bl0 : list (slot T)),
    block_at h0 (S (length h)) = Some bl0 ->
    length bl0 = length nb ->
    iterate (fun j =>
               bind (load (ptr_sub (Ptr (S (length h)) s) (j + 1)))
                 (fun x0 =>
                    assign_slot (ptr_sub (Ptr (S (length h)) (s + 1)) (j + 1)) x0))
            (Z.to_nat (wrap (s - (modulus - s)))) 0 (Machine v h0 ta0 trc0)
    = Fault).
  { intros v ta0 trc0 h0 bl0 Hb0 Hl0.
    assert (Hw : wrap (s - (modulus - s)) = 2 * s).
    { unfold wrap.
      replace (s - (modulus - s)) with (2 * s + (-1) * modulus) by lia.
      rewrite Z.mod_add by (unfold modulus; lia).
      apply Z.mod_small. lia. }
    rewrite Hw.
    apply (shift_right_overrun s 1 _ v h0 (length h) bl0 ta0 trc0 Hb0); lia. }
  assert (Hshift : forall B (K : unit -> @M T B),
    bind (shift_and_construct_forward tr rvalue (modulus - s) x) K
      (Machine (Vector (Ptr (S (length h)) 0) s (2 * c)) h1 None trc1)
    = Fault).
  { intros B K. cbn [shift_and_construct_forward].
    assert (Hcopy :
      shift_and_construct (modulus - s) x 1
        (Machine (Vector (Ptr (S (length h)) 0) s (2 * c)) h1 None trc1)
      = Fault).
    { unfold shift_and_construct. run_binds. cbv zeta. cbn [self data_ size_].
      rewrite (bind_ok _ _ _ _ _
                 (try_iterate_ok _ _ _ _ _ _ _
                    (self_copy_loop (Z.to_nat 1) 0 s (2 * c) h1 (length h) nb
                       trc1 Hblk ltac:(lia) ltac:(lia) ltac:(lia) ltac:(lia)))).
      rewrite ptr_add_add, !ptr_add_base by lia.
      unfold distance. cbn [off].
      unfold bind at 1.
      rewrite (try_iterate_fault _ _ _ _ _ _
                 (Hloop _ _ _ _ _ Hblk eq_refl)).
      reflexivity. }
    destruct (is_nothrow_move_constructible tr
              || (negb (is_nothrow_move_constructible tr)
                  && negb (is_copy_constructible tr))) eqn:Etr.
    - unfold shift_and_construct_rvalue. rewrite Etr.
      run_binds. cbn [self data_ size_].
      rewrite !ptr_add_add, !ptr_add_base by lia.
      destruct (lookup_lt_is_Some_2 nb (Z.to_nat s) ltac:(lia)) as [x0 Hx0].
      rewrite (bind_load_at _ x0)
        by (rewrite (read_slot_block _ _ _ _ Hblk) by lia; exact Hx0).
      rewrite bind_bind.
      rewrite (bind_ok _ _ _ _ _
                 (construct_move_run tr _ _
                    (Machine (Vector (Ptr (S (length h)) 0) s (2 * c)) h1
                       None trc1) _ eq_refl
                    (write_slot_own h1 (length h) nb s x0 Hblk ltac:(lia)))).
      cbn [self trace].
      rewrite (list_insert_id nb _ _ Hx0), insert_block_id by exact Hblk.
      rewrite bind_bind.
      unfold std_move_backward, assign_range, distance. cbn [off].
      unfold bind at 1.
      rewrite (Hloop _ _ _ _ _ Hblk eq_refl). reflexivity.
    - unfold shift_and_construct_rvalue. rewrite Etr.
      unfold bind at 1. rewrite Hcopy. reflexivity. }
  rewrite ?bind_bind. rewrite Hshift. reflexivity.
Qed.


(** X26. [push_back(x)] on a vector that is not empty and has no room
    for two more elements ([capacity() <= size() + 1]) is undefined: the
    vector doubles its capacity and moves to the new buffer, then
    computes the index of [end()] as [begin() - end()], which wraps
    around, and shifts elements from below the buffer. *)
Theorem push_back_full_undefined (x : T) m :
  wf m -> throw_after m = None ->
  0 < size_ (self m) ->
  capacity_ (self m) <= size_ (self m) + 1 ->
  2 * capacity_ (self m) <= max_size ->
  push_back tr x m = Fault.
Proof.
  intros Hwf Hta Hpos Hfull Hcap. unfold max_size in Hcap.
  destruct m as [[d s c] h ta trc].
  cbn [self mem throw_after data_ size_ capacity_] in *. subst ta.
  destruct Hwf as (Hs & Hc & Hbuf). cbn [self mem data_ size_ capacity_] in *.
  destruct Hbuf as [[-> ->] | (b & bl & -> & Hb & Hlen)]; [lia|].
  apply (push_back_full_run x s c h b bl trc Hb Hlen); lia.
Qed.

End FirstElement.

(** ** Insertion after the beginning *)

Section InsertAfterBegin.

Context {T : Type}.
Variable tr : traits.
Implicit Types (m : @machine T) (h : heap T) (bl : list (slot T)) (l : list T).

Lemma wrapped_index (i : Z) : 0 < i < modulus -> wrap (0 - i) = modulus - i.
Proof.
  intros Hi. unfold wrap.
  replace (0 - i) with (modulus - i + (-1) * modulus) by lia.
  rewrite Z.mod_add by (unfold modulus; lia).
  apply Z.mod_small. lia.
Qed.

Lemma wrapped_distance (s i : Z) :
  0 <= s -> 0 < i -> s + i < modulus -> wrap (s - (modulus - i)) = s + i.
Proof.
  intros Hs Hi Hsi. unfold wrap.
  replace (s - (modulus - i)) with (s + i + (-1) * modulus) by lia.
  rewrite Z.mod_add by (unfold modulus; lia).
  apply Z.mod_small. lia.
Qed.

(** [shift_and_construct] with the index of a position after [begin()],
    which the callers compute as [begin() - pos]. *)
Lemma shift_and_construct_wrapped (i count : Z) (value : T) (s c : Z)
  h (b : nat) bl trc :
  block_at h (S b) = Some bl ->
  0 < i <= s -> 0 <= count ->
  s + count <= Z.of_nat (length bl) ->
  Z.of_nat (length bl) <= difference_max ->
  shift_and_construct (modulus - i) value count
    (Machine (Vector (Ptr (S b) 0) s c) h None trc)
  = Fault.
Proof.
  pose proof difference_max_lt_modulus as Hmax.
  intros Hb Hi Hcount Hroom Hlen.
  unfold shift_and_construct. run_binds. cbv zeta. cbn [self data_ size_].
  rewrite (bind_ok _ _ _ _ _
             (try_iterate_ok _ _ _ _ _ _ _
                (self_copy_loop (Z.to_nat count) 0 s c h b bl trc Hb
                   ltac:(lia) ltac:(lia) ltac:(lia) Hlen))).
  rewrite ptr_add_add, !ptr_add_base by lia.
  unfold distance. cbn [off]. rewrite wrapped_distance
    by (unfold difference_max, modulus in *; lia).
  unfold bind at 1.
  rewrite (try_iterate_fault _ _ _ _ _ _
             (shift_right_overrun s count (Z.to_nat (s + i)) _ h b bl None _ Hb
                ltac:(lia) ltac:(lia) ltac:(lia) Hlen ltac:(lia))).
  reflexivity.
Qed.

Lemma shift_and_construct_forward_wrapped (cat : value_category) (i : Z) (x : T)
  (s c : Z) h (b : nat) bl trc :
  block_at h (S b) = Some bl ->
  0 < i <= s ->
  s + 1 <= Z.of_nat (length bl) ->
  Z.of_nat (length bl) <= difference_max ->
  shift_and_construct_forward tr cat (modulus - i) x
    (Machine (Vector (Ptr (S b) 0) s c) h None trc)
  = Fault.
Proof.
  pose proof difference_max_lt_modulus as Hmax.
  intros Hb Hi Hroom Hlen.
  pose proof (shift_and_construct_wrapped i 1 x s c h b bl trc Hb Hi
                ltac:(lia) ltac:(lia) Hlen) as Hcopy.
  destruct cat; cbn [shift_and_construct_forward]; [exact Hcopy|].
  unfold shift_and_construct_rvalue.
  destruct (is_nothrow_move_constructible tr
            || (negb (is_nothrow_move_constructible tr)
                && negb (is_copy_constructible tr))); [|exact Hcopy].
  run_binds. cbn [self data_ size_].
  rewrite !ptr_add_add, !ptr_add_base by lia.
  destruct (lookup_lt_is_Some_2 bl (Z.to_nat s) ltac:(lia)) as [x0 Hx0].
  rewrite (bind_load_at _ x0)
    by (rewrite (read_slot_block _ _ _ _ Hb) by lia; exact Hx0).
  rewrite (bind_ok _ _ _ _ _
             (construct_move_run tr _ _
                (Machine (Vector (Ptr (S b) 0) s c) h None trc) _ eq_refl
                (write_slot_own h b bl s x0 Hb ltac:(lia)))).
  cbn [self trace].
  rewrite (list_insert_id bl _ _ Hx0), insert_block_id by exact Hb.
  unfold std_move_backward, assign_range, distance. cbn [off].
  rewrite wrapped_distance
    by (unfold difference_max, modulus in *; lia).
  unfold bind at 1.
  rewrite (shift_right_overrun s 1 (Z.to_nat (s + i)) _ h b bl None _ Hb)
    by lia.
  reflexivity.
Qed.

(** X27. Insertion at a position after [begin()], with room in the
    buffer and when nothing throws, is undefined: the index of the
    position is computed as [begin() - pos], which wraps around, and the
    elements are shifted from below the buffer. This holds for
    [insert(pos, count, value)] and [emplace(pos, x)] with [pos] before
    [end()], and for [insert(pos, values)] up to [end()] included. *)
Theorem insert_after_begin_undefined (i : Z) m :
  wf m -> throw_after m = None ->
  0 < i <= size_ (self m) ->
  (forall (count : Z) (value : T),
     i < size_ (self m) -> 0 <= count ->
     size_ (self m) + count < capacity_ (self m) ->
     insert tr (ptr_add (data_ (self m)) i) count value m = Fault)
  /\ (forall (cat : value_category) (x : T),
        i < size_ (self m) ->
        size_ (self m) + 1 < capacity_ (self m) ->
        emplace tr cat (ptr_add (data_ (self m)) i) x m = Fault)
  /\ (forall values : list T,
        size_ (self m) + Z.of_nat (length values) < capacity_ (self m) ->
        insert_init_list tr (ptr_add (data_ (self m)) i) values m = Fault).
Proof.
  pose proof difference_max_lt_modulus as Hmax.
  intros Hwf Hta Hi.
  destruct m as [[d s c] h ta trc].
  cbn [self mem throw_after data_ size_ capacity_] in *. subst ta.
  destruct Hwf as (Hs & Hc & Hbuf). cbn [self mem data_ size_ capacity_] in *.
  destruct Hbuf as [[-> ->] | (b & bl & -> & Hb & Hlen)]; [lia|].
  rewrite (ptr_add_base (S b) i) by lia.
  assert (Hne : ptr_eqb (Ptr (S b) i) (Ptr (S b) s) = (i =? s)).
  { unfold ptr_eqb. cbn [blk off]. rewrite Nat.eqb_refl. reflexivity. }
  split; [|split].
  - intros count value Hlt Hcount Hg.
    unfold insert. run_binds. cbv zeta. cbn [self data_ size_ capacity_].
    rewrite guard_below by lia.
    run_binds. cbn [self data_ size_].
    rewrite (ptr_add_base (S b) s), Hne by lia.
    destruct (i =? s) eqn:E; [apply Z.eqb_eq in E; lia|].
    unfold distance. cbn [off]. rewrite wrapped_index by lia.
    unfold bind at 1.
    rewrite (shift_and_construct_wrapped i count value s c h b bl trc Hb)
      by lia.
    reflexivity.
  - intros cat x Hlt Hg.
    unfold emplace. run_binds. cbv zeta. cbn [self data_ size_ capacity_].
    rewrite guard_below by lia.
    run_binds. cbn [self data_ size_].
    rewrite (ptr_add_base (S b) s), Hne by lia.
    destruct (i =? s) eqn:E; [apply Z.eqb_eq in E; lia|].
    unfold distance. cbn [off]. rewrite wrapped_index by lia.
    unfold bind at 1.
    rewrite (shift_and_construct_forward_wrapped cat i x s c h b bl trc Hb)
      by lia.
    reflexivity.
  - intros values Hg.
    unfold insert_init_list. run_binds. cbv zeta.
    cbn [self data_ size_ capacity_].
    rewrite guard_below by lia.
    unfold distance. cbn [off]. rewrite wrapped_index by lia.
    unfold shift_and_construct_init. run_binds.
    rewrite (bind_ok _ _ _ _ _
               (init_make_room_run values 0 s c h b bl trc Hb
                  ltac:(lia) ltac:(lia) ltac:(lia) ltac:(lia))).
    run_binds. cbn [self data_ size_].
    rewrite ptr_add_add, !ptr_add_base by lia.
    unfold std_copy_backward, assign_range, distance. cbn [off].
    rewrite wrapped_distance
    by (unfold difference_max, modulus in *; lia).
    unfold bind at 1.
    rewrite (shift_right_overrun s (Z.of_nat (length values))
               (Z.to_nat (s + i)) _ h b bl None _ Hb) by lia.
    reflexivity.
Qed.

End InsertAfterBegin.

(** ** Failures: allocation and element construction *)

Section Failures.

Context {T : Type}.
Implicit Types (m : @machine T) (h : heap T) (bl : list (slot T)) (l : list T).

(** X28. [assign(n, value)] with [n] above [max_size()] on a vector
    that owns a buffer: the old buffer is released before the new one
    is requested, the request throws [std::bad_alloc], and the vector
    is left with [data_] pointing to the released buffer and
    [capacity_ == n]; its destructor then releases the buffer a second
    time, which is undefined. *)
Theorem assign_beyond_max_size_dangles (n : Z) (value : T) m :
  wf m -> data_ (self m) <> nullptr -> max_size < n ->
  exists m',
    assign n value m = Throw bad_alloc m'
    /\ self m' = Vector (data_ (self m)) 0 n
    /\ block_at (mem m') (blk (data_ (self m))) = None
    /\ vector_destroy m' = Fault.
Proof.
  intros Hwf Hnn Hn. unfold max_size in Hn. unfold assign.
  destruct (destruct_all m Hwf) as (m1 & Hrun & Hwf1 & Hself1 & _).
  rewrite bind_get, (bind_ok _ _ _ _ _ Hrun).
  destruct m1 as [[d1 s1 c1] h1 ta1 trc1]. cbn [self] in Hself1.
  injection Hself1 as -> -> ->.
  destruct Hwf1 as (_ & Hc & Hbuf). cbn [self mem data_ size_ capacity_] in *.
  destruct Hbuf as [[Hd _] | (b & bl & Hd & Hb & Hlen)]; [contradiction|].
  rewrite Hd in *. pose proof (block_at_lt _ _ _ Hb) as Hblt.
  unfold capacity. run_binds. cbn [self capacity_].
  destruct (capacity_ (self m) <? n) eqn:E; [|apply Z.ltb_ge in E; lia].
  run_binds. cbn [self capacity_].
  unfold reallocate, deallocate, allocate, allocator_deallocate,
    allocator_allocate, set_capacity, set_size, set_data, set_self.
  unfold bind, get, ret.
  cbn [ptr_eqb nullptr blk off Nat.eqb Z.eqb andb self mem throw_after trace
       data_ size_ capacity_ pred].
  rewrite Hb. cbn [self mem throw_after trace data_ size_ capacity_].
  destruct (difference_max <? n) eqn:E'; [|apply Z.ltb_ge in E'; lia].
  eexists. split; [reflexivity|]. cbn [self mem].
  split; [reflexivity|].
  assert (Hrel : block_at (<[b := None]> h1) (S b) = None).
  { cbn [block_at]. rewrite list_lookup_insert_eq by lia. reflexivity. }
  split; [exact Hrel|].
  unfold vector_destroy, deallocate_and_destruct, destruct, for_, deallocate,
    allocator_deallocate.
  unfold bind, get.
  cbn [self mem throw_after trace data_ size_ capacity_].
  change (Z.to_nat (0 - 0)) with 0%nat. cbn [iterate]. unfold ret, set_size,
    set_self, bind, get.
  cbn [ptr_eqb nullptr blk off Nat.eqb Z.eqb andb self mem throw_after trace
       data_ size_ capacity_ pred].
  rewrite Hrel. reflexivity.
Qed.

Lemma construct_copy_counted (p : ptr) (x : slot T) v h h' (k : nat) trc :
  write_slot h p x = Some h' ->
  construct_copy p x (Machine v h (Some (S k)) trc)
  = Ok tt (Machine v h' (Some k) (trc ++ [EvConstruct p])).
Proof.
  intros Hw. unfold construct_copy, bind, may_throw, store, log.
  cbn [self mem throw_after trace]. rewrite Hw. reflexivity.
Qed.

Lemma construct_copy_throws (p : ptr) (x : slot T) v h trc :
  construct_copy p x (Machine v h (Some O) trc)
  = Throw element_exception (Machine v h None trc).
Proof. reflexivity. Qed.

(** The loop of [construct(size, value)] when the copy number [k]
    throws. *)
Lemma construct_loop_throws (value : T) (k : nat) :
  forall (n : nat) (idx : Z) v h (b : nat) bl trc,
    data_ v = Ptr (S b) 0 -> block_at h (S b) = Some bl ->
    (k < n)%nat -> 0 <= idx ->
    idx + Z.of_nat n <= Z.of_nat (length bl) ->
    Z.of_nat (length bl) <= difference_max ->
    iterate (fun index =>
               bind (get data_) (fun d =>
               construct_copy (ptr_add d index) (Some value)))
            n idx (Machine v h (Some k) trc)
    = Throw element_exception
        (Machine v
           (<[b := Some (write_list bl (Z.to_nat idx)
                           (replicate k (Some value)))]> h)
           None (trc ++ construct_events (S b) idx (Z.of_nat k))).
Proof.
  pose proof difference_max_lt_modulus as Hmax.
  induction k as [|k IH]; intros n idx v h b bl trc Hd Hb Hk Hidx Hn Hlen;
    (destruct n as [|n]; [lia|]); cbn [iterate replicate write_list].
  - rewrite bind_bind, bind_get. cbv beta.
    rewrite (bind_throw _ _ _ _ _ (construct_copy_throws _ _ _ _ _)).
    unfold construct_events. rewrite seqZ_nil by lia.
    rewrite fmap_nil, app_nil_r, insert_block_id by exact Hb.
    reflexivity.
  - rewrite bind_bind, bind_get. cbv beta. cbn [self]. rewrite Hd.
    rewrite ptr_add_base by lia.
    rewrite (bind_ok _ _ _ _ _
               (construct_copy_counted _ _ v _ _ k trc
                  (write_slot_own h b bl idx (Some value) Hb ltac:(lia)))).
    pose proof (block_at_lt _ _ _ Hb) as Hblt.
    rewrite (IH n (idx + 1) v _ b (<[Z.to_nat idx := Some value]> bl) _ Hd)
      by (rewrite ?length_insert;
          first [apply block_at_insert_eq; exact Hblt | lia]).
    rewrite list_insert_insert_eq.
    replace (Z.to_nat (idx + 1)) with (S (Z.to_nat idx)) by lia.
    unfold construct_events. rewrite (seqZ_cons idx (Z.of_nat (S k))) by lia.
    rewrite fmap_cons, <- app_assoc. cbn [app].
    replace (Z.pred (Z.of_nat (S k))) with (Z.of_nat k) by lia.
    reflexivity.
Qed.

(** X29. The constructor [vector(n, value)] when the copy number [k]
    of [value] throws: the exception leaves the constructor, and
    neither the [k] elements built so far are destroyed nor the buffer
    released. *)
Theorem vector_length_value_throw_leaks (n : Z) (value : T) (k : nat) m :
  throw_after m = Some k -> Z.of_nat k < n <= max_size ->
  exists m',
    vector_length_value n value m = Throw element_exception m'
    /\ block_at (mem m') (S (length (mem m)))
       = Some (replicate k (Some value) ++ replicate (Z.to_nat n - k) None)
    /\ trace m'
       = trace m ++ [EvAllocate (S (length (mem m))) n]
                 ++ construct_events (S (length (mem m))) 0 (Z.of_nat k).
Proof.
  intros Hta Hn. unfold max_size in Hn.
  destruct m as [[d s c] h ta trc]. cbn [self mem throw_after trace] in *.
  subst ta.
  unfold vector_length_value, allocate_and_copy_construct.
  rewrite (bind_ok _ _ _ _ _ (allocate_run n d s c h (Some k) trc ltac:(lia))).
  unfold construct. rewrite bind_set_size.
  cbn [self mem throw_after trace data_ size_ capacity_].
  unfold for_. rewrite Z.sub_0_r.
  rewrite (construct_loop_throws value k (Z.to_nat n) 0
             (Vector (Ptr (S (length h)) 0) n n) _ (length h)
             (replicate (Z.to_nat n) None) _ eq_refl (block_at_new _ _))
    by (rewrite ?length_replicate; lia).
  eexists. split; [reflexivity|]. cbn [mem trace].
  rewrite release_new_some. split; [|rewrite <- app_assoc; reflexivity].
  rewrite block_at_new. f_equal.
  change (Z.to_nat 0) with 0%nat.
  rewrite write_list_explicit by (rewrite !length_replicate; lia).
  rewrite take_0, app_nil_l, length_replicate, drop_replicate. reflexivity.
Qed.


End Failures.

(** ** Insertions that reach the capacity *)

Section AtCapacity.

Context {T : Type}.
Variable tr : traits.
Implicit Types (m : @machine T) (h : heap T) (bl : list (slot T)) (l : list T).

Lemma shape_block_length h h' (b : nat) bl bl' :
  shape h' = shape h ->
  block_at h (S b) = Some bl -> block_at h' (S b) = Some bl' ->
  length bl' = length bl.
Proof.
  intros Hsh Hb Hb'. apply block_at_lookup in Hb, Hb'.
  apply (f_equal (fun sh => sh !! b)) in Hsh. unfold shape in Hsh.
  rewrite !list_lookup_fmap, Hb, Hb' in Hsh. cbn in Hsh.
  injection Hsh as Hsh. exact Hsh.
Qed.

(** C1. The reallocation forced by [push_back] on the copy path, when
    [k] copies into the new block succeed and the next copy construction
    throws. The exception leaves [push_back]; the [k] copies are
    destroyed and the new block is released; the size, the address of
    the buffer and every slot of the free store are as before the call.
    The capacity is not: [emplace] has doubled [capacity_] before it
    calls [reallocate_strong_guarantee], which restores the fields as it
    found them, so the vector is left with twice the capacity of the
    buffer it owns. *)
Theorem push_back_copy_failure_doubles_capacity (x : T) m l (k : nat) :
  is_nothrow_move_constructible tr = false ->
  is_copy_constructible tr = true ->
  wf m -> contents m = Some l ->
  0 < size_ (self m) ->
  capacity_ (self m) <= size_ (self m) + 1 ->
  2 * capacity_ (self m) <= max_size ->
  throw_after m = Some (S k) ->
  Z.of_nat k < size_ (self m) ->
  exists m',
    push_back tr x m = Throw element_exception m'
    /\ data_ (self m') = data_ (self m)
    /\ size_ (self m') = size_ (self m)
    /\ capacity_ (self m') = 2 * capacity_ (self m)
    /\ (forall p, read_slot (mem m') p = read_slot (mem m) p)
    /\ (exists bl,
          block_at (mem m') (blk (data_ (self m'))) = Some bl
          /\ Z.of_nat (length bl) = capacity_ (self m))
    /\ trace m' =
         trace m ++ [EvAllocate (S (length (mem m))) (2 * capacity_ (self m))]
                 ++ construct_events (S (length (mem m))) 0 (Z.of_nat k)
                 ++ destroy_events (S (length (mem m))) 0 (Z.of_nat k)
                 ++ [EvDeallocate (S (length (mem m))) (2 * capacity_ (self m))]
    /\ ~ wf m'.
Proof.
  pose proof difference_max_lt_modulus as Hmax.
  intros Hnt Hcp Hwf _ Hpos Hfull Hcap Hta Hk. unfold max_size in Hcap.
  destruct m as [[d s c] h ta trc].
  cbn [self mem throw_after trace data_ size_ capacity_] in *. subst ta.
  destruct Hwf as (Hs & Hc & Hbuf). cbn [self mem data_ size_ capacity_] in *.
  destruct Hbuf as [[-> ->] | (b & bl & -> & Hb & Hlen)]; [lia|].
  pose proof (block_at_lt _ _ _ Hb) as Hblt.
  unfold push_back. rewrite bind_may_throw_some.
  unfold emplace_back, emplace. run_binds. cbv zeta.
  cbn [self data_ size_ capacity_].
  rewrite !(ptr_add_base (S b) s) by lia.
  unfold distance. cbn [off].
  rewrite (wrap_small (s + 1)) by lia.
  destruct (s + 1 <? c) eqn:E; [apply Z.ltb_lt in E; lia|].
  assert (Hgrow :
    grow (fun v => capacity_ v <? wrap (1 + size_ v)) grow_fuel
      (Machine (Vector (Ptr (S b) 0) s c) h (Some k) trc)
    = Ok tt (Machine (Vector (Ptr (S b) 0) s (2 * c)) h (Some k) trc)).
  { unfold grow_fuel. cbn [grow]. run_binds. cbn [self capacity_].
    destruct (c =? 0) eqn:E0; [apply Z.eqb_eq in E0; lia|].
    run_binds. cbn [self capacity_]. rewrite bind_set_capacity.
    cbn [self mem throw_after trace data_ size_ capacity_].
    run_binds. cbn [self data_ size_ capacity_].
    unfold realloc_factor. rewrite (wrap_small (c * 2)), (wrap_small (1 + s))
      by lia.
    destruct (c * 2 <? 1 + s) eqn:E1; [apply Z.ltb_lt in E1; lia|].
    replace (c * 2) with (2 * c) by lia. reflexivity. }
  run_binds. rewrite (bind_ok _ _ _ _ _ Hgrow).
  run_binds. cbn [self capacity_].
  rewrite (bind_throw _ _ _ _ _
             (reallocate_copy_throw_at tr (Vector (Ptr (S b) 0) s (2 * c)) h b bl
                trc (2 * c) k Hnt Hcp eq_refl Hb
                ltac:(cbn [size_]; lia) ltac:(lia)
                ltac:(cbn [size_]; lia) ltac:(cbn [size_]; lia))).
  eexists. split; [reflexivity|].
  unfold rolled_back. cbn [self mem trace data_ size_ capacity_ blk].
  assert (Hblk : block_at (h ++ [None]) (S b) = Some bl)
    by (apply block_at_app_l; exact Hb).
  split; [reflexivity|]. split; [reflexivity|]. split; [reflexivity|].
  split; [apply read_slot_released|].
  split; [exists bl; split; [exact Hblk | exact Hlen]|].
  split; [reflexivity|].
  intros (_ & _ & Hbuf'). cbn [self mem data_ size_ capacity_] in Hbuf'.
  destruct Hbuf' as [[Hnull _] | (b' & bl' & Hd' & Hb' & Hlen')];
    [discriminate|].
  injection Hd' as <-. rewrite Hblk in Hb'. injection Hb' as <-. lia.
Qed.

(** C4. [reserve(n)] on a vector without buffer, for [n] at least 2,
    and then [n] calls of [push_back]. The first [n - 1] calls return
    and leave the buffer and the capacity as [reserve] set them. The
    call number [n], which brings the number of elements to [n] and not
    above, finds [size() + 1 < capacity()] false, takes the reallocating
    branch of [emplace] and has undefined behaviour there. *)
Theorem reserve_then_push_back_to_capacity (n : Z) (values : list T) (x : T)
  h trc :
  2 <= n -> 2 * n <= max_size ->
  Z.of_nat (length values) = n - 1 ->
  exists m1 m2,
    reserve tr n (Machine (Vector nullptr 0 0) h None trc) = Ok tt m1
    /\ capacity_ (self m1) = n
    /\ push_back_all tr values m1 = Ok tt m2
    /\ size_ (self m2) = n - 1
    /\ capacity_ (self m2) = n
    /\ data_ (self m2) = data_ (self m1)
    /\ shape (mem m2) = shape (mem m1)
    /\ push_back tr x m2 = Fault.
Proof.
  pose proof difference_max_lt_modulus as Hmax.
  intros Hn Hmaxn Hvalues. unfold max_size in Hmaxn.
  assert (Hres :
    reserve tr n (Machine (Vector nullptr 0 0) h None trc)
    = Ok tt (Machine (Vector (Ptr (S (length h)) 0) 0 n)
               (h ++ [Some (replicate (Z.to_nat n) None)]) None
               (trc ++ [EvAllocate (S (length h)) n]))).
  { unfold reserve, max_size.
    destruct (difference_max <? n) eqn:E; [apply Z.ltb_lt in E; lia|].
    rewrite bind_get. cbn [self capacity_].
    destruct (0 <? n) eqn:E'; [|apply Z.ltb_ge in E'; lia].
    apply reallocate_run_null. lia. }
  destruct (push_back_all_below tr values 0 n
              (h ++ [Some (replicate (Z.to_nat n) None)]) (length h)
              (replicate (Z.to_nat n) None)
              (trc ++ [EvAllocate (S (length h)) n]))
    as (h' & bl' & trc' & Hrun & Hb' & Hsh & _);
    [ apply block_at_new | rewrite length_replicate; lia | lia | lia | lia |].
  pose proof (shape_block_length _ _ _ _ _ Hsh (block_at_new h _) Hb') as Hl'.
  rewrite length_replicate in Hl'.
  eexists. eexists. split; [exact Hres|].
  split; [reflexivity|]. split; [exact Hrun|].
  cbn [self mem data_ size_ capacity_].
  split; [lia|]. split; [reflexivity|]. split; [reflexivity|].
  split; [exact Hsh|].
  apply (push_back_full_run tr x _ n h' (length h) bl' trc' Hb'); lia.
Qed.

(** C9. Construction from an initializer list, [clear()], and
    [push_back] while the buffer has room. After the list [v] of one
    element, [clear()] leaves the buffer of one slot with size 0 and
    capacity 1; [push_back] then finds [size() + 1 < capacity()] false
    and takes the reallocating branch of [emplace]: the call does not
    return with the buffer it had. After the list [v; w], [clear()] and
    a first [push_back], which stays in the buffer of two slots, the
    second [push_back] takes the same branch and has undefined
    behaviour there. *)
Theorem clear_then_push_back_within_capacity (v w x y : T) :
  (exists m1 m2,
     vector_init_list [v] (boot None) = Ok tt m1
     /\ clear m1 = Ok tt m2
     /\ size_ (self m2) = 0
     /\ capacity_ (self m2) = 1
     /\ data_ (self m2) = data_ (self m1)
     /\ forall m3,
          push_back tr x m2 = Ok tt m3 ->
          data_ (self m3) <> data_ (self m2)
          /\ capacity_ (self m3) <> capacity_ (self m2)
          /\ shape (mem m3) <> shape (mem m2))
  /\ (exists m1 m2 m3,
        vector_init_list [v; w] (boot None) = Ok tt m1
        /\ clear m1 = Ok tt m2
        /\ size_ (self m2) = 0
        /\ capacity_ (self m2) = 2
        /\ push_back tr x m2 = Ok tt m3
        /\ size_ (self m3) = 1
        /\ capacity_ (self m3) = 2
        /\ data_ (self m3) = data_ (self m1)
        /\ shape (mem m3) = shape (mem m1)
        /\ push_back tr y m3 = Fault).
Proof.
  split.
  - do 2 eexists.
    split; [vm_compute; reflexivity|].
    split; [vm_compute; reflexivity|].
    cbn [self data_ size_ capacity_].
    split; [reflexivity|]. split; [reflexivity|]. split; [reflexivity|].
    intros m3 H.
    destruct tr as [[] []]; vm_compute in H; injection H as <-;
      cbn; repeat split; discriminate.
  - destruct tr as [[] []]; do 3 eexists;
      (split; [vm_compute; reflexivity|]);
      (split; [vm_compute; reflexivity|]);
      (split; [reflexivity|]); (split; [reflexivity|]);
      (split; [vm_compute; reflexivity|]);
      cbn [self mem data_ size_ capacity_];
      repeat (split; [reflexivity|]);
      vm_compute; reflexivity.
Qed.

End AtCapacity.

(** ** The theorems at concrete vectors *)

Lemma reserve_keeps_elements_witness :
  exists m',
    reserve nothrow_movable 10 four_of_eight = Ok tt m'
    /\ wf m'
    /\ contents m' = Some [4; 8; 1; 5]
    /\ capacity_ (self m') = Z.max (capacity_ (self four_of_eight)) 10
    /\ (10 <= capacity_ (self four_of_eight) -> m' = four_of_eight)
    /\ (capacity_ (self four_of_eight) < 10 ->
        data_ (self m') = Ptr (S (length (mem four_of_eight))) 0
        /\ (data_ (self four_of_eight) <> nullptr ->
            block_at (mem m') (blk (data_ (self four_of_eight))) = None)).
Proof.
  apply (reserve_keeps_elements nothrow_movable 10 four_of_eight [4; 8; 1; 5]).
  - apply wfb_wf. reflexivity.
  - reflexivity.
  - reflexivity.
  - vm_compute. discriminate.
Defined.

Lemma shrink_to_fit_fits_witness :
  exists m',
    shrink_to_fit nothrow_movable four_of_eight = Ok tt m'
    /\ wf m'
    /\ contents m' = Some [4; 8; 1; 5]
    /\ size_ (self m') = size_ (self four_of_eight)
    /\ capacity_ (self m') = size_ (self four_of_eight)
    /\ (capacity_ (self four_of_eight) = size_ (self four_of_eight) ->
        m' = four_of_eight).
Proof.
  apply (shrink_to_fit_fits nothrow_movable four_of_eight [4; 8; 1; 5]).
  - apply wfb_wf. reflexivity.
  - reflexivity.
  - reflexivity.
Defined.

Lemma pop_back_removes_last_witness :
  exists m',
    pop_back four_of_eight = Ok tt m'
    /\ wf m'
    /\ contents m' = Some [4; 8; 1]
    /\ data_ (self m') = data_ (self four_of_eight)
    /\ capacity_ (self m') = capacity_ (self four_of_eight)
    /\ read_slot (mem m')
         (ptr_add (data_ (self four_of_eight)) (Z.of_nat (length [4; 8; 1])))
       = Some None.
Proof.
  apply (pop_back_removes_last four_of_eight [4; 8; 1] 5).
  - apply wfb_wf. reflexivity.
  - reflexivity.
Defined.

Lemma pop_back_empty_witness : pop_back (boot (T := Z) None) = Fault.
Proof.
  apply (pop_back_empty_undefined (boot None)).
  - apply wfb_wf. reflexivity.
  - reflexivity.
Defined.



Lemma resize_shrinks_witness :
  exists m',
    resize nothrow_movable 2 (Outside 0) four_of_eight = Ok tt m'
    /\ wf m'
    /\ contents m' = Some (take (Z.to_nat 2) [4; 8; 1; 5])
    /\ size_ (self m') = 2
    /\ capacity_ (self m') = capacity_ (self four_of_eight)
    /\ data_ (self m') = data_ (self four_of_eight).
Proof.
  apply (resize_shrinks nothrow_movable 2 (Outside 0) four_of_eight
           [4; 8; 1; 5]).
  - apply wfb_wf. reflexivity.
  - reflexivity.
  - split; [vm_compute; discriminate | reflexivity].
Defined.

Lemma resize_grows_witness :
  exists m',
    resize nothrow_movable 7 (Inside (Ptr 1 1)) four_of_eight = Ok tt m'
    /\ wf m'
    /\ contents m'
       = Some ([4; 8; 1; 5]
                 ++ replicate (Z.to_nat (7 - size_ (self four_of_eight))) 8)
    /\ size_ (self m') = 7
    /\ capacity_ (self m') = Z.max (capacity_ (self four_of_eight)) 7.
Proof.
  apply (resize_grows nothrow_movable 7 (Inside (Ptr 1 1)) 8 four_of_eight
           [4; 8; 1; 5]).
  - apply wfb_wf. reflexivity.
  - reflexivity.
  - reflexivity.
  - split; vm_compute; discriminate.
  - exists 1. split; [cbn; lia|]. split; reflexivity.
  - cbn. lia.
Defined.

Lemma resize_own_element_dangles_witness :
  resize nothrow_movable 9 (Inside (ptr_add (data_ (self four_of_eight)) 1))
    four_of_eight
  = Fault.
Proof.
  apply (resize_own_element_dangles nothrow_movable 9 1 four_of_eight
           [4; 8; 1; 5]).
  - apply wfb_wf. reflexivity.
  - reflexivity.
  - reflexivity.
  - split; [reflexivity | vm_compute; discriminate].
  - cbn. lia.
Defined.

Lemma assign_fills_witness :
  exists m',
    assign 9 3 four_of_eight = Ok tt m'
    /\ wf m'
    /\ contents m' = Some (replicate (Z.to_nat 9) 3)
    /\ size_ (self m') = 9
    /\ capacity_ (self m') = Z.max (capacity_ (self four_of_eight)) 9.
Proof.
  apply (assign_fills 9 3 four_of_eight).
  - apply wfb_wf. reflexivity.
  - reflexivity.
  - split; vm_compute; discriminate.
Defined.

Lemma assign_init_list_fills_witness :
  exists m',
    assign_init_list [1; 2; 3] four_of_eight = Ok tt m'
    /\ wf m'
    /\ contents m' = Some [1; 2; 3]
    /\ capacity_ (self m')
       = Z.max (capacity_ (self four_of_eight)) (Z.of_nat (length [1; 2; 3])).
Proof.
  apply (assign_init_list_fills [1; 2; 3] four_of_eight).
  - apply wfb_wf. reflexivity.
  - reflexivity.
  - vm_compute. discriminate.
Defined.

Lemma vector_length_value_holds_witness :
  exists m',
    vector_length_value 3 7 (boot (T := Z) None) = Ok tt m'
    /\ wf m'
    /\ contents m' = Some (replicate (Z.to_nat 3) 7)
    /\ self m' = Vector (Ptr (S (length (mem (boot (T := Z) None)))) 0) 3 3
    /\ (forall b bl, block_at (mem (boot (T := Z) None)) b = Some bl ->
          block_at (mem m') b = Some bl).
Proof.
  apply (vector_length_value_holds 3 7 (boot None)).
  - reflexivity.
  - split; vm_compute; discriminate.
Defined.

Lemma vector_destroy_releases_witness :
  exists m',
    vector_destroy four_of_eight = Ok tt m'
    /\ trace m'
       = trace four_of_eight
         ++ destroy_events (blk (data_ (self four_of_eight))) 0
              (size_ (self four_of_eight))
         ++ (if ptr_eqb (data_ (self four_of_eight)) nullptr then []
             else [EvDeallocate (blk (data_ (self four_of_eight)))
                                (capacity_ (self four_of_eight))])
    /\ (data_ (self four_of_eight) <> nullptr ->
        block_at (mem m') (blk (data_ (self four_of_eight))) = None)
    /\ keeps_except (blk (data_ (self four_of_eight)))
         (mem four_of_eight) (mem m')
    /\ length (mem m') = length (mem four_of_eight).
Proof.
  apply (vector_destroy_releases four_of_eight).
  apply wfb_wf. reflexivity.
Defined.

Lemma vector_copy_deep_witness :
  exists m',
    vector_copy seven_nine two_vectors = Ok tt m'
    /\ wf m'
    /\ contents m' = Some [7; 9]
    /\ capacity_ (self m') = (if ptr_eqb (data_ seven_nine) nullptr then 0
                              else size_ seven_nine)
    /\ (data_ seven_nine <> nullptr -> data_ (self m') <> data_ seven_nine)
    /\ wf (view seven_nine m')
    /\ contents (view seven_nine m') = Some [7; 9].
Proof.
  apply (vector_copy_deep seven_nine two_vectors [7; 9]).
  - apply wfb_wf. reflexivity.
  - reflexivity.
  - reflexivity.
Defined.

Lemma copy_assign_copies_witness :
  exists m',
    copy_assign false seven_nine two_vectors = Ok tt m'
    /\ wf m'
    /\ contents m' = Some [7; 9]
    /\ capacity_ (self m')
       = Z.max (capacity_ (self two_vectors)) (size_ seven_nine)
    /\ wf (view seven_nine m')
    /\ contents (view seven_nine m') = Some [7; 9].
Proof.
  apply (copy_assign_copies seven_nine two_vectors [7; 9]).
  - apply wfb_wf. reflexivity.
  - apply wfb_wf. reflexivity.
  - reflexivity.
  - reflexivity.
  - vm_compute. discriminate.
  - vm_compute. discriminate.
Defined.

Lemma copy_assign_from_null_witness :
  exists m',
    copy_assign false (Vector nullptr 0 0) four_of_eight = Ok tt m'
    /\ self m' = Vector nullptr 0 (capacity_ (self four_of_eight))
    /\ (data_ (self four_of_eight) <> nullptr ->
        exists bl,
          block_at (mem m') (blk (data_ (self four_of_eight))) = Some bl)
    /\ (0 < capacity_ (self four_of_eight) -> ~ wf m').
Proof.
  apply (copy_assign_from_null (Vector nullptr 0 0) four_of_eight).
  - apply wfb_wf. reflexivity.
  - reflexivity.
Defined.

Lemma move_assign_drops_elements_witness :
  exists m',
    move_assign false seven_nine two_vectors = Ok (Vector nullptr 0 0) m'
    /\ self m' = Vector (data_ seven_nine) 0 0
    /\ contents m' = Some []
    /\ contents (view seven_nine m') = Some [7; 9]
    /\ (data_ (self two_vectors) <> nullptr ->
        block_at (mem m') (blk (data_ (self two_vectors))) = None)
    /\ exists m'',
         vector_destroy m' = Ok tt m''
         /\ trace m'' = trace m' ++ [EvDeallocate (blk (data_ seven_nine)) 0].
Proof.
  apply (move_assign_drops_elements seven_nine two_vectors [7; 9]).
  - apply wfb_wf. reflexivity.
  - apply wfb_wf. reflexivity.
  - reflexivity.
  - vm_compute. discriminate.
  - vm_compute. discriminate.
Defined.

Lemma insert_at_end_adds_one_witness :
  exists p m',
    insert nothrow_movable
      (ptr_add (data_ (self four_of_eight)) (size_ (self four_of_eight)))
      3 7 four_of_eight
    = Ok p m'
    /\ wf m'
    /\ contents m' = Some ([4; 8; 1; 5] ++ [7])
    /\ size_ (self m') = size_ (self four_of_eight) + 1
    /\ data_ (self m') = data_ (self four_of_eight)
    /\ capacity_ (self m') = capacity_ (self four_of_eight).
Proof.
  apply (insert_at_end_adds_one nothrow_movable 3 7 four_of_eight [4; 8; 1; 5]).
  - apply wfb_wf. reflexivity.
  - reflexivity.
  - reflexivity.
  - vm_compute. discriminate.
  - reflexivity.
Defined.

Lemma erase_at_after_begin_witness :
  erase_at nothrow_movable (ptr_add (data_ (self four_of_eight)) 2)
    four_of_eight
  = Fault.
Proof.
  apply (erase_at_after_begin_undefined nothrow_movable 2 four_of_eight).
  - apply wfb_wf. reflexivity.
  - split; [reflexivity | vm_compute; discriminate].
Defined.

Lemma vector_range_nonempty_witness :
  exists m',
    vector_range (Ptr 1 0) (ptr_add (Ptr 1 0) 4) four_of_eight
    = Throw bad_alloc m'
    /\ mem m' = mem four_of_eight
    /\ trace m' = trace four_of_eight
    /\ capacity_ (self m') = modulus - 4.
Proof.
  apply (vector_range_nonempty_throws (Ptr 1 0) 4 four_of_eight).
  - vm_compute. discriminate.
  - reflexivity.
  - split; [reflexivity | vm_compute; discriminate].
Defined.

Lemma assign_range_nonempty_witness :
  assign_range_of (Ptr 2 0) (ptr_add (Ptr 2 0) 2) two_vectors = Fault.
Proof.
  apply (assign_range_nonempty_undefined (Ptr 2 0) 2 two_vectors).
  - apply wfb_wf. reflexivity.
  - vm_compute. discriminate.
  - reflexivity.
  - split; [reflexivity | vm_compute; discriminate].
Defined.

Lemma four_of_eight_unused_raw : unused_raw four_of_eight.
Proof.
  intros i Hi. cbn [four_of_eight self size_ capacity_] in Hi.
  assert (i = 4 \/ i = 5 \/ i = 6 \/ i = 7) as [-> | [-> | [-> | ->]]] by lia;
    reflexivity.
Qed.


Lemma insert_at_begin_witness :
  insert nothrow_movable (data_ (self four_of_eight)) 2 7 four_of_eight = Fault.
Proof.
  apply (insert_at_begin_undefined nothrow_movable 2 7 four_of_eight).
  - apply wfb_wf. reflexivity.
  - exact four_of_eight_unused_raw.
  - reflexivity.
  - reflexivity.
  - reflexivity.
  - reflexivity.
Defined.

Lemma emplace_at_begin_witness :
  emplace nothrow_movable rvalue (data_ (self four_of_eight)) 7 four_of_eight
  = Fault
  /\ insert_value nothrow_movable rvalue (data_ (self four_of_eight)) 7
       four_of_eight
     = Fault.
Proof.
  apply (emplace_at_begin_undefined nothrow_movable rvalue 7 four_of_eight).
  - apply wfb_wf. reflexivity.
  - exact four_of_eight_unused_raw.
  - reflexivity.
  - reflexivity.
  - reflexivity.
Defined.

Lemma insert_init_list_at_begin_witness :
  insert_init_list nothrow_movable (data_ (self four_of_eight)) [1; 2]
    four_of_eight
  = Fault.
Proof.
  apply (insert_init_list_at_begin_undefined nothrow_movable [1; 2]
           four_of_eight).
  - apply wfb_wf. reflexivity.
  - exact four_of_eight_unused_raw.
  - reflexivity.
  - reflexivity.
  - discriminate.
  - reflexivity.
Defined.

Lemma push_back_full_witness : push_back nothrow_movable 1 full_pair = Fault.
Proof.
  apply (push_back_full_undefined nothrow_movable 1 full_pair).
  - apply wfb_wf. reflexivity.
  - reflexivity.
  - reflexivity.
  - vm_compute. discriminate.
  - vm_compute. discriminate.
Defined.

Lemma insert_after_begin_witness :
  (forall (count : Z) (value : Z),
     2 < size_ (self four_of_eight) -> 0 <= count ->
     size_ (self four_of_eight) + count < capacity_ (self four_of_eight) ->
     insert nothrow_movable (ptr_add (data_ (self four_of_eight)) 2) count
       value four_of_eight
     = Fault)
  /\ (forall (cat : value_category) (x : Z),
        2 < size_ (self four_of_eight) ->
        size_ (self four_of_eight) + 1 < capacity_ (self four_of_eight) ->
        emplace nothrow_movable cat (ptr_add (data_ (self four_of_eight)) 2) x
          four_of_eight
        = Fault)
  /\ (forall values : list Z,
        size_ (self four_of_eight) + Z.of_nat (length values)
        < capacity_ (self four_of_eight) ->
        insert_init_list nothrow_movable
          (ptr_add (data_ (self four_of_eight)) 2) values four_of_eight
        = Fault).
Proof.
  apply (insert_after_begin_undefined nothrow_movable 2 four_of_eight).
  - apply wfb_wf. reflexivity.
  - reflexivity.
  - split; [reflexivity | vm_compute; discriminate].
Defined.

Lemma assign_beyond_max_size_witness :
  exists m',
    assign (max_size + 1) 0 four_of_eight = Throw bad_alloc m'
    /\ self m' = Vector (data_ (self four_of_eight)) 0 (max_size + 1)
    /\ block_at (mem m') (blk (data_ (self four_of_eight))) = None
    /\ vector_destroy m' = Fault.
Proof.
  apply (assign_beyond_max_size_dangles (max_size + 1) 0 four_of_eight).
  - apply wfb_wf. reflexivity.
  - vm_compute. discriminate.
  - reflexivity.
Defined.

Lemma vector_length_value_throw_witness :
  exists m',
    vector_length_value 3 7 (boot (T := Z) (Some 1%nat))
    = Throw element_exception m'
    /\ block_at (mem m') (S (length (mem (boot (T := Z) (Some 1%nat)))))
       = Some (replicate 1 (Some 7) ++ replicate (Z.to_nat 3 - 1) None)
    /\ trace m'
       = trace (boot (T := Z) (Some 1%nat))
         ++ [EvAllocate (S (length (mem (boot (T := Z) (Some 1%nat))))) 3]
         ++ construct_events (S (length (mem (boot (T := Z) (Some 1%nat)))))
              0 (Z.of_nat 1).
Proof.
  apply (vector_length_value_throw_leaks 3 7 1 (boot (Some 1%nat))).
  - reflexivity.
  - split; [reflexivity | vm_compute; discriminate].
Defined.


Lemma push_back_copy_failure_witness :
  exists m',
    push_back copy_only 9 three_elements = Throw element_exception m'
    /\ data_ (self m') = data_ (self three_elements)
    /\ size_ (self m') = size_ (self three_elements)
    /\ capacity_ (self m') = 2 * capacity_ (self three_elements)
    /\ (forall p, read_slot (mem m') p = read_slot (mem three_elements) p)
    /\ (exists bl,
          block_at (mem m') (blk (data_ (self m'))) = Some bl
          /\ Z.of_nat (length bl) = capacity_ (self three_elements))
    /\ trace m' =
         trace three_elements
           ++ [EvAllocate (S (length (mem three_elements)))
                 (2 * capacity_ (self three_elements))]
           ++ construct_events (S (length (mem three_elements))) 0 (Z.of_nat 0)
           ++ destroy_events (S (length (mem three_elements))) 0 (Z.of_nat 0)
           ++ [EvDeallocate (S (length (mem three_elements)))
                 (2 * capacity_ (self three_elements))]
    /\ ~ wf m'.
Proof.
  apply (push_back_copy_failure_doubles_capacity copy_only 9 three_elements
           [4; 8; 1] 0).
  - reflexivity.
  - reflexivity.
  - apply wfb_wf. reflexivity.
  - reflexivity.
  - reflexivity.
  - cbn. lia.
  - vm_compute. discriminate.
  - reflexivity.
  - reflexivity.
Defined.

Lemma reserve_then_push_back_witness :
  exists m1 m2 : @machine Z,
    reserve nothrow_movable 3 (boot None) = Ok tt m1
    /\ capacity_ (self m1) = 3
    /\ push_back_all nothrow_movable [1; 2] m1 = Ok tt m2
    /\ size_ (self m2) = 3 - 1
    /\ capacity_ (self m2) = 3
    /\ data_ (self m2) = data_ (self m1)
    /\ shape (mem m2) = shape (mem m1)
    /\ push_back nothrow_movable 3 m2 = Fault.
Proof.
  apply (reserve_then_push_back_to_capacity nothrow_movable 3 [1; 2] 3 [] []).
  - lia.
  - vm_compute. discriminate.
  - reflexivity.
Defined.
